(** * lush / LLE prompt rendering core: a shallow embedding and its properties

    The development follows four translation units of the line editor:

    - [src/lle/prompt/prompt_expansion.c]  (module [Expansion])
    - [src/lle/prompt/powerline_renderer.c] (module [Powerline])
    - [src/lle/core/git_command.c]          (module [GitCommand])
    - [src/lle/core/async_worker.c]         (module [AsyncWorker])

    Bytes are integers [0..255] (the value of an [unsigned char]); a C string
    held in memory is a [list Z] that is read up to its first zero byte (the
    end of the list reads as the terminating NUL).  Character arrays that the
    code writes by index are lists updated with stdpp's [<[i:=x]>]. *)

From Stdlib Require Import ZArith Lia Bool Sorted.
From stdpp Require Import base list strings.

#[local] Open Scope Z_scope.

(** ** Characters and C strings *)

Module C.

(** The bytes of a string literal. *)
Definition lit (s : string) : list Z :=
  map (fun b => Z.of_N (Byte.to_N b)) (String.list_byte_of_string s).

(** [*p] on a C string: the end of the list is the terminating NUL. *)
Definition peek (p : list Z) : Z := hd 0 p.

(** The string a [char *] designates: the bytes before the first NUL. *)
Fixpoint c_str (s : list Z) : list Z :=
  match s with
  | [] => []
  | c :: s' => if c =? 0 then [] else c :: c_str s'
  end.

Definition strlen (s : list Z) : nat := length (c_str s).

(** A well-formed C string content: bytes, none of them NUL. *)
Definition is_cstring (s : list Z) : Prop := Forall (fun c => 0 < c < 256) s.

(** [strcmp (a, b) == 0]. *)
Definition streq (a b : list Z) : bool := bool_decide (c_str a = c_str b).

(** [strchr (s, c)] for [c != 0]: the suffix starting at the first [c]. *)
Fixpoint strchr (s : list Z) (c : Z) : option (list Z) :=
  match s with
  | [] => None
  | x :: s' => if x =? 0 then None else if x =? c then Some s else strchr s' c
  end.

(** [strrchr (s, c)] for [c != 0]: the suffix starting at the last [c]. *)
Fixpoint strrchr (s : list Z) (c : Z) : option (list Z) :=
  match s with
  | [] => None
  | x :: s' =>
      if x =? 0 then None
      else match strrchr s' c with
           | Some r => Some r
           | None => if x =? c then Some s else None
           end
  end.

(** [strstr (h, n)]: the suffix of [h] starting at the first occurrence of
    the string [n]. *)
Fixpoint strstr (h n : list Z) : option (list Z) :=
  if bool_decide (take (strlen n) (c_str h) = c_str n) then Some h
  else match h with
       | [] => None
       | x :: h' => if x =? 0 then None else strstr h' n
       end.

(** [snprintf (buf, size, "%s...", ...)]: the formatted text cut to
    [size - 1] bytes. *)
Definition snprintf (size : nat) (text : list Z) : list Z :=
  take (size - 1) (c_str text).

(** Decimal digits of a non-negative number, most significant first. *)
Fixpoint dec_digits (fuel : nat) (n : Z) (acc : list Z) : list Z :=
  match fuel with
  | O => acc
  | S fuel' =>
      let acc' := (48 + n mod 10) :: acc in
      if n / 10 =? 0 then acc' else dec_digits fuel' (n / 10) acc'
  end.

(** The conversions [%u] / [%lu] and [%d] / [%ld] of [printf]. *)
Definition fmt_u (n : Z) : list Z := dec_digits (S (Z.to_nat (Z.log2 n))) n [].
Definition fmt_d (v : Z) : list Z :=
  if v <? 0 then 45 :: fmt_u (- v) else fmt_u v.

Definition isspace (c : Z) : bool :=
  (c =? 32) || ((9 <=? c) && (c <=? 13)).

Definition isdigit (c : Z) : bool := (48 <=? c) && (c <=? 57).

Fixpoint skip_space (s : list Z) : list Z :=
  match s with
  | c :: s' => if isspace c then skip_space s' else s
  | [] => []
  end.

End C.

(** Modelled from the spec: the result codes of [lle/error_handling.h], which
    is not among the sources; the constructors are the taxonomy of the
    specification's error-handling section. *)
Inductive lle_result_t : Set :=
| LLE_SUCCESS
| LLE_ERROR_NULL_POINTER
| LLE_ERROR_INVALID_PARAMETER
| LLE_ERROR_INVALID_STATE
| LLE_ERROR_OUT_OF_MEMORY
| LLE_ERROR_RESOURCE_EXHAUSTED
| LLE_ERROR_SYSTEM_CALL
| LLE_ERROR_NOT_INITIALIZED
| LLE_ERROR_FEATURE_NOT_AVAILABLE.

(** ** prompt_expansion.c *)

Module Expansion.
Import C.

(** [struct passwd], the two members the expansion reads. *)
Record passwd := { pw_name : list Z; pw_dir : option (list Z) }.

(** What the expansion asks of its surroundings: the C implementation's
    [char] signedness, the answers of the POSIX calls, and the constants of
    [version.h] (not among the sources). *)
Record env := {
  char_signed : bool;
  getuid : Z;                          (* real user id *)
  geteuid : Z;                         (* effective user id; never consulted *)
  getpwuid : Z -> option passwd;
  gethostname : nat -> option (list Z); (* [None]: the call failed *)
  getcwd : nat -> option (list Z);      (* [None]: the call returned NULL *)
  strftime : nat -> list Z -> list Z;   (* buffer size, format: buffer after the call *)
  ttyname : option (list Z);            (* [ttyname (STDIN_FILENO)] *)
  LUSH_NAME : list Z;
  LUSH_VERSION_MAJOR : Z;
  LUSH_VERSION_MINOR : Z;
  LUSH_VERSION_STRING : list Z
}.

Definition PATH_MAX : nat := 4096.
Definition EXPAND_BUF_SIZE : nat := 4096.

(** The value of a [char] holding byte [c], as the comparisons see it. *)
Definition char_val (E : env) (c : Z) : Z :=
  if char_signed E && (128 <=? c) then c - 256 else c.

(** [expand_buf_t]: [buf] is the caller's array. *)
Record expand_buf_t := { buf : list Z; size : nat; pos : nat }.

Definition buf_init (buf : list Z) (size : nat) : expand_buf_t :=
  {| buf := if (0 <? size)%nat then <[0%nat := 0]> buf else buf;
     size := size; pos := 0 |}.

Definition buf_append_char (b : expand_buf_t) (c : Z) : expand_buf_t :=
  if (pos b + 1 <? size b)%nat
  then {| buf := <[(pos b + 1)%nat := 0]> (<[pos b := c]> (buf b));
          size := size b; pos := pos b + 1 |}
  else b.

(** The copying loop of [buf_append_str]. *)
Fixpoint buf_append_str_loop (b : expand_buf_t) (s : list Z) : expand_buf_t :=
  match s with
  | [] => b
  | c :: s' =>
      if negb (c =? 0) && (pos b + 1 <? size b)%nat
      then buf_append_str_loop
             {| buf := <[pos b := c]> (buf b); size := size b; pos := pos b + 1 |} s'
      else b
  end.

Definition buf_append_str (b : expand_buf_t) (s : option (list Z)) : expand_buf_t :=
  match s with
  | None => b
  | Some s =>
      let b' := buf_append_str_loop b s in
      if (0 <? size b')%nat
      then {| buf := <[(if (pos b' <? size b')%nat then pos b' else (size b' - 1)%nat) := 0]> (buf b');
              size := size b'; pos := pos b' |}
      else b'
  end.

Definition buf_append_int (b : expand_buf_t) (val : Z) : expand_buf_t :=
  buf_append_str b (Some (snprintf 32 (fmt_d val))).

Section Helpers.
Variable E : env.

Definition get_username : list Z :=
  match getpwuid E (getuid E) with
  | Some pw => pw_name pw
  | None => []
  end.

(** The prefix of [s] before the first byte [c] (storing a NUL over it). *)
Fixpoint cut_at (c : Z) (s : list Z) : list Z :=
  match s with
  | [] => []
  | x :: s' => if (x =? 0) || (x =? c) then [] else x :: cut_at c s'
  end.

Definition get_hostname_full (size : nat) : list Z :=
  match gethostname E size with
  | None => []
  | Some h => take (size - 1) (c_str h)
  end.

Definition get_hostname_short (size : nat) : list Z :=
  match gethostname E size with
  | None => []
  | Some h => cut_at 46 (take (size - 1) (c_str h))
  end.

Definition get_cwd_full (size : nat) : list Z :=
  match getcwd E size with
  | None => []
  | Some d => c_str d
  end.

Definition get_cwd_tilde (size : nat) : list Z :=
  let cwd := get_cwd_full PATH_MAX in
  let plain := snprintf size cwd in
  match getpwuid E (getuid E) with
  | Some pw =>
      match pw_dir pw with
      | Some dir =>
          let hlen := strlen dir in
          if bool_decide (take hlen cwd = c_str dir)
             && ((nth hlen cwd 0 =? 47) || (nth hlen cwd 0 =? 0))
          then snprintf size (126 :: drop hlen cwd)
          else plain
      | None => plain
      end
  | None => plain
  end.

Definition get_cwd_basename (size : nat) : list Z :=
  let tilde := get_cwd_tilde PATH_MAX in
  if streq tilde (lit "~") then snprintf size (lit "~")
  else if streq tilde (lit "/") then snprintf size (lit "/")
  else match strrchr tilde 47 with
       | Some last => snprintf size (tl last)
       | None => snprintf size tilde
       end.

Definition get_tty_name : list Z :=
  match ttyname E with
  | None => lit "?"
  | Some tty =>
      match strstr tty (lit "/dev/") with
      | Some dev => drop 5 dev
      | None => tty
      end
  end.

End Helpers.

(** *** Colour specifications *)

(** The value of a hexadecimal digit, if [c] is one. *)
Definition hex_digit (c : Z) : option Z :=
  if (48 <=? c) && (c <=? 57) then Some (c - 48)
  else if (97 <=? c) && (c <=? 102) then Some (c - 97 + 10)
  else if (65 <=? c) && (c <=? 70) then Some (c - 65 + 10)
  else None.

(** Wrap-around of [unsigned int] and [int] (32 bits).  Overflow of an
    [int], which C leaves undefined, is read as two's-complement wrap-around;
    it arises only for components that [%2x] read with a minus sign. *)
Definition uint_wrap (z : Z) : Z := z mod 2 ^ 32.
Definition int_wrap (z : Z) : Z := (z + 2 ^ 31) mod 2 ^ 32 - 2 ^ 31.

(** One [%2x] conversion of [sscanf], as the C library the program runs
    with (glibc) performs it: white space is skipped, then at most two
    characters are read: an optional sign and hexadecimal digits.  A prefix
    [0x] that fills the width is read as the number 0, and the scan goes on
    after it.  [None] is a matching failure. *)
Definition scan_2x (s : list Z) : option (Z * list Z) :=
  match skip_space s with
  | c1 :: r1 =>
      if (c1 =? 43) || (c1 =? 45) then
        match r1 with
        | c2 :: r2 =>
            match hex_digit c2 with
            | Some d => Some (if c1 =? 45 then uint_wrap (- d) else d, r2)
            | None => None
            end
        | [] => None
        end
      else
        match hex_digit c1 with
        | Some d1 =>
            match r1 with
            | c2 :: r2 =>
                if (c1 =? 48) && ((c2 =? 120) || (c2 =? 88)) then Some (0, r2)
                else match hex_digit c2 with
                     | Some d2 => Some (16 * d1 + d2, r2)
                     | None => Some (d1, r1)
                     end
            | [] => Some (d1, r1)
            end
        | None => None
        end
  | [] => None
  end.

(** [sscanf (s, "%2x%2x%2x", &r, &g, &bl) == 3]. *)
Definition sscanf_2x2x2x (s : list Z) : option (Z * Z * Z) :=
  match scan_2x (c_str s) with
  | Some (r, s1) =>
      match scan_2x s1 with
      | Some (g, s2) =>
          match scan_2x s2 with
          | Some (bl, _) => Some (r, g, bl)
          | None => None
          end
      | None => None
      end
  | None => None
  end.

Fixpoint span_digits (s : list Z) (acc : Z) : Z * list Z :=
  match s with
  | c :: s' => if isdigit c then span_digits s' (acc * 10 + (c - 48)) else (acc, s)
  | [] => (acc, [])
  end.

Definition LONG_MAX : Z := 2 ^ 63 - 1.
Definition LONG_MIN : Z := - 2 ^ 63.

(** [strtol (s, &end, 10)]: the value and [end]; [None] when no conversion
    is performed ([end == s]). *)
Definition strtol10 (s : list Z) : option (Z * list Z) :=
  let s1 := skip_space s in
  let '(neg, s2) :=
    match s1 with
    | c :: r => if c =? 45 then (true, r) else if c =? 43 then (false, r) else (false, s1)
    | [] => (false, s1)
    end in
  if isdigit (peek s2) then
    let '(v, rest) := span_digits s2 0 in
    Some (Z.max LONG_MIN (Z.min LONG_MAX (if neg then - v else v)), rest)
  else None.

(** The table [named] of [emit_color]. *)
Definition named : list (list Z * Z) :=
  [ (lit "black", 0); (lit "red", 1); (lit "green", 2); (lit "yellow", 3);
    (lit "blue", 4); (lit "magenta", 5); (lit "cyan", 6); (lit "white", 7);
    (lit "default", 9) ].

Fixpoint find_named (tbl : list (list Z * Z)) (spec : list Z) : option Z :=
  match tbl with
  | [] => None
  | (name, code) :: tbl' => if streq spec name then Some code else find_named tbl' spec
  end.

(** The escape texts [emit_color] formats. *)
Definition esc_rgb (fg : bool) (r g bl : Z) : list Z :=
  27 :: lit "[" ++ fmt_d (if fg then 38 else 48) ++ lit ";2;" ++ fmt_u r
     ++ lit ";" ++ fmt_u g ++ lit ";" ++ fmt_u bl ++ lit "m".
Definition esc_256 (fg : bool) (idx : Z) : list Z :=
  27 :: lit "[" ++ fmt_d (if fg then 38 else 48) ++ lit ";5;" ++ fmt_d idx ++ lit "m".
Definition esc_basic (fg : bool) (code : Z) : list Z :=
  27 :: lit "[" ++ fmt_d ((if fg then 30 else 40) + code) ++ lit "m".

(** The colour-cube component of [emit_color]:
    [(c > 47) ? (c - 35) / 40 : 0], the quotient taken on [unsigned int] and
    stored in an [int]. *)
Definition cube_index (c : Z) : Z :=
  if 47 <? c then int_wrap ((c - 35) / 40) else 0.

Definition emit_color (b : expand_buf_t) (spec : list Z) (color_depth : Z)
    (fg : bool) : expand_buf_t :=
  if color_depth =? 0 then b
  else
    match (if (peek spec =? 35) && (strlen spec =? 7)%nat
           then sscanf_2x2x2x (tl spec) else None) with
    | Some (r, g, bl) =>
        if 3 <=? color_depth then
          buf_append_str b (Some (snprintf 32 (esc_rgb fg r g bl)))
        else if 2 <=? color_depth then
          let ri := cube_index r in
          let gi := cube_index g in
          let bi := cube_index bl in
          let idx := int_wrap (16 + 36 * ri + 6 * gi + bi) in
          buf_append_str b (Some (snprintf 24 (esc_256 fg idx)))
        else b
    | None =>
        match (match strtol10 spec with
               | Some (num, e) =>
                   if (peek e =? 0) && (0 <=? num) && (num <=? 255)
                   then Some num else None
               | None => None
               end) with
        | Some num =>
            if 2 <=? color_depth then
              buf_append_str b (Some (snprintf 24 (esc_256 fg num)))
            else
              let code := Z.rem num 8 in
              buf_append_str b (Some (snprintf 16 (esc_basic fg code)))
        | None =>
            match find_named named spec with
            | Some code => buf_append_str b (Some (snprintf 16 (esc_basic fg code)))
            | None => b
            end
        end
    end.

(** *** Pass 2: the scanner of [expand_prompt_escapes] *)

(** [lle_prompt_expand_ctx_t]; [template_ctx] is a nullable pointer to the
    template engine's context, whose type [T] is declared elsewhere. *)
Record lle_prompt_expand_ctx_t (T : Type) := {
  template_ctx : option T;
  last_exit_status : Z;
  job_count : Z;
  history_number : Z;
  command_number : Z;
  color_depth : Z
}.
Arguments template_ctx {T} _.
Arguments last_exit_status {T} _.
Arguments job_count {T} _.
Arguments history_number {T} _.
Arguments command_number {T} _.
Arguments color_depth {T} _.

(** A character constant. *)
Definition ch (s : string) : Z := hd 0 (lit s).

(** The loop copying the parameter bytes of a CSI sequence: while [*p] is
    neither NUL nor at least [0x40], append it and advance. *)
Fixpoint copy_csi_params (E : env) (p : list Z) (b : expand_buf_t)
  : list Z * expand_buf_t :=
  match p with
  | [] => ([], b)
  | c :: p' =>
      if negb (c =? 0) && (char_val E c <? 64)
      then copy_csi_params E p' (buf_append_char b c)
      else (p, b)
  end.

(** The digit loop of [\0NNN]: at most [n] more octal digits. *)
Fixpoint octal_digits (E : env) (n : nat) (p : list Z) (val : Z) : list Z * Z :=
  match n with
  | O => (p, val)
  | S n' =>
      let c := char_val E (peek p) in
      if (48 <=? c) && (c <=? 55)
      then octal_digits E n' (tl p) (uint_wrap (val * 8 + uint_wrap (c - 48)))
      else (p, val)
  end.

(** The digit loop of [\xNN]: at most [n] more hexadecimal digits. *)
Fixpoint hex_digits (E : env) (n : nat) (p : list Z) (val : Z) : list Z * Z :=
  match n with
  | O => (p, val)
  | S n' =>
      let c := char_val E (peek p) in
      if (48 <=? c) && (c <=? 57)
      then hex_digits E n' (tl p) (uint_wrap (val * 16 + uint_wrap (c - 48)))
      else if (97 <=? c) && (c <=? 102)
      then hex_digits E n' (tl p) (uint_wrap (val * 16 + uint_wrap (c - 97 + 10)))
      else if (65 <=? c) && (c <=? 70)
      then hex_digits E n' (tl p) (uint_wrap (val * 16 + uint_wrap (c - 65 + 10)))
      else (p, val)
  end.

(** The loop advancing [p] to the closing brace or the NUL: the bytes passed
    over and where [p] stops. *)
Fixpoint span_brace (p : list Z) : list Z * list Z :=
  match p with
  | [] => ([], [])
  | c :: p' =>
      if negb (c =? 0) && negb (c =? 125)
      then let '(a, r) := span_brace p' in (c :: a, r)
      else ([], p)
  end.

(** The argument [{...}] of [%D], [%F] and [%K], once [*p == '{'] is known:
    the text between the braces cut to [cap - 1] bytes, and [p] after the
    closing brace. *)
Definition brace_arg (cap : nat) (p : list Z) : list Z * list Z :=
  let '(a, r) := span_brace (tl p) in
  (take (cap - 1) a, if peek r =? 125 then tl r else r).

Section Scanner.
Context {T : Type}.
Variable E : env.
Variable ctx : lle_prompt_expand_ctx_t T.

(** [time (NULL); localtime_r; strftime (t, size, fmt, &tm)] and the
    append of [t]. *)
Definition append_time (b : expand_buf_t) (size : nat) (fmt : list Z) : expand_buf_t :=
  buf_append_str b (Some (strftime E size fmt)).

(** The [switch (next)] of the bash escapes; [p] is already past [\X]. *)
Definition bash_escape (next : Z) (p : list Z) (b : expand_buf_t)
  : list Z * expand_buf_t :=
  if next =? ch "u" then (p, buf_append_str b (Some (get_username E)))
  else if next =? ch "h" then (p, buf_append_str b (Some (get_hostname_short E 256)))
  else if next =? ch "H" then (p, buf_append_str b (Some (get_hostname_full E 256)))
  else if next =? ch "w" then (p, buf_append_str b (Some (get_cwd_tilde E PATH_MAX)))
  else if next =? ch "W" then (p, buf_append_str b (Some (get_cwd_basename E PATH_MAX)))
  else if next =? ch "d" then (p, append_time b 64 (lit "%a %b %d"))
  else if next =? ch "t" then (p, append_time b 16 (lit "%H:%M:%S"))
  else if next =? ch "T" then (p, append_time b 16 (lit "%I:%M:%S"))
  else if next =? ch "@" then (p, append_time b 16 (lit "%I:%M %p"))
  else if next =? ch "A" then (p, append_time b 16 (lit "%H:%M"))
  else if next =? ch "$" then
    (p, buf_append_char b (if getuid E =? 0 then ch "#" else ch "$"))
  else if next =? ch "n" then (p, buf_append_char b 10)
  else if next =? ch "r" then (p, buf_append_char b 13)
  else if next =? 92 then (p, buf_append_char b 92)
  else if next =? ch "[" then (p, b)
  else if next =? ch "]" then (p, b)
  else if next =? ch "!" then (p, buf_append_int b (history_number ctx))
  else if next =? ch "#" then (p, buf_append_int b (command_number ctx))
  else if next =? ch "j" then (p, buf_append_int b (job_count ctx))
  else if next =? ch "l" then
    let tty := get_tty_name E in
    (p, buf_append_str b (Some (match strrchr tty 47 with
                                | Some base => tl base
                                | None => tty
                                end)))
  else if next =? ch "s" then (p, buf_append_str b (Some (LUSH_NAME E)))
  else if next =? ch "v" then
    (p, buf_append_str b
          (Some (snprintf 16 (fmt_d (LUSH_VERSION_MAJOR E) ++ lit "."
                              ++ fmt_d (LUSH_VERSION_MINOR E)))))
  else if next =? ch "V" then (p, buf_append_str b (Some (LUSH_VERSION_STRING E)))
  else if next =? ch "e" then (p, buf_append_char b 27)
  else if next =? ch "a" then (p, buf_append_char b 7)
  else if next =? ch "0" then
    let '(p', val) := octal_digits E 3 p 0 in
    (p', if val <=? 255 then buf_append_char b val else b)
  else if next =? ch "x" then
    let '(p', val) := hex_digits E 2 p 0 in
    (p', if val <=? 255 then buf_append_char b val else b)
  else (p, buf_append_char (buf_append_char b 92) next).

(** The [switch (next)] of the zsh escapes; [p] is already past [%X]. *)
Definition zsh_escape (next : Z) (p : list Z) (b : expand_buf_t)
  : list Z * expand_buf_t :=
  if next =? ch "n" then (p, buf_append_str b (Some (get_username E)))
  else if next =? ch "m" then (p, buf_append_str b (Some (get_hostname_short E 256)))
  else if next =? ch "M" then (p, buf_append_str b (Some (get_hostname_full E 256)))
  else if (next =? ch "d") || (next =? ch "/") then
    (p, buf_append_str b (Some (get_cwd_full E PATH_MAX)))
  else if next =? ch "~" then (p, buf_append_str b (Some (get_cwd_tilde E PATH_MAX)))
  else if (next =? ch "c") || (next =? ch ".") then
    (p, buf_append_str b (Some (get_cwd_basename E PATH_MAX)))
  else if next =? ch "#" then
    (p, buf_append_char b (if getuid E =? 0 then ch "#" else ch "%"))
  else if next =? ch "%" then (p, buf_append_char b (ch "%"))
  else if next =? ch "T" then (p, append_time b 16 (lit "%H:%M"))
  else if (next =? ch "t") || (next =? ch "@") then (p, append_time b 16 (lit "%l:%M %p"))
  else if next =? ch "*" then (p, append_time b 16 (lit "%H:%M:%S"))
  else if next =? ch "j" then (p, buf_append_int b (job_count ctx))
  else if next =? ch "l" then (p, buf_append_str b (Some (get_tty_name E)))
  else if next =? ch "?" then (p, buf_append_int b (last_exit_status ctx))
  else if next =? ch "D" then
    if peek p =? 123 then
      let '(fmt, p') := brace_arg 128 p in
      (p', append_time b 256 fmt)
    else (p, append_time b 32 (lit "%y-%m-%d"))
  else if next =? ch "B" then (p, buf_append_str b (Some (27 :: lit "[1m")))
  else if next =? ch "b" then (p, buf_append_str b (Some (27 :: lit "[22m")))
  else if next =? ch "U" then (p, buf_append_str b (Some (27 :: lit "[4m")))
  else if next =? ch "u" then (p, buf_append_str b (Some (27 :: lit "[24m")))
  else if next =? ch "S" then (p, buf_append_str b (Some (27 :: lit "[7m")))
  else if next =? ch "s" then (p, buf_append_str b (Some (27 :: lit "[27m")))
  else if next =? ch "F" then
    if peek p =? 123 then
      let '(spec, p') := brace_arg 64 p in
      (p', emit_color b spec (color_depth ctx) true)
    else (p, b)
  else if next =? ch "f" then (p, buf_append_str b (Some (27 :: lit "[39m")))
  else if next =? ch "K" then
    if peek p =? 123 then
      let '(spec, p') := brace_arg 64 p in
      (p', emit_color b spec (color_depth ctx) false)
    else (p, b)
  else if next =? ch "k" then (p, buf_append_str b (Some (27 :: lit "[49m")))
  else (p, buf_append_char (buf_append_char b (ch "%")) next).

(** One turn of the scanning loop, entered with [*p != 0]. *)
Definition scan_step (p : list Z) (b : expand_buf_t) : list Z * expand_buf_t :=
  if peek p =? 27 then
    let b1 := buf_append_char b (peek p) in
    let p1 := tl p in
    if peek p1 =? 91 then
      let b2 := buf_append_char b1 (peek p1) in
      let '(p3, b3) := copy_csi_params E (tl p1) b2 in
      if negb (peek p3 =? 0) then (tl p3, buf_append_char b3 (peek p3))
      else (p3, b3)
    else (p1, b1)
  else if (peek p =? 92) && negb (peek (tl p) =? 0) then
    bash_escape (peek (tl p)) (tl (tl p)) b
  else if (peek p =? 37) && negb (peek (tl p) =? 0) then
    zsh_escape (peek (tl p)) (tl (tl p)) b
  else (tl p, buf_append_char b (peek p)).

(** The scanning loop, at most [fuel] turns; [None] when the turns run out
    before the terminating NUL is reached. *)
Fixpoint scan_loop (fuel : nat) (p : list Z) (b : expand_buf_t)
  : option expand_buf_t :=
  if peek p =? 0 then Some b
  else match fuel with
       | O => None
       | S fuel' => let '(p', b') := scan_step p b in scan_loop fuel' p' b'
       end.

(** [expand_prompt_escapes]: the result code and the output array. *)
Definition expand_prompt_escapes (input : list Z) (output : list Z) (size : nat)
  : option (lle_result_t * list Z) :=
  match scan_loop (length input) input (buf_init output size) with
  | Some b => Some (LLE_SUCCESS, buf b)
  | None => None
  end.

End Scanner.

(** *** The public entry point *)

Section PromptExpand.
Context {T : Type}.
Variable E : env.

(** Modelled from the spec: [lle_template_evaluate] of the template engine
    (pass 1), which is not among the sources.  It is given the format, the
    template context and the size of the output array, and answers a result
    code and what it left in the array [intermediate]. *)
Variable lle_template_evaluate : list Z -> T -> nat -> lle_result_t * list Z.

(** [lle_prompt_expand]; a [None] argument is a NULL pointer.  The answer is
    the result code with the output array after the call. *)
Definition lle_prompt_expand (format : option (list Z)) (output : option (list Z))
    (output_size : nat) (ctx : option (lle_prompt_expand_ctx_t T))
  : option (lle_result_t * option (list Z)) :=
  match format, output, ctx with
  | Some format, Some output, Some ctx =>
      if (output_size =? 0)%nat then Some (LLE_ERROR_NULL_POINTER, Some output)
      else
        let output := <[0%nat := 0]> output in
        match template_ctx ctx with
        | Some tctx =>
            let '(r, intermediate) := lle_template_evaluate format tctx EXPAND_BUF_SIZE in
            match r with
            | LLE_SUCCESS =>
                match expand_prompt_escapes E ctx intermediate output output_size with
                | Some (r2, out) => Some (r2, Some out)
                | None => None
                end
            | _ => Some (r, Some output)
            end
        | None =>
            match expand_prompt_escapes E ctx format output output_size with
            | Some (r2, out) => Some (r2, Some out)
            | None => None
            end
        end
  | _, _, _ => Some (LLE_ERROR_NULL_POINTER, output)
  end.

End PromptExpand.

End Expansion.

(** ** powerline_renderer.c *)

Module Powerline.
Import C.

(** Modelled from the spec: the colour value of [lle/prompt/theme.h], which
    is not among the sources: a tagged union of no colour, a basic index, a
    256-palette index and a true colour, each with a bold flag. *)
Inductive lle_color_mode_t : Set :=
| LLE_COLOR_MODE_NONE
| LLE_COLOR_MODE_BASIC
| LLE_COLOR_MODE_256
| LLE_COLOR_MODE_TRUE.

Record lle_color_t := {
  mode : lle_color_mode_t;
  index : Z;
  red : Z; green : Z; blue : Z;
  bold : bool
}.

(** Modelled from the spec: the constructor [lle_color_rgb] of a true colour. *)
Definition lle_color_rgb (r g b : Z) : lle_color_t :=
  {| mode := LLE_COLOR_MODE_TRUE; index := 0; red := r; green := g; blue := b;
     bold := false |}.

Definition set_bold (c : lle_color_t) (v : bool) : lle_color_t :=
  {| mode := mode c; index := index c; red := red c; green := green c;
     blue := blue c; bold := v |}.

(** Modelled from the spec: the members of [lle_theme_t] that the renderer
    reads (the counts are the lengths of the lists). *)
Record lle_segment_config_t := {
  name : list Z;
  configured : bool;
  fg_color_set : bool; fg_color : lle_color_t;
  bg_color_set : bool; bg_color : lle_color_t;
  show_set : bool; show : bool
}.

Record lle_theme_t := {
  colors_text : lle_color_t;
  segment_configs : list lle_segment_config_t;
  enabled_segments : list (list Z);
  separator_left : list Z;
  separator_right : list Z
}.

(** Modelled from the spec: the prompt context, a snapshot of the shell
    state for one render. *)
Record lle_prompt_context_t := {
  username : list Z;
  hostname : list Z;
  cwd : list Z;
  cwd_display : list Z;
  last_exit_code : Z;
  background_job_count : Z;
  history_number : Z;
  command_number : Z;
  has_256_color : bool;
  has_true_color : bool
}.

(** Modelled from the spec: what a segment's render function fills in, and
    the segment descriptor with its optional visibility predicate. *)
Record lle_segment_output_t := {
  content : list Z;
  content_len : nat;
  is_empty : bool
}.

Record lle_prompt_segment_t := {
  is_visible : option (lle_prompt_context_t -> bool);
  render : lle_prompt_context_t -> lle_theme_t -> lle_result_t * lle_segment_output_t
}.

Inductive lle_powerline_direction_t : Set :=
| LLE_POWERLINE_LEFT_TO_RIGHT
| LLE_POWERLINE_RIGHT_TO_LEFT.

(** Rendered segment with resolved colours; [seg_content] holds the
    [seg_content_len] bytes stored before the NUL. *)
Record powerline_segment_t := {
  seg_content : list Z;
  seg_content_len : nat;
  fg : lle_color_t;
  bg : lle_color_t
}.

Definition POWERLINE_MAX_VISIBLE : nat := 32.

Definition default_segment_bg (name : list Z) : lle_color_t :=
  if streq name (lit "user") then lle_color_rgb 68 68 68
  else if streq name (lit "host") then lle_color_rgb 68 68 68
  else if streq name (lit "directory") then lle_color_rgb 0 95 175
  else if streq name (lit "git") then lle_color_rgb 135 95 175
  else if streq name (lit "status") then lle_color_rgb 175 0 0
  else if streq name (lit "jobs") then lle_color_rgb 175 95 0
  else if streq name (lit "time") then lle_color_rgb 58 58 58
  else if streq name (lit "shlvl") then lle_color_rgb 68 68 68
  else if streq name (lit "ssh") then lle_color_rgb 175 95 0
  else if streq name (lit "cmd_duration") then lle_color_rgb 175 95 0
  else if streq name (lit "virtualenv") then lle_color_rgb 0 135 0
  else if streq name (lit "container") then lle_color_rgb 0 135 135
  else if streq name (lit "aws") then lle_color_rgb 175 95 0
  else if streq name (lit "kubernetes") then lle_color_rgb 0 95 175
  else lle_color_rgb 68 68 68.

(** [append_ctx_t]: [buf] is the caller's array. *)
Record append_ctx_t := { buf : list Z; size : nat; pos : nat }.

(** [memcpy (dst + at, src, len)] on the array [dst]. *)
Definition memcpy (dst : list Z) (at_ : nat) (src : list Z) : list Z :=
  take at_ dst ++ src ++ drop (at_ + length src) dst.

(** [buf_append (a, str, len)] with [data] the [len] bytes at [str]. *)
Definition buf_append (a : append_ctx_t) (data : list Z) : append_ctx_t :=
  if (size a <=? pos a + length data)%nat then a
  else {| buf := <[(pos a + length data)%nat := 0]> (memcpy (buf a) (pos a) data);
          size := size a; pos := pos a + length data |}.

Definition buf_append_str (a : append_ctx_t) (str : list Z) : append_ctx_t :=
  buf_append a (c_str str).

Definition buf_append_reset (a : append_ctx_t) : append_ctx_t :=
  buf_append a (27 :: lit "[0m").

(** [strip_ansi]: [src] is the source array and [dst] the bytes stored so
    far.  With [skipping] the scan is inside a CSI sequence, past [ESC '[']. *)
Fixpoint strip_ansi_from (src : list Z) (skipping : bool) (dst_size : nat)
    (dst : list Z) : list Z :=
  match src with
  | [] => dst
  | c :: src' =>
      if skipping then
        if negb (c =? 0) && negb ((64 <=? c) && (c <=? 126))
        then strip_ansi_from src' true dst_size dst
        else strip_ansi_from src' false dst_size dst
      else if c =? 0 then dst
      else
        match src' with
        | c2 :: src'' =>
            if (c =? 27) && (c2 =? 91)
            then strip_ansi_from src'' true dst_size dst
            else strip_ansi_from src' false dst_size
                   (if (length dst + 1 <? dst_size)%nat then dst ++ [c] else dst)
        | [] => if (length dst + 1 <? dst_size)%nat then dst ++ [c] else dst
        end
  end.

Definition strip_ansi (src : list Z) (dst_size : nat) : list Z :=
  strip_ansi_from src false dst_size [].

Section Renderer.

(** Modelled from the spec: [lle_color_to_ansi (color, fg, buf, size)] of the
    colour model, which is not among the sources; the answer is the bytes
    it stores, whose number it returns. *)
Variable lle_color_to_ansi : lle_color_t -> bool -> nat -> list Z.

(** Modelled from the spec: [lle_color_downgrade (color, has_true, has_256)]. *)
Variable lle_color_downgrade : lle_color_t -> bool -> bool -> lle_color_t.

(** The segment registry and its lookup, declared elsewhere. *)
Variable lle_segment_registry_t : Type.
Variable lle_segment_registry_find :
  lle_segment_registry_t -> list Z -> option lle_prompt_segment_t.

(** [sizeof (ps->content)]. *)
Variable LLE_SEGMENT_OUTPUT_MAX : nat.

(** The first configuration entry of [resolve_segment_colors] that matches. *)
Fixpoint find_config (cfgs : list lle_segment_config_t) (segment_name : list Z)
  : option lle_segment_config_t :=
  match cfgs with
  | [] => None
  | c :: cfgs' =>
      if streq (name c) segment_name && configured c then Some c
      else find_config cfgs' segment_name
  end.

Definition resolve_segment_colors (theme : lle_theme_t) (segment_name : list Z)
    (ctx : lle_prompt_context_t) : lle_color_t * lle_color_t :=
  let fg0 := set_bold (lle_color_rgb 255 255 255) true in
  let bg0 := default_segment_bg segment_name in
  let fg1 :=
    match mode (colors_text theme) with
    | LLE_COLOR_MODE_NONE => fg0
    | _ => colors_text theme
    end in
  let '(fg2, bg2) :=
    match find_config (segment_configs theme) segment_name with
    | Some c => (if fg_color_set c then fg_color c else fg1,
                 if bg_color_set c then bg_color c else bg0)
    | None => (fg1, bg0)
    end in
  (lle_color_downgrade fg2 (has_true_color ctx) (has_256_color ctx),
   lle_color_downgrade bg2 (has_true_color ctx) (has_256_color ctx)).

Definition buf_append_color_fg (a : append_ctx_t) (color : lle_color_t) : append_ctx_t :=
  let ansi := lle_color_to_ansi color true 32 in
  if (0 <? length ansi)%nat then buf_append a ansi else a.

Definition buf_append_color_bg (a : append_ctx_t) (color : lle_color_t) : append_ctx_t :=
  let ansi := lle_color_to_ansi color false 32 in
  if (0 <? length ansi)%nat then buf_append a ansi else a.

(** The show-flag loop of [collect_visible_segments]: some entry hides the
    segment. *)
Definition hidden_by_config (theme : lle_theme_t) (nm : list Z) : bool :=
  existsb (fun c => streq (name c) nm && configured c && show_set c && negb (show c))
          (segment_configs theme).

(** [collect_visible_segments]: [names] is what is left of the enabled list,
    [out] the entries stored so far. *)
Fixpoint collect_from (theme : lle_theme_t) (registry : lle_segment_registry_t)
    (ctx : lle_prompt_context_t) (names : list (list Z))
    (out : list powerline_segment_t) (out_capacity : nat) : list powerline_segment_t :=
  match names with
  | [] => out
  | nm :: names' =>
      if (length out <? out_capacity)%nat then
        let skip := collect_from theme registry ctx names' out out_capacity in
        match lle_segment_registry_find registry nm with
        | None => skip
        | Some seg =>
            if match is_visible seg with
               | Some vis => negb (vis ctx)
               | None => false
               end
            then skip
            else if hidden_by_config theme nm then skip
            else
              let '(r, output) := render seg ctx theme in
              match r with
              | LLE_SUCCESS =>
                  if is_empty output || (content_len output =? 0)%nat then skip
                  else
                    let stripped := strip_ansi (content output) LLE_SEGMENT_OUTPUT_MAX in
                    let '(f, b) := resolve_segment_colors theme nm ctx in
                    collect_from theme registry ctx names'
                      (out ++ [ {| seg_content := stripped;
                                   seg_content_len := length stripped;
                                   fg := f; bg := b |} ])
                      out_capacity
              | _ => skip
              end
        end
      else out
  end.

Definition collect_visible_segments (theme : lle_theme_t)
    (registry : lle_segment_registry_t) (ctx : lle_prompt_context_t)
    (out_capacity : nat) : list powerline_segment_t :=
  collect_from theme registry ctx (enabled_segments theme) [] out_capacity.

(** [render_left_to_right]: [segs] is [segs[i..count)]. *)
Fixpoint render_left_to_right (segs : list powerline_segment_t) (separator : list Z)
    (a : append_ctx_t) : append_ctx_t :=
  match segs with
  | [] => a
  | seg :: rest =>
      let a := buf_append_color_bg a (bg seg) in
      let a := buf_append_color_fg a (fg seg) in
      let a := buf_append_str a (lit " ") in
      let a := buf_append a (take (seg_content_len seg) (seg_content seg)) in
      let a := buf_append_str a (lit " ") in
      match rest with
      | next :: _ =>
          let a := buf_append_color_fg a (bg seg) in
          let a := buf_append_color_bg a (bg next) in
          let a := buf_append_str a separator in
          render_left_to_right rest separator a
      | [] =>
          let a := buf_append_reset a in
          let a := buf_append_color_fg a (bg seg) in
          let a := buf_append_str a separator in
          let a := buf_append_reset a in
          render_left_to_right rest separator a
      end
  end.

(** [render_right_to_left]: [prev] is [segs[i - 1]] when [i > 0]. *)
Fixpoint render_right_to_left_from (prev : option powerline_segment_t)
    (segs : list powerline_segment_t) (separator : list Z) (a : append_ctx_t)
  : append_ctx_t :=
  match segs with
  | [] => a
  | seg :: rest =>
      let a :=
        match prev with
        | None =>
            let a := buf_append_color_fg a (bg seg) in
            buf_append_str a separator
        | Some prev =>
            let a := buf_append_color_fg a (bg seg) in
            let a := buf_append_color_bg a (bg prev) in
            buf_append_str a separator
        end in
      let a := buf_append_color_bg a (bg seg) in
      let a := buf_append_color_fg a (fg seg) in
      let a := buf_append_str a (lit " ") in
      let a := buf_append a (take (seg_content_len seg) (seg_content seg)) in
      let a := buf_append_str a (lit " ") in
      render_right_to_left_from (Some seg) rest separator a
  end.

Definition render_right_to_left (segs : list powerline_segment_t)
    (separator : list Z) (a : append_ctx_t) : append_ctx_t :=
  buf_append_reset (render_right_to_left_from None segs separator a).

(** The separator [lle_powerline_render] uses: the theme's, or the default
    glyph when the theme's is empty. *)
Definition separator_for (theme : lle_theme_t) (direction : lle_powerline_direction_t)
  : list Z :=
  match direction with
  | LLE_POWERLINE_LEFT_TO_RIGHT =>
      if peek (separator_left theme) =? 0 then [238; 130; 176] else separator_left theme
  | LLE_POWERLINE_RIGHT_TO_LEFT =>
      if peek (separator_right theme) =? 0 then [238; 130; 178] else separator_right theme
  end.

(** [lle_powerline_render]; a [None] argument is a NULL pointer.  The answer
    is the result code with the output array after the call. *)
Definition lle_powerline_render (theme : option lle_theme_t)
    (segments : option lle_segment_registry_t)
    (context : option lle_prompt_context_t)
    (direction : lle_powerline_direction_t)
    (output : option (list Z)) (output_size : nat)
  : lle_result_t * option (list Z) :=
  match theme, segments, context, output with
  | Some theme, Some segments, Some context, Some output =>
      if (output_size =? 0)%nat then (LLE_ERROR_INVALID_PARAMETER, Some output)
      else
        let output := <[0%nat := 0]> output in
        if (length (enabled_segments theme) =? 0)%nat then (LLE_SUCCESS, Some output)
        else
          let visible :=
            collect_visible_segments theme segments context POWERLINE_MAX_VISIBLE in
          if (length visible =? 0)%nat then (LLE_SUCCESS, Some output)
          else
            let separator := separator_for theme direction in
            let a := {| buf := output; size := output_size; pos := 0 |} in
            let a :=
              match direction with
              | LLE_POWERLINE_LEFT_TO_RIGHT => render_left_to_right visible separator a
              | LLE_POWERLINE_RIGHT_TO_LEFT => render_right_to_left visible separator a
              end in
            (LLE_SUCCESS, Some (buf a))
  | _, _, _, _ => (LLE_ERROR_INVALID_PARAMETER, output)
  end.

End Renderer.

End Powerline.

(** ** git_command.c *)

Module GitCommand.
Import C.

Definition GIT_CMD_SYNC_TIMEOUT_MS : Z := 3000.
Definition GIT_CMD_ASYNC_TIMEOUT_MS : Z := 5000.

(** Constants of the system headers (Linux values). *)
Definition EINTR : Z := 4.
Definition SIGTERM : Z := 15.
Definition SIGKILL : Z := 9.
Definition WNOHANG : Z := 1.
Definition STDOUT_FILENO : Z := 1.
Definition STDERR_FILENO : Z := 2.
Definition WIFEXITED (status : Z) : bool := Z.land status 127 =? 0.
Definition WEXITSTATUS (status : Z) : Z := Z.shiftr (Z.land status 65280) 8.

Record git_cmd_result_t := { exit_status : Z; timed_out : bool }.

(** The system calls the runner makes, with the arguments that matter. *)
Inductive syscall : Type :=
| Pipe
| Fork
| Close (fd : Z)
| Dup2 (oldfd newfd : Z)
| OpenDevNull
| Execl (cmd : list Z)
| Select (nfds : Z) (readfd : option Z) (tv_sec tv_usec : Z)
| Read (fd : Z) (count : nat)
| Kill (pid sig : Z)
| Waitpid (pid options : Z).

(** What the system answers to a call: the return value, the [errno] it
    sets when that is negative, and what it stores for the caller (the two
    descriptors of [pipe], the bytes of [read], the status of [waitpid]). *)
Record answer := { ret : Z; err : Z; data : list Z }.

(** The process and its system: the answer to a call may depend on the
    calls made before it. *)
Record world := {
  oracle : list syscall -> syscall -> answer;
  trace : list syscall;
  errno : Z
}.

(** Computations that make system calls: the value, if the computation
    comes to one, and the world it leaves.  There is no value when the turns
    allotted to a retry loop run out. *)
Definition M (A : Type) : Type := world -> option A * world.

Definition mret {A} (a : A) : M A := fun w => (Some a, w).
Definition mbind {A B} (m : M A) (k : A -> M B) : M B :=
  fun w => match m w with
           | (Some a, w') => k a w'
           | (None, w') => (None, w')
           end.
Definition out_of_turns {A} : M A := fun w => (None, w).
Definition get_errno : M Z := fun w => (Some (errno w), w).

Notation "x <- m ;; k" := (mbind m (fun x => k))
  (at level 100, m at next level, k at level 200, right associativity).

Definition sys (c : syscall) : M answer :=
  fun w =>
    let a := oracle w (trace w) c in
    (Some a, {| oracle := oracle w;
                trace := trace w ++ [c];
                errno := if ret a <? 0 then err a else errno w |}).

(** How the call ends in the process that entered it: it returns, or, in
    the forked child, the process image is replaced or the process exits. *)
Inductive outcome : Type :=
| Returns (r : git_cmd_result_t)
| ChildExecs (cmd : list Z)
| ChildExits (code : Z).

(** The bytes a successful [read] of [count] bytes delivers; their number
    is the value the call returns. *)
Definition read_bytes (a : answer) (count : nat) : list Z := take count (data a).

(** The draining loop of the first branch of [read_all_available]. *)
Fixpoint drain_count (turns : nat) (fd : Z) (total : Z) : M Z :=
  match turns with
  | O => out_of_turns
  | S turns' =>
      a <- sys (Read fd 256) ;;
      if ret a <? 0 then
        e <- get_errno ;;
        if e =? EINTR then drain_count turns' fd total else mret total
      else
        let n := Z.of_nat (length (read_bytes a 256)) in
        if 0 <? n then drain_count turns' fd (total + n) else mret total
  end.

(** The draining loop entered when the buffer is full. *)
Fixpoint drain_full (turns : nat) (fd : Z) : M unit :=
  match turns with
  | O => out_of_turns
  | S turns' =>
      a <- sys (Read fd 256) ;;
      let n := if ret a <? 0 then -1 else Z.of_nat (length (read_bytes a 256)) in
      e <- get_errno ;;
      if (n <=? 0) && negb (e =? EINTR) then mret tt else drain_full turns' fd
  end.

(** The reading loop of [read_all_available]; [buf] is the bytes stored so
    far, [pos] their number. *)
Fixpoint read_loop (turns : nat) (fd : Z) (buf_size : nat) (buf : list Z) : M (list Z) :=
  match turns with
  | O => out_of_turns
  | S turns' =>
      let remaining := (buf_size - 1 - length buf)%nat in
      if (remaining =? 0)%nat then
        _ <- drain_full turns' fd ;; mret buf
      else
        a <- sys (Read fd remaining) ;;
        if ret a <? 0 then
          e <- get_errno ;;
          if e =? EINTR then read_loop turns' fd buf_size buf else mret buf
        else
          let got := read_bytes a remaining in
          if (0 <? length got)%nat then read_loop turns' fd buf_size (buf ++ got)
          else mret buf
  end.

(** [read_all_available]: the count returned and the array afterwards. *)
Definition read_all_available (turns : nat) (fd : Z) (buf : option (list Z))
    (buf_size : nat) : M (Z * option (list Z)) :=
  match buf with
  | Some arr =>
      if (buf_size =? 0)%nat then
        total <- drain_count turns fd 0 ;; mret (total, buf)
      else
        got <- read_loop turns fd buf_size [] ;;
        mret (Z.of_nat (length got),
              Some (<[length got := 0]> (got ++ drop (length got) arr)))
  | None =>
      total <- drain_count turns fd 0 ;; mret (total, buf)
  end.

Definition kill_child (pid : Z) : M unit :=
  _ <- sys (Kill pid SIGTERM) ;;
  _ <- sys (Select 0 None 0 100000) ;;
  r <- sys (Waitpid pid WNOHANG) ;;
  if ret r =? 0 then
    _ <- sys (Kill pid SIGKILL) ;;
    _ <- sys (Waitpid pid 0) ;;
    mret tt
  else mret tt.

(** The loop removing trailing newlines: the length left. *)
Fixpoint trimmed_length (s_rev : list Z) : nat :=
  match s_rev with
  | c :: r => if (c =? 10) || (c =? 13) then trimmed_length r else length s_rev
  | [] => 0%nat
  end.

Fixpoint zero_range (arr : list Z) (from n : nat) : list Z :=
  match n with
  | O => arr
  | S n' => zero_range (<[(from + n')%nat := 0]> arr) from n'
  end.

Definition trim_trailing_newlines (arr : list Z) : list Z :=
  let len := strlen arr in
  let keep := trimmed_length (rev (c_str arr)) in
  zero_range arr keep (len - keep).

(** The retry loop around the final [waitpid]. *)
Fixpoint wait_child (turns : nat) (pid : Z) : M answer :=
  match turns with
  | O => out_of_turns
  | S turns' =>
      a <- sys (Waitpid pid 0) ;;
      e <- get_errno ;;
      if (ret a <? 0) && (e =? EINTR) then wait_child turns' pid else mret a
  end.

(** [git_command_with_timeout]; a [None] argument is a NULL pointer and
    [timeout_ms] is a [uint32_t].  The answer is how the call ends and the
    output array. *)
Definition git_command_with_timeout (turns : nat) (cmd : option (list Z))
    (output : option (list Z)) (output_size : nat) (timeout_ms : Z)
  : M (outcome * option (list Z)) :=
  let result := {| exit_status := -1; timed_out := false |} in
  match cmd with
  | None => mret (Returns result, output)
  | Some cmd =>
      let timeout_ms := if timeout_ms =? 0 then GIT_CMD_SYNC_TIMEOUT_MS else timeout_ms in
      let output :=
        match output with
        | Some arr => if (0 <? output_size)%nat then Some (<[0%nat := 0]> arr) else output
        | None => None
        end in
      p <- sys Pipe ;;
      if ret p <? 0 then mret (Returns result, output)
      else
        let rfd := nth 0 (data p) 0 in
        let wfd := nth 1 (data p) 0 in
        f <- sys Fork ;;
        let pid := ret f in
        if pid <? 0 then
          _ <- sys (Close rfd) ;;
          _ <- sys (Close wfd) ;;
          mret (Returns result, output)
        else if pid =? 0 then
          _ <- sys (Close rfd) ;;
          d <- sys (Dup2 wfd STDOUT_FILENO) ;;
          if ret d <? 0 then mret (ChildExits 127, output)
          else
            _ <- sys (Close wfd) ;;
            devnull <- sys OpenDevNull ;;
            _ <- (if 0 <=? ret devnull then
                    _ <- sys (Dup2 (ret devnull) STDERR_FILENO) ;;
                    _ <- sys (Close (ret devnull)) ;;
                    mret tt
                  else mret tt) ;;
            x <- sys (Execl cmd) ;;
            if ret x <? 0 then mret (ChildExits 127, output)
            else mret (ChildExecs cmd, output)
        else
          _ <- sys (Close wfd) ;;
          let tv_sec := timeout_ms / 1000 in
          let tv_usec := (timeout_ms mod 1000) * 1000 in
          s <- sys (Select (rfd + 1) (Some rfd) tv_sec tv_usec) ;;
          let ready := ret s in
          e <- get_errno ;;
          if (ready <? 0) && negb (e =? EINTR) then
            _ <- sys (Close rfd) ;;
            _ <- kill_child pid ;;
            mret (Returns result, output)
          else if ready =? 0 then
            _ <- sys (Close rfd) ;;
            _ <- kill_child pid ;;
            mret (Returns {| exit_status := exit_status result; timed_out := true |},
                  output)
          else
            ro <- read_all_available turns rfd output output_size ;;
            let output := snd ro in
            _ <- sys (Close rfd) ;;
            let output :=
              match output with
              | Some arr =>
                  if (0 <? output_size)%nat then Some (trim_trailing_newlines arr)
                  else output
              | None => None
              end in
            w <- wait_child turns pid ;;
            let status := nth 0 (data w) 0 in
            if (0 <? ret w) && WIFEXITED status then
              mret (Returns {| exit_status := WEXITSTATUS status;
                               timed_out := timed_out result |}, output)
            else mret (Returns result, output)
  end.

(** [git_command_in_dir]; [None] is a NULL pointer. *)
Definition git_command_in_dir (turns : nat) (dir args : option (list Z))
    (output : option (list Z)) (output_size : nat) (timeout_ms : Z)
  : M (outcome * option (list Z)) :=
  match dir, args with
  | Some dir, Some args =>
      let text := lit "git -C '" ++ c_str dir ++ lit "' " ++ c_str args
                  ++ lit " 2>/dev/null" in
      if (1024 <=? length text)%nat then
        mret (Returns {| exit_status := -1; timed_out := false |}, output)
      else git_command_with_timeout turns (Some text) output output_size timeout_ms
  | _, _ => mret (Returns {| exit_status := -1; timed_out := false |}, output)
  end.

End GitCommand.

(** ** async_worker.c *)

Module AsyncWorker.

(** Wrap-around of the 64-bit counters ([uint64_t], [size_t]). *)
Definition wrap64 (z : Z) : Z := z mod 2 ^ 64.

Inductive lle_async_request_type_t : Set :=
| LLE_ASYNC_GIT_STATUS
| LLE_ASYNC_CUSTOM
| LLE_ASYNC_OTHER (tag : Z).

(** Modelled from the spec: the request record of [lle/async_worker.h],
    which is not among the sources; [next] is the position in the queue. *)
Record lle_async_request_t := {
  id : Z;
  type : lle_async_request_type_t;
  cwd : list Z;
  timeout_ms : Z;
  user_data : Z
}.

Definition set_id (r : lle_async_request_t) (i : Z) : lle_async_request_t :=
  {| id := i; type := type r; cwd := cwd r; timeout_ms := timeout_ms r;
     user_data := user_data r |}.

(** Modelled from the spec: the worker record of [lle/async_worker.h], which
    is not among the sources.  The linked list from [queue_head] to
    [queue_tail] is the list [queue]; the counters are the 64-bit integers
    that [lle_async_worker_get_stats] copies out. *)
Record lle_async_worker_t := {
  running : bool;
  shutdown_requested : bool;
  next_request_id : Z;
  queue : list lle_async_request_t;
  queue_size : Z;
  total_requests : Z;
  total_completed : Z;
  total_timeouts : Z
}.

(** The worker as [lle_async_worker_init] leaves it. *)
Definition lle_async_worker_init : lle_async_worker_t :=
  {| running := false; shutdown_requested := false; next_request_id := 1;
     queue := []; queue_size := 0;
     total_requests := 0; total_completed := 0; total_timeouts := 0 |}.

Section Worker.

(** The queue bound of [lle/async_worker.h], which is not among the sources. *)
Variable LLE_ASYNC_MAX_QUEUE_SIZE : Z.

(** [lle_async_worker_submit]; a [None] argument is a NULL pointer.  The
    answer is the result code, the worker afterwards and the request as the
    call leaves it. *)
Definition lle_async_worker_submit (worker : option lle_async_worker_t)
    (request : option lle_async_request_t)
  : lle_result_t * option lle_async_worker_t * option lle_async_request_t :=
  match worker, request with
  | Some w, Some r =>
      if negb (running w) || shutdown_requested w then
        (LLE_ERROR_INVALID_STATE, worker, request)
      else if LLE_ASYNC_MAX_QUEUE_SIZE <=? queue_size w then
        (LLE_ERROR_RESOURCE_EXHAUSTED, worker, request)
      else
        let r' := set_id r (next_request_id w) in
        (LLE_SUCCESS,
         Some {| running := running w;
                 shutdown_requested := shutdown_requested w;
                 next_request_id := wrap64 (next_request_id w + 1);
                 queue := queue w ++ [r'];
                 queue_size := wrap64 (queue_size w + 1);
                 total_requests := wrap64 (total_requests w + 1);
                 total_completed := total_completed w;
                 total_timeouts := total_timeouts w |},
         Some r')
  | _, _ => (LLE_ERROR_INVALID_PARAMETER, worker, request)
  end.

(** Where the worker thread stands in [lle_async_worker_thread]. *)
Inductive thread_state : Type :=
| NotStarted
| Waiting                                 (* at the top of the loop *)
| Processing (r : lle_async_request_t)    (* dequeued, not yet counted *)
| Counted (r : lle_async_request_t)       (* counted, callback not yet made *)
| Exited.

Record system := { worker : lle_async_worker_t; thread : thread_state }.

Definition set_flags (w : lle_async_worker_t) (run shut : bool) : lle_async_worker_t :=
  {| running := run; shutdown_requested := shut;
     next_request_id := next_request_id w; queue := queue w;
     queue_size := queue_size w; total_requests := total_requests w;
     total_completed := total_completed w; total_timeouts := total_timeouts w |}.

(** [lle_async_worker_start]; [created] tells whether [pthread_create]
    succeeds. *)
Definition lle_async_worker_start (s : system) (created : bool)
  : lle_result_t * system :=
  let w := worker s in
  if running w then (LLE_ERROR_INVALID_PARAMETER, s)
  else if created then
    (LLE_SUCCESS, {| worker := set_flags w true false; thread := Waiting |})
  else
    (LLE_ERROR_SYSTEM_CALL, {| worker := set_flags w false false; thread := thread s |}).

Definition lle_async_worker_shutdown (s : system) : lle_result_t * system :=
  (LLE_SUCCESS,
   {| worker := set_flags (worker s) (running (worker s)) true; thread := thread s |}).

(** [lle_async_worker_wait]: [pthread_join] returns once the thread has
    left its loop; until then the call has not come back. *)
Definition lle_async_worker_wait (s : system) : option (lle_result_t * system) :=
  let w := worker s in
  if running w then
    match thread s with
    | Exited =>
        Some (LLE_SUCCESS,
              {| worker := set_flags w false (shutdown_requested w); thread := Exited |})
    | _ => None
    end
  else Some (LLE_SUCCESS, s).

(** The first critical section of the thread's loop: wait for work, leave on
    shutdown with an empty queue, or take the head of the queue. *)
Definition thread_dequeue (w : lle_async_worker_t)
  : lle_async_worker_t * thread_state :=
  match queue w with
  | [] => if shutdown_requested w then (w, Exited) else (w, Waiting)
  | r :: rest =>
      ({| running := running w; shutdown_requested := shutdown_requested w;
          next_request_id := next_request_id w;
          queue := rest;
          queue_size := wrap64 (queue_size w - 1);
          total_requests := total_requests w;
          total_completed := total_completed w;
          total_timeouts := total_timeouts w |},
       Processing r)
  end.

(** The second critical section: the request is counted as completed. *)
Definition thread_count (w : lle_async_worker_t) : lle_async_worker_t :=
  {| running := running w; shutdown_requested := shutdown_requested w;
     next_request_id := next_request_id w; queue := queue w;
     queue_size := queue_size w; total_requests := total_requests w;
     total_completed := wrap64 (total_completed w + 1);
     total_timeouts := total_timeouts w |}.

(** The steps of the worker and its clients. *)
Inductive op : Type :=
| OpStart (created : bool)
| OpShutdown
| OpWait
| OpSubmit (r : lle_async_request_t)
| OpDequeue
| OpComplete
| OpCallback.

Definition step (s : system) (o : op) : system :=
  match o with
  | OpStart created => snd (lle_async_worker_start s created)
  | OpShutdown => snd (lle_async_worker_shutdown s)
  | OpWait =>
      match lle_async_worker_wait s with
      | Some (_, s') => s'
      | None => s
      end
  | OpSubmit r =>
      match lle_async_worker_submit (Some (worker s)) (Some r) with
      | (_, Some w', _) => {| worker := w'; thread := thread s |}
      | (_, None, _) => s
      end
  | OpDequeue =>
      match thread s with
      | Waiting =>
          let '(w', t') := thread_dequeue (worker s) in
          {| worker := w'; thread := t' |}
      | _ => s
      end
  | OpComplete =>
      match thread s with
      | Processing r => {| worker := thread_count (worker s); thread := Counted r |}
      | _ => s
      end
  | OpCallback =>
      match thread s with
      | Counted _ => {| worker := worker s; thread := Waiting |}
      | _ => s
      end
  end.

Definition init_system : system :=
  {| worker := lle_async_worker_init; thread := NotStarted |}.

Definition run (ops : list op) : system := fold_left step ops init_system.

(** Requests dequeued but not yet counted as completed. *)
Definition in_flight (s : system) : Z :=
  match thread s with
  | Processing _ => 1
  | _ => 0
  end.

(** Requests waiting in the queue. *)
Definition pending (s : system) : Z := queue_size (worker s).

(** The ids that the successful submissions of [ops] assign, in order,
    starting from the system [s]. *)
Fixpoint assigned_ids (s : system) (ops : list op) : list Z :=
  match ops with
  | [] => []
  | o :: ops' =>
      match o with
      | OpSubmit r =>
          match lle_async_worker_submit (Some (worker s)) (Some r) with
          | (LLE_SUCCESS, _, Some r') => id r' :: assigned_ids (step s o) ops'
          | _ => assigned_ids (step s o) ops'
          end
      | _ => assigned_ids (step s o) ops'
      end
  end.

End Worker.

(** [lle_async_worker_is_running] and [lle_async_worker_pending_count]; a
    [None] argument is a NULL pointer. *)
Definition lle_async_worker_is_running (worker : option lle_async_worker_t) : bool :=
  match worker with
  | Some w => running w && negb (shutdown_requested w)
  | None => false
  end.

Definition lle_async_worker_pending_count (worker : option lle_async_worker_t) : Z :=
  match worker with
  | Some w => queue_size w
  | None => 0
  end.

(** Modelled from the spec: the three change counters of
    [lle_git_status_data_t], declared in [lle/async_worker.h], which is not
    among the sources. *)
Record porcelain_counts := {
  staged_count : Z;
  unstaged_count : Z;
  untracked_count : Z
}.

(** The body of the loop of [lle_async_get_git_status] that reads the output
    of [git status --porcelain]: what the line at [line] adds to the
    counters. *)
Definition porcelain_line (line : list Z) (c : porcelain_counts) : porcelain_counts :=
  let l0 := C.peek line in
  let l1 := C.peek (tl line) in
  if l0 =? 63 then
    {| staged_count := staged_count c; unstaged_count := unstaged_count c;
       untracked_count := untracked_count c + 1 |}
  else if negb (l0 =? 0) && negb (l1 =? 0) then
    let c1 :=
      if negb (l0 =? 32) && negb (l0 =? 63)
      then {| staged_count := staged_count c + 1; unstaged_count := unstaged_count c;
              untracked_count := untracked_count c |}
      else c in
    if negb (l1 =? 32) && negb (l1 =? 63)
    then {| staged_count := staged_count c1; unstaged_count := unstaged_count c1 + 1;
            untracked_count := untracked_count c1 |}
    else c1
  else c.

(** The loop itself, at most [fuel] lines: count, then advance past the next
    line feed or stop when there is none.  [None] when the turns run out. *)
Fixpoint porcelain_loop (fuel : nat) (line : list Z) (c : porcelain_counts)
  : option porcelain_counts :=
  if C.peek line =? 0 then Some c
  else match fuel with
       | O => None
       | S fuel' =>
           let c' := porcelain_line line c in
           match C.strchr line 10 with
           | Some nl => porcelain_loop fuel' (tl nl) c'
           | None => Some c'
           end
       end.

(** The counters after the loop, started from zero as the function sets
    them, on the array [porcelain]. *)
Definition count_porcelain (porcelain : list Z) : option porcelain_counts :=
  porcelain_loop (length porcelain) porcelain
    {| staged_count := 0; unstaged_count := 0; untracked_count := 0 |}.

End AsyncWorker.

(** * The vocabulary of the properties *)

(** ** Expansion buffers and formats *)

Section ExpansionVocabulary.
Import C Expansion.

(** The text a buffer holds: the bytes before the write position. *)
Definition contents (b : expand_buf_t) : list Z := take (pos b) (buf b).

(** The representation invariant of [expand_buf_t] between two appends: the
    write position is inside the array and a NUL stands there. *)
Definition buf_ok (b : expand_buf_t) : Prop :=
  (pos b < size b)%nat /\ (size b <= length (buf b))%nat /\ buf b !! pos b = Some 0.

(** Appending the bytes [d] one [buf_append_char] at a time. *)
Definition put (d : list Z) (b : expand_buf_t) : expand_buf_t :=
  fold_left buf_append_char d b.

(** The array with a NUL stored at the write position. *)
Definition nul_terminated (b : expand_buf_t) : expand_buf_t :=
  {| buf := <[pos b := 0]> (buf b); size := size b; pos := pos b |}.

(** The escape text [emit_color] appends for a specification, if any. *)
Definition color_escape (spec : list Z) (color_depth : Z) (fg : bool)
  : option (list Z) :=
  if color_depth =? 0 then None
  else
    match (if (peek spec =? 35) && (strlen spec =? 7)%nat
           then sscanf_2x2x2x (tl spec) else None) with
    | Some (r, g, bl) =>
        if 3 <=? color_depth then Some (snprintf 32 (esc_rgb fg r g bl))
        else if 2 <=? color_depth then
          Some (snprintf 24
                  (esc_256 fg (int_wrap (16 + 36 * cube_index r + 6 * cube_index g
                                         + cube_index bl))))
        else None
    | None =>
        match (match strtol10 spec with
               | Some (num, e) =>
                   if (peek e =? 0) && (0 <=? num) && (num <=? 255)
                   then Some num else None
               | None => None
               end) with
        | Some num =>
            if 2 <=? color_depth then Some (snprintf 24 (esc_256 fg num))
            else Some (snprintf 16 (esc_basic fg (Z.rem num 8)))
        | None =>
            match find_named named spec with
            | Some code => Some (snprintf 16 (esc_basic fg code))
            | None => None
            end
        end
    end.

(** A byte the scanner copies as it is. *)
Definition plain_byte (c : Z) : Prop := c <> 27 /\ c <> 92 /\ c <> 37.

(** The bytes of a CSI sequence: ESC, an opening bracket, parameter bytes
    below [0x40] and a final byte in [0x40..0x7E]. *)
Definition csi (params : list Z) (final : Z) : list Z :=
  27 :: 91 :: params ++ [final].

Definition is_csi (params : list Z) (final : Z) : Prop :=
  Forall (fun x => 0 < x < 64) params /\ 64 <= final <= 126.

(** The component index of the 6x6x6 colour cube, as the specification
    writes it. *)
Definition cube (c : Z) : Z := if 47 <? c then (c - 35) / 40 else 0.




End ExpansionVocabulary.

Section CsiVocabulary.
Import C Expansion.
Variable E : env.

(** The parameter bytes the CSI loop copies, and where it stops. *)
Fixpoint csi_params (p : list Z) : list Z :=
  match p with
  | [] => []
  | c :: p' =>
      if negb (c =? 0) && (char_val E c <? 64) then c :: csi_params p' else []
  end.

Fixpoint csi_rest (p : list Z) : list Z :=
  match p with
  | [] => []
  | c :: p' =>
      if negb (c =? 0) && (char_val E c <? 64) then csi_rest p' else p
  end.

End CsiVocabulary.

Section ScanVocabulary.
Import C Expansion.
Context {T : Type}.
Variable E : env.
Variable lle_template_evaluate : list Z -> T -> nat -> lle_result_t * list Z.
Variable ctx : lle_prompt_expand_ctx_t T.

(** The scanner turns the input [p] into the bytes [d]: whatever the buffer,
    the loop ends within [length p] turns and has appended [d]. *)
Definition scans_to (p d : list Z) : Prop :=
  forall fuel b, (length p <= fuel)%nat -> buf_ok b ->
    scan_loop E ctx fuel p b = Some (put d b).

(** One turn of the scanner on [t], followed by any input that satisfies
    [R], consumes exactly [t] and appends [d]. *)
Definition token (R : list Z -> Prop) (t d : list Z) : Prop :=
  peek t <> 0
  /\ forall rest b, R rest -> buf_ok b -> scan_step E ctx (t ++ rest) b = (rest, put d b).

(** The string [lle_prompt_expand] leaves in an output array [out] of [n]
    bytes for the format [fmt], when it answers [LLE_SUCCESS]. *)
Definition expansion (fmt : list Z) (n : nat) (out : list Z) : option (list Z) :=
  match lle_prompt_expand E lle_template_evaluate (Some fmt) (Some out) n (Some ctx) with
  | Some (LLE_SUCCESS, Some out') => Some (c_str out')
  | _ => None
  end.

End ScanVocabulary.

(** The escapes that stand for a fixed text, with that text: the literal
    bash escapes, the stripped markers of non-printing text, and the zsh
    attribute escapes. *)
Definition fixed_escapes : list (list Z * list Z) :=
  [ ([92; 92], [92]); (C.lit "\n", [10]); (C.lit "\r", [13]);
    (C.lit "\e", [27]); (C.lit "\a", [7]);
    (C.lit "\[", []); (C.lit "\]", []);
    (C.lit "%%", C.lit "%");
    (C.lit "%B", 27 :: C.lit "[1m"); (C.lit "%b", 27 :: C.lit "[22m");
    (C.lit "%U", 27 :: C.lit "[4m"); (C.lit "%u", 27 :: C.lit "[24m");
    (C.lit "%S", 27 :: C.lit "[7m"); (C.lit "%s", 27 :: C.lit "[27m");
    (C.lit "%f", 27 :: C.lit "[39m"); (C.lit "%k", 27 :: C.lit "[49m") ].

(** The characters the [switch] of the bash escapes has a case for, and
    those of the zsh escapes. *)
Definition bash_cases : list Z := C.lit "uhHwWdtT@A$nr\[]!#jlsvVea0x".
Definition zsh_cases : list Z := C.lit "nmMd/~c.#%Tt@*jl?DBbUuSsFfKk".

(** The zsh escapes that the source gives the same case body as a bash
    escape, with that bash escape. *)
Definition synonyms : list (list Z * list Z) :=
  [ (C.lit "%n", C.lit "\u"); (C.lit "%m", C.lit "\h"); (C.lit "%M", C.lit "\H");
    (C.lit "%~", C.lit "\w"); (C.lit "%c", C.lit "\W"); (C.lit "%.", C.lit "\W");
    (C.lit "%T", C.lit "\A"); (C.lit "%*", C.lit "\t"); (C.lit "%j", C.lit "\j") ].

(** An octal digit and a hexadecimal digit, as the escapes [\0] and [\x]
    test the character at [p]. *)
Definition is_octal (c : Z) : Prop := 48 <= c <= 55.
Definition is_hex (c : Z) : Prop := 48 <= c <= 57 \/ 97 <= c <= 102 \/ 65 <= c <= 70.

(** ** Computations of the subprocess runner *)

Section RunnerVocabulary.
Import GitCommand.

(** Every value the computation [m] can return satisfies [Q]. *)
Definition returns {A} (Q : A -> Prop) (m : M A) : Prop :=
  forall w a w', m w = (Some a, w') -> Q a.

(** Every system call the computation [m] makes satisfies [P], whether [m]
    comes to a value or runs out of turns. *)
Definition calls (P : syscall -> Prop) {A} (m : M A) : Prop :=
  forall w, exists evs, trace (snd (m w)) = trace w ++ evs /\ Forall P evs.

(** A call that is not an I/O wait. *)
Definition not_select (c : syscall) : Prop :=
  match c with
  | Select _ _ _ _ => False
  | _ => True
  end.

(** What the runner's I/O waits are given: a timeout that is not zero, and,
    for the wait on the pipe of a call made with [timeout_ms = 0], the
    default of 3000 ms. *)
Definition wait_ok (timeout_ms : Z) (c : syscall) : Prop :=
  match c with
  | Select _ readfd tv_sec tv_usec =>
      (tv_sec <> 0 \/ tv_usec <> 0)
      /\ (readfd <> None -> timeout_ms = 0 -> tv_sec = 3 /\ tv_usec = 0)
  | _ => True
  end.

(** The result of a call that returns satisfies: a timeout carries the exit
    status -1. *)
Definition timeout_means_no_status (res : outcome * option (list Z)) : Prop :=
  match fst res with
  | Returns r => timed_out r = true -> exit_status r = -1
  | _ => True
  end.

End RunnerVocabulary.

Section RunnerVocabulary2.
Import C GitCommand.

(** The answer the system gives in the world [w] to the call [c] made
    after the calls [evs]. *)
Definition answer_after (w : world) (evs : list syscall) (c : syscall) : answer :=
  oracle w (trace w ++ evs) c.

(** A call that closes no descriptor. *)
Definition not_close (c : syscall) : Prop :=
  match c with
  | Close _ => False
  | _ => True
  end.

(** The calls of the reading and waiting loops and of [kill_child]: they
    read, wait for the child, signal it or sleep. *)
Definition quiet (c : syscall) : Prop :=
  match c with
  | Read _ _ | Waitpid _ _ | Kill _ _ | Select _ None _ _ => True
  | _ => False
  end.

(** The calls of the forked child. *)
Definition child_call (c : syscall) : Prop :=
  match c with
  | Close _ | Dup2 _ _ | OpenDevNull | Execl _ => True
  | _ => False
  end.

(** The characters the runner removes from the end of the output. *)
Definition is_newline (c : Z) : Prop := c = 10 \/ c = 13.

(** The exit status of a result: -1, or the low byte that [WEXITSTATUS]
    extracts. *)
Definition status_in_range (res : outcome * option (list Z)) : Prop :=
  match fst res with
  | Returns r => exit_status r = -1 \/ 0 <= exit_status r <= 255
  | _ => True
  end.

(** The computation [m] comes to a value in every world. *)
Definition comes_back {A} (m : M A) : Prop :=
  forall w, exists a w', m w = (Some a, w').

(** The call ends in the child: the process image is replaced by the
    command, or the process exits with 127. *)
Definition ends_in_child (cmd : list Z) (o : outcome) : Prop :=
  o = ChildExecs cmd \/ o = ChildExits 127.

End RunnerVocabulary2.

(** ** Counters of the async worker *)

Section WorkerVocabulary.
Import AsyncWorker.

(** The counters of a system, read without wrap-around: [k] steps have been
    taken, [TR] requests accepted and [TC] of them counted as completed. *)
Definition accounted (k : Z) (s : system) : Prop :=
  exists TR TC : Z,
    0 <= TC
    /\ TC + Z.of_nat (length (queue (worker s))) + in_flight s = TR
    /\ TR <= k
    /\ total_requests (worker s) = wrap64 TR
    /\ total_completed (worker s) = wrap64 TC
    /\ queue_size (worker s) = wrap64 (Z.of_nat (length (queue (worker s))))
    /\ (running (worker s) = false -> thread s = NotStarted \/ thread s = Exited).

Definition next_id (s : system) : Z := next_request_id (worker s).

End WorkerVocabulary.

Section WorkerVocabulary2.
Import AsyncWorker.
Variable LLE_ASYNC_MAX_QUEUE_SIZE : Z.

(** The requests that the submissions of [ops] put in the queue, in order,
    as they are enqueued (with their ids), starting from the system [s]. *)
Fixpoint accepted (s : system) (ops : list op) : list lle_async_request_t :=
  match ops with
  | [] => []
  | o :: ops' =>
      match o with
      | OpSubmit r =>
          match lle_async_worker_submit LLE_ASYNC_MAX_QUEUE_SIZE (Some (worker s)) (Some r) with
          | (LLE_SUCCESS, _, Some r') =>
              r' :: accepted (step LLE_ASYNC_MAX_QUEUE_SIZE s o) ops'
          | _ => accepted (step LLE_ASYNC_MAX_QUEUE_SIZE s o) ops'
          end
      | _ => accepted (step LLE_ASYNC_MAX_QUEUE_SIZE s o) ops'
      end
  end.

(** The requests that the worker thread takes from the queue during [ops],
    in order. *)
Fixpoint dequeued (s : system) (ops : list op) : list lle_async_request_t :=
  match ops with
  | [] => []
  | o :: ops' =>
      match o, thread s, queue (worker s) with
      | OpDequeue, Waiting, r :: _ =>
          r :: dequeued (step LLE_ASYNC_MAX_QUEUE_SIZE s o) ops'
      | _, _, _ => dequeued (step LLE_ASYNC_MAX_QUEUE_SIZE s o) ops'
      end
  end.

End WorkerVocabulary2.

(** How a line of [git status --porcelain], two status letters and a path,
    counts: as untracked when it starts with a question mark, else as staged
    when its first letter is not a space, and as unstaged when its second
    letter is neither a space nor a question mark. *)
Definition untracked_line (l : list Z) : bool := C.peek l =? 63.
Definition staged_line (l : list Z) : bool :=
  negb (C.peek l =? 63) && negb (C.peek l =? 32).
Definition unstaged_line (l : list Z) : bool :=
  negb (C.peek l =? 63) && negb (C.peek (tl l) =? 32) && negb (C.peek (tl l) =? 63).

(** The lines joined by line feeds, as the runner leaves the output once the
    trailing newline is removed. *)
Fixpoint join_lines (lines : list (list Z)) : list Z :=
  match lines with
  | [] => []
  | [l] => l
  | l :: rest => l ++ 10 :: join_lines rest
  end.

Definition count_lines (f : list Z -> bool) (lines : list (list Z)) : Z :=
  Z.of_nat (length (filter (fun l => f l = true) lines)).

(** A line of the porcelain output: at least two characters, none of them a
    NUL or a line feed. *)
Definition porcelain_text_line (l : list Z) : Prop :=
  (2 <= length l)%nat /\ Forall (fun c => c <> 0 /\ c <> 10) l.

(** What a line adds to the counters, by the three tests. *)
Definition add_line (l : list Z) (c : AsyncWorker.porcelain_counts)
  : AsyncWorker.porcelain_counts :=
  {| AsyncWorker.staged_count :=
       AsyncWorker.staged_count c + (if staged_line l then 1 else 0);
     AsyncWorker.unstaged_count :=
       AsyncWorker.unstaged_count c + (if unstaged_line l then 1 else 0);
     AsyncWorker.untracked_count :=
       AsyncWorker.untracked_count c + (if untracked_line l then 1 else 0) |}.

(** ** Occurrences of a separator *)

(** [needle] stands at the head of [hay]. *)
Definition starts_with (needle hay : list Z) : bool :=
  bool_decide (take (length needle) hay = needle).

(** The number of places of [hay] at which [needle] occurs. *)
Fixpoint occurrences (needle hay : list Z) : nat :=
  match hay with
  | [] => 0
  | c :: hay' => ((if starts_with needle hay then 1 else 0) + occurrences needle hay')%nat
  end.

(** A byte that is no part of the separator [sep]. *)
Definition outside (sep : list Z) (c : Z) : Prop := ~ In c sep.

(** ** Texts of the powerline renderer *)

Section PowerlineVocabulary.
Import C Powerline.
Variable lle_color_to_ansi : lle_color_t -> bool -> nat -> list Z.

(** The reset sequence [ESC [ 0 m]. *)
Definition reset_text : list Z := 27 :: lit "[0m".

(** The text of the left-to-right assembly as the specification words it:
    for each segment its background, its foreground, a space, the content
    and a space; then, before a next segment, the segment's background as
    foreground, the next background and the separator; after the last one a
    reset, the segment's background as foreground, the separator and a
    reset. *)
Fixpoint ltr_text (segs : list powerline_segment_t) (sep : list Z) : list Z :=
  match segs with
  | [] => []
  | seg :: rest =>
      (lle_color_to_ansi (bg seg) false 32 ++ lle_color_to_ansi (fg seg) true 32)
      ++ 32 :: (take (seg_content_len seg) (seg_content seg)
      ++ 32 :: (match rest with
                | next :: _ =>
                    (lle_color_to_ansi (bg seg) true 32
                     ++ lle_color_to_ansi (bg next) false 32)
                    ++ sep ++ ltr_text rest sep
                | [] =>
                    (reset_text ++ lle_color_to_ansi (bg seg) true 32)
                    ++ sep ++ reset_text
                end))
  end.

(** The buffer [a] holds the text [t], NUL-terminated, inside its array. *)
Definition holds (a : append_ctx_t) (t : list Z) : Prop :=
  (pos a < size a <= length (buf a))%nat
  /\ take (pos a) (buf a) = t
  /\ buf a !! pos a = Some 0.

(** A collected segment: its length is that of its content, which holds no
    NUL. *)
Definition stored (seg : powerline_segment_t) : Prop :=
  seg_content_len seg = length (seg_content seg)
  /\ Forall (fun c => c <> 0) (seg_content seg).

End PowerlineVocabulary.

Section PowerlineVocabulary2.
Import C Powerline.
Variable lle_color_to_ansi : lle_color_t -> bool -> nat -> list Z.

(** The text of the right-to-left assembly, as the source describes it:
    before each segment its background as foreground, then, except for the
    first one, the background of the segment before it, and the separator;
    then the segment's background, its foreground, a space, the content and
    a space; after the last segment a reset. *)
Fixpoint rtl_segments (prev : option powerline_segment_t)
    (segs : list powerline_segment_t) (sep : list Z) : list Z :=
  match segs with
  | [] => []
  | seg :: rest =>
      (lle_color_to_ansi (bg seg) true 32
       ++ match prev with
          | None => []
          | Some p => lle_color_to_ansi (bg p) false 32
          end)
      ++ sep
      ++ (lle_color_to_ansi (bg seg) false 32 ++ lle_color_to_ansi (fg seg) true 32)
      ++ 32 :: (take (seg_content_len seg) (seg_content seg)
      ++ 32 :: rtl_segments (Some seg) rest sep)
  end.

Definition rtl_text (segs : list powerline_segment_t) (sep : list Z) : list Z :=
  rtl_segments None segs sep ++ reset_text.

(** The append state [a] works on the caller's array [out] of [n] bytes and
    has respected it: the write position is below [n] with a NUL standing
    there, and the array has its length and, from index [n] on, its bytes. *)
Definition kept (out : list Z) (n : nat) (a : append_ctx_t) : Prop :=
  size a = n /\ (pos a < n)%nat /\ length (buf a) = length out
  /\ buf a !! pos a = Some 0 /\ drop n (buf a) = drop n out.

(** A byte that does not end a CSI sequence, and one that does. *)
Definition csi_inner (c : Z) : Prop := c <> 0 /\ ~ (64 <= c <= 126).
Definition csi_final (c : Z) : Prop := 64 <= c <= 126.

(** A byte of text outside every escape sequence: neither NUL nor ESC. *)
Definition text_byte (c : Z) : Prop := c <> 0 /\ c <> 27.

End PowerlineVocabulary2.

(** ** Inputs the properties are run on *)

(** A process with real user id [uid] and effective user id [euid], on a
    host where every call succeeds. *)
Definition sample_env (uid euid : Z) : Expansion.env :=
  {| Expansion.char_signed := true;
     Expansion.getuid := uid;
     Expansion.geteuid := euid;
     Expansion.getpwuid := fun u =>
       if u =? 0
       then Some {| Expansion.pw_name := C.lit "root";
                    Expansion.pw_dir := Some (C.lit "/root") |}
       else Some {| Expansion.pw_name := C.lit "alice";
                    Expansion.pw_dir := Some (C.lit "/home/alice") |};
     Expansion.gethostname := fun _ => Some (C.lit "hq.example");
     Expansion.getcwd := fun _ => Some (C.lit "/home/alice/src");
     Expansion.strftime := fun _ _ => C.lit "12:00";
     Expansion.ttyname := Some (C.lit "/dev/pts/0");
     Expansion.LUSH_NAME := C.lit "lush";
     Expansion.LUSH_VERSION_MAJOR := 1;
     Expansion.LUSH_VERSION_MINOR := 5;
     Expansion.LUSH_VERSION_STRING := C.lit "1.5.0" |}.

Definition sample_ctx (depth : Z) : Expansion.lle_prompt_expand_ctx_t unit :=
  {| Expansion.template_ctx := None;
     Expansion.last_exit_status := 0;
     Expansion.job_count := 0;
     Expansion.history_number := 1;
     Expansion.command_number := 1;
     Expansion.color_depth := depth |}.

Definition sample_template (format : list Z) (_ : unit) (_ : nat)
  : lle_result_t * list Z := (LLE_SUCCESS, format).

(** A system in which [pipe] and [fork] succeed, the wait on the pipe times
    out, and the child is gone at the first [waitpid]. *)
Definition timeout_world : GitCommand.world :=
  {| GitCommand.oracle := fun _ c =>
       match c with
       | GitCommand.Pipe => {| GitCommand.ret := 0; GitCommand.err := 0; GitCommand.data := [3; 4] |}
       | GitCommand.Fork => {| GitCommand.ret := 4242; GitCommand.err := 0; GitCommand.data := [] |}
       | GitCommand.Select _ (Some _) _ _ =>
           {| GitCommand.ret := 0; GitCommand.err := 0; GitCommand.data := [] |}
       | GitCommand.Waitpid pid _ =>
           {| GitCommand.ret := pid; GitCommand.err := 0; GitCommand.data := [15] |}
       | _ => {| GitCommand.ret := 0; GitCommand.err := 0; GitCommand.data := [] |}
       end;
     GitCommand.trace := [];
     GitCommand.errno := 0 |}.

Definition sample_request : AsyncWorker.lle_async_request_t :=
  {| AsyncWorker.id := 0;
     AsyncWorker.type := AsyncWorker.LLE_ASYNC_GIT_STATUS;
     AsyncWorker.cwd := C.lit "/home/alice/src";
     AsyncWorker.timeout_ms := 5000;
     AsyncWorker.user_data := 0 |}.

Definition sample_ops : list AsyncWorker.op :=
  [ AsyncWorker.OpSubmit sample_request;
    AsyncWorker.OpStart true;
    AsyncWorker.OpSubmit sample_request;
    AsyncWorker.OpSubmit sample_request;
    AsyncWorker.OpDequeue;
    AsyncWorker.OpSubmit sample_request;
    AsyncWorker.OpComplete;
    AsyncWorker.OpCallback;
    AsyncWorker.OpDequeue;
    AsyncWorker.OpShutdown;
    AsyncWorker.OpSubmit sample_request ].

(** A powerline theme with one enabled segment and a registry that knows
    it; colours become fixed escapes. *)
Definition sample_ansi (c : Powerline.lle_color_t) (is_fg : bool) (_ : nat) : list Z :=
  match Powerline.mode c with
  | Powerline.LLE_COLOR_MODE_NONE => []
  | _ => if is_fg then 27 :: C.lit "[38;5;255m" else 27 :: C.lit "[48;5;25m"
  end.

Definition sample_downgrade (c : Powerline.lle_color_t) (_ _ : bool)
  : Powerline.lle_color_t := c.

Definition sample_segment : Powerline.lle_prompt_segment_t :=
  {| Powerline.is_visible := None;
     Powerline.render := fun _ _ =>
       (LLE_SUCCESS,
        {| Powerline.content := 27 :: C.lit "[1m~/src";
           Powerline.content_len := 9;
           Powerline.is_empty := false |}) |}.

Definition sample_find (_ : unit) (name : list Z) : option Powerline.lle_prompt_segment_t :=
  if C.streq name (C.lit "directory") then Some sample_segment else None.

Definition sample_theme (separator : list Z) : Powerline.lle_theme_t :=
  {| Powerline.colors_text :=
       {| Powerline.mode := Powerline.LLE_COLOR_MODE_NONE; Powerline.index := 0;
          Powerline.red := 0; Powerline.green := 0; Powerline.blue := 0;
          Powerline.bold := false |};
     Powerline.segment_configs := [];
     Powerline.enabled_segments := [C.lit "directory"; C.lit "git"];
     Powerline.separator_left := separator;
     Powerline.separator_right := [] |}.

Definition sample_context : Powerline.lle_prompt_context_t :=
  {| Powerline.username := C.lit "alice";
     Powerline.hostname := C.lit "hq";
     Powerline.cwd := C.lit "/home/alice/src";
     Powerline.cwd_display := C.lit "~/src";
     Powerline.last_exit_code := 0;
     Powerline.background_job_count := 0;
     Powerline.history_number := 1;
     Powerline.command_number := 1;
     Powerline.has_256_color := true;
     Powerline.has_true_color := true |}.

(** A system in which [pipe] succeeds and [fork] answers 0: the process is
    the child. *)
Definition child_world : GitCommand.world :=
  {| GitCommand.oracle := fun _ c =>
       match c with
       | GitCommand.Pipe => {| GitCommand.ret := 0; GitCommand.err := 0; GitCommand.data := [3; 4] |}
       | _ => {| GitCommand.ret := 0; GitCommand.err := 0; GitCommand.data := [] |}
       end;
     GitCommand.trace := [];
     GitCommand.errno := 0 |}.

(** A system in which the pipe is readable, the first [read] delivers
    [ok] and a line feed, every later one reports the end of the input, and
    the child has exited with status 3. *)
Definition is_read (c : GitCommand.syscall) : bool :=
  match c with GitCommand.Read _ _ => true | _ => false end.

Definition reading_world : GitCommand.world :=
  {| GitCommand.oracle := fun tr c =>
       match c with
       | GitCommand.Pipe => {| GitCommand.ret := 0; GitCommand.err := 0; GitCommand.data := [3; 4] |}
       | GitCommand.Fork => {| GitCommand.ret := 4242; GitCommand.err := 0; GitCommand.data := [] |}
       | GitCommand.Select _ _ _ _ =>
           {| GitCommand.ret := 1; GitCommand.err := 0; GitCommand.data := [] |}
       | GitCommand.Read _ _ =>
           if existsb is_read tr
           then {| GitCommand.ret := 0; GitCommand.err := 0; GitCommand.data := [] |}
           else {| GitCommand.ret := 3; GitCommand.err := 0; GitCommand.data := C.lit "ok" ++ [10] |}
       | GitCommand.Waitpid pid _ =>
           {| GitCommand.ret := pid; GitCommand.err := 0; GitCommand.data := [768] |}
       | _ => {| GitCommand.ret := 0; GitCommand.err := 0; GitCommand.data := [] |}
       end;
     GitCommand.trace := [];
     GitCommand.errno := 0 |}.

(** A process whose [errno] holds [EINTR] from an earlier call, with a
    pipe at its end. *)
Definition stale_world : GitCommand.world :=
  {| GitCommand.oracle := fun _ _ =>
       {| GitCommand.ret := 0; GitCommand.err := 0; GitCommand.data := [] |};
     GitCommand.trace := [];
     GitCommand.errno := GitCommand.EINTR |}.

(** Four lines of [git status --porcelain]. *)
Definition sample_lines : list (list Z) :=
  [C.lit "M  a.c"; C.lit " M b.c"; C.lit "?? c.c"; C.lit "MM d.c"].

(** * Properties of the expansion engine *)

Section ExpansionBuffer.
Import C Expansion.

Lemma c_str_app_zero (l r : list Z) : c_str (l ++ 0 :: r) = c_str l.
Proof.
  induction l as [|c l IH]; simpl; [reflexivity|].
  destruct (c =? 0); [reflexivity | now rewrite IH].
Qed.

Lemma c_str_id (s : list Z) : Forall (fun c => c <> 0) s -> c_str s = s.
Proof.
  induction 1 as [|c s Hc _ IH]; simpl; [reflexivity|].
  destruct (Z.eqb_spec c 0); [contradiction | now rewrite IH].
Qed.

Lemma c_str_nonzero (s : list Z) : Forall (fun c => c <> 0) (c_str s).
Proof.
  induction s as [|c s IH]; simpl; [constructor|].
  destruct (Z.eqb_spec c 0); constructor; assumption.
Qed.

Lemma c_str_idem (s : list Z) : c_str (c_str s) = c_str s.
Proof. apply c_str_id, c_str_nonzero. Qed.

Lemma c_str_app (a s : list Z) :
  Forall (fun c => c <> 0) a -> c_str (a ++ s) = a ++ c_str s.
Proof.
  induction 1 as [|c a Hc _ IH]; simpl; [reflexivity|].
  destruct (Z.eqb_spec c 0); [contradiction | now rewrite IH].
Qed.

Lemma is_cstring_nonzero (s : list Z) : is_cstring s -> Forall (fun c => c <> 0) s.
Proof.
  unfold is_cstring. intros H. eapply Forall_impl; [exact H|].
  simpl. intros; lia.
Qed.

Lemma take_take_app (n : nat) (l k : list Z) :
  take n (take n l ++ k) = take n (l ++ k).
Proof.
  destruct (Nat.le_gt_cases (length l) n) as [H|H].
  - now rewrite (take_ge l n H).
  - rewrite take_app_le by (rewrite length_take; lia).
    rewrite take_take, Nat.min_id. now rewrite take_app_le by lia.
Qed.

Lemma buf_ok_array (b : expand_buf_t) :
  buf_ok b -> buf b = contents b ++ 0 :: drop (S (pos b)) (buf b).
Proof.
  intros (_ & _ & H0). unfold contents. symmetry. now apply take_drop_middle.
Qed.

(** Under the invariant the C string in the array is the text before the
    write position, up to its first NUL. *)
Lemma buf_ok_c_str (b : expand_buf_t) :
  buf_ok b -> c_str (buf b) = c_str (contents b).
Proof. intros H. rewrite (buf_ok_array b H) at 1. apply c_str_app_zero. Qed.

Lemma contents_length (b : expand_buf_t) :
  buf_ok b -> length (contents b) = pos b.
Proof. intros (H1 & H2 & _). unfold contents. rewrite length_take. lia. Qed.

Lemma buf_init_ok (arr : list Z) (n : nat) :
  (0 < n <= length arr)%nat ->
  buf_ok (buf_init arr n) /\ contents (buf_init arr n) = []
  /\ size (buf_init arr n) = n /\ length (buf (buf_init arr n)) = length arr.
Proof.
  intros H. unfold buf_init, buf_ok, contents. simpl.
  destruct (Nat.ltb_spec 0 n); [|lia].
  rewrite length_insert. repeat split; try lia.
  apply list_lookup_insert_eq. lia.
Qed.

Lemma buf_append_char_spec (b : expand_buf_t) (c : Z) :
  buf_ok b ->
  buf_ok (buf_append_char b c)
  /\ size (buf_append_char b c) = size b
  /\ length (buf (buf_append_char b c)) = length (buf b)
  /\ contents (buf_append_char b c) = take (size b - 1) (contents b ++ [c]).
Proof.
  intros Hok. pose proof (contents_length b Hok) as Hlen.
  destruct Hok as (H1 & H2 & H0).
  unfold buf_append_char.
  destruct (Nat.ltb_spec (pos b + 1) (size b)) as [Hlt|Hge].
  - unfold buf_ok, contents. simpl. rewrite !length_insert.
    repeat split; try lia.
    + apply list_lookup_insert_eq. rewrite length_insert. lia.
    + rewrite take_insert_ge by lia.
      replace (pos b + 1)%nat with (S (pos b)) by lia.
      rewrite (take_S_r _ _ c) by (apply list_lookup_insert_eq; lia).
      rewrite take_insert_ge by lia.
      symmetry. apply take_ge.
      rewrite length_app, length_take. simpl. lia.
  - repeat split; try assumption; try reflexivity.
    rewrite take_app_le by lia. symmetry. apply take_ge. lia.
Qed.

Lemma put_spec (d : list Z) (b : expand_buf_t) :
  buf_ok b ->
  buf_ok (put d b)
  /\ size (put d b) = size b
  /\ length (buf (put d b)) = length (buf b)
  /\ contents (put d b) = take (size b - 1) (contents b ++ d).
Proof.
  revert b. induction d as [|c d IH]; intros b Hok; simpl.
  - repeat split; try apply Hok; try reflexivity.
    rewrite app_nil_r. symmetry. apply take_ge.
    rewrite contents_length by assumption. destruct Hok. lia.
  - destruct (buf_append_char_spec b c Hok) as (Hok' & Hs & Hl & Hc).
    destruct (IH _ Hok') as (Hok'' & Hs' & Hl' & Hc').
    unfold put in *. split; [assumption|]. split; [congruence|].
    split; [congruence|].
    rewrite Hc', Hs, Hc, take_take_app. now rewrite <- app_assoc.
Qed.

Lemma put_app (d1 d2 : list Z) (b : expand_buf_t) :
  put (d1 ++ d2) b = put d2 (put d1 b).
Proof. unfold put. apply fold_left_app. Qed.

Lemma buf_append_char_full (b : expand_buf_t) (c : Z) :
  (size b <= pos b + 1)%nat -> buf_append_char b c = b.
Proof.
  intros H. unfold buf_append_char.
  destruct (Nat.ltb_spec (pos b + 1) (size b)); [lia | reflexivity].
Qed.

Lemma put_full (d : list Z) (b : expand_buf_t) :
  (size b <= pos b + 1)%nat -> put d b = b.
Proof.
  intros H. induction d as [|c d IH]; simpl; [reflexivity|].
  rewrite buf_append_char_full by assumption. exact IH.
Qed.

Lemma buf_append_str_loop_pos (s : list Z) (b : expand_buf_t) :
  (pos b < size b)%nat ->
  (pos (buf_append_str_loop b s) < size (buf_append_str_loop b s))%nat.
Proof.
  revert b. induction s as [|c s IH]; intros b H; simpl; [assumption|].
  destruct (negb (c =? 0) && (pos b + 1 <? size b)%nat) eqn:Hc; [|assumption].
  apply IH. simpl. apply andb_true_iff in Hc as [_ Hc].
  apply Nat.ltb_lt in Hc. lia.
Qed.

Lemma buf_append_str_loop_put (s : list Z) (b : expand_buf_t) :
  nul_terminated (buf_append_str_loop b s) = put (c_str s) (nul_terminated b).
Proof.
  revert b. induction s as [|c s IH]; intros b; simpl; [reflexivity|].
  destruct (Z.eqb_spec c 0) as [->|Hc]; simpl; [reflexivity|].
  destruct (Nat.ltb_spec (pos b + 1) (size b)) as [Hlt|Hge]; simpl.
  - rewrite IH. f_equal. unfold buf_append_char, nul_terminated. simpl.
    destruct (Nat.ltb_spec (pos b + 1) (size b)); [|lia].
    f_equal. now rewrite list_insert_insert_eq.
  - rewrite buf_append_char_full by (simpl; lia).
    symmetry. apply put_full. simpl. lia.
Qed.

(** Under the invariant, [buf_append_str] appends the bytes of the string. *)
Lemma buf_append_str_put (s : list Z) (b : expand_buf_t) :
  buf_ok b -> buf_append_str b (Some s) = put (c_str s) b.
Proof.
  intros Hok. pose proof Hok as (H1 & H2 & H0).
  unfold buf_append_str.
  pose proof (buf_append_str_loop_pos s b H1) as Hp.
  destruct (Nat.ltb_spec 0 (size (buf_append_str_loop b s))); [|lia].
  destruct (Nat.ltb_spec (pos (buf_append_str_loop b s)) (size (buf_append_str_loop b s))); [|lia].
  change (nul_terminated (buf_append_str_loop b s) = put (c_str s) b).
  rewrite buf_append_str_loop_put. f_equal.
  unfold nul_terminated. destruct b as [arr n p]; simpl in *.
  f_equal. now apply list_insert_id.
Qed.

End ExpansionBuffer.

Section ExpansionScanner.
Import C Expansion.
Context {T : Type}.
Variable E : env.
Variable ctx : lle_prompt_expand_ctx_t T.

Lemma emit_color_eq (b : expand_buf_t) (spec : list Z) (d : Z) (fg : bool) :
  emit_color b spec d fg =
  match color_escape spec d fg with
  | Some s => buf_append_str b (Some s)
  | None => b
  end.
Proof.
  unfold emit_color, color_escape.
  repeat case_match; simplify_eq; reflexivity.
Qed.

Lemma copy_csi_params_eq (p : list Z) (b : expand_buf_t) :
  copy_csi_params E p b = (csi_rest E p, put (csi_params E p) b).
Proof.
  revert b. induction p as [|c p IH]; intros b; simpl; [reflexivity|].
  destruct (negb (c =? 0) && (char_val E c <? 64)); [|reflexivity].
  now rewrite IH.
Qed.

Lemma csi_rest_length (p : list Z) : (length (csi_rest E p) <= length p)%nat.
Proof.
  induction p as [|c p IH]; simpl; [lia|].
  destruct (negb (c =? 0) && (char_val E c <? 64)); simpl; lia.
Qed.

Lemma tl_length (p : list Z) : (length (tl p) <= length p)%nat.
Proof. destruct p; simpl; lia. Qed.

Lemma octal_digits_length (n : nat) (p : list Z) (v : Z) :
  (length (fst (octal_digits E n p v)) <= length p)%nat.
Proof.
  revert p v. induction n as [|n IH]; intros p v; simpl; [lia|].
  destruct ((48 <=? char_val E (peek p)) && (char_val E (peek p) <=? 55)); simpl; [|lia].
  etransitivity; [apply IH | apply tl_length].
Qed.

Lemma hex_digits_length (n : nat) (p : list Z) (v : Z) :
  (length (fst (hex_digits E n p v)) <= length p)%nat.
Proof.
  revert p v. induction n as [|n IH]; intros p v; simpl; [lia|].
  repeat case_match; simpl; try lia;
    (etransitivity; [apply IH | apply tl_length]).
Qed.

Lemma span_brace_length (p : list Z) :
  (length (snd (span_brace p)) <= length p)%nat.
Proof.
  induction p as [|c p IH]; simpl; [lia|].
  destruct (negb (c =? 0) && negb (c =? 125)); simpl; [|lia].
  destruct (span_brace p); simpl in *. lia.
Qed.

Lemma brace_arg_length (cap : nat) (p : list Z) :
  (length (snd (brace_arg cap p)) <= length p)%nat.
Proof.
  unfold brace_arg. pose proof (span_brace_length (tl p)) as H.
  pose proof (tl_length p). destruct (span_brace (tl p)) as [a r]; simpl in *.
  destruct (peek r =? 125); [pose proof (tl_length r)|]; lia.
Qed.

Lemma put_nil (b : expand_buf_t) : b = put [] b.
Proof. reflexivity. Qed.

Lemma put_char_step (x b : expand_buf_t) (d : list Z) (c : Z) :
  x = put d b -> buf_append_char x c = put (d ++ [c]) b.
Proof. intros ->. now rewrite put_app. Qed.

Lemma put_put_step (x b : expand_buf_t) (d d' : list Z) :
  x = put d b -> put d' x = put (d ++ d') b.
Proof. intros ->. now rewrite put_app. Qed.

Lemma put_str_step (x b : expand_buf_t) (d s : list Z) :
  buf_ok b -> x = put d b -> buf_append_str x (Some s) = put (d ++ c_str s) b.
Proof.
  intros Hok ->. rewrite put_app. apply buf_append_str_put.
  now apply put_spec.
Qed.

End ExpansionScanner.

Section ExpansionStep.
Import C Expansion.
Context {T : Type}.
Variable E : env.
Variable ctx : lle_prompt_expand_ctx_t T.

Ltac put_solve :=
  solve [eauto 12 using put_nil, put_char_step, put_put_step, put_str_step].

(** Closes a leaf of the case analysis of one scanner turn: the place the
    scanner moves to and the bytes it appends are read off the goal. *)
Ltac step_leaf :=
  do 2 eexists; split;
  [ | let b := fresh "b" in let Hb := fresh "Hb" in
      intros b Hb; apply (f_equal2 pair); [reflexivity | put_solve] ].

(** A bash escape moves the scanner and appends bytes that depend on the
    input alone, not on the buffer. *)
Lemma bash_escape_put (next : Z) (p : list Z) :
  exists p' d,
    (length p' <= length p)%nat
    /\ forall b, buf_ok b -> bash_escape E ctx next p b = (p', put d b).
Proof.
  pose proof (octal_digits_length E 3 p 0) as Ho.
  pose proof (hex_digits_length E 2 p 0) as Hh.
  unfold bash_escape, append_time, buf_append_int.
  repeat case_match; simplify_eq; cbn [fst snd] in *; step_leaf;
    clear - Ho Hh; lia.
Qed.

Lemma zsh_escape_put (next : Z) (p : list Z) :
  exists p' d,
    (length p' <= length p)%nat
    /\ forall b, buf_ok b -> zsh_escape E ctx next p b = (p', put d b).
Proof.
  pose proof (brace_arg_length 128 p) as Hd.
  pose proof (brace_arg_length 64 p) as Hf.
  unfold zsh_escape, append_time, buf_append_int.
  repeat case_match; simplify_eq; try setoid_rewrite emit_color_eq;
    repeat case_match; cbn [fst snd] in *; step_leaf; clear - Hd Hf; lia.
Qed.

(** One turn of the scanner consumes input and appends bytes that depend on
    the input alone. *)
Lemma scan_step_put (p : list Z) :
  peek p <> 0 ->
  exists p' d,
    (length p' < length p)%nat
    /\ forall b, buf_ok b -> scan_step E ctx p b = (p', put d b).
Proof.
  intros Hp.
  destruct p as [|c p]; [now contradict Hp|]. cbn [peek hd] in Hp.
  unfold scan_step. cbn [peek hd tl].
  destruct (c =? 27).
  - setoid_rewrite copy_csi_params_eq.
    pose proof (csi_rest_length E (tl p)) as Hc. pose proof (tl_length p) as Ht.
    pose proof (tl_length (csi_rest E (tl p))) as Ht'.
    repeat case_match; simplify_eq; step_leaf; cbn [length]; clear - Hc Ht Ht'; lia.
  - destruct ((c =? 92) && negb (peek p =? 0)).
    + destruct (bash_escape_put (peek p) (tl p)) as (p' & d & Hl & Hb).
      exists p', d. pose proof (tl_length p). cbn [length]. split; [lia | assumption].
    + destruct ((c =? 37) && negb (peek p =? 0)).
      * destruct (zsh_escape_put (peek p) (tl p)) as (p' & d & Hl & Hb).
        exists p', d. pose proof (tl_length p). cbn [length]. split; [lia | assumption].
      * step_leaf. cbn [length]. lia.
Qed.

(** The scanning loop ends within [length p] turns, whatever turns it is
    given beyond that, and appends bytes that depend on the input alone. *)
Lemma scan_loop_put (p : list Z) :
  exists d, forall fuel b,
    (length p <= fuel)%nat -> buf_ok b ->
    scan_loop E ctx fuel p b = Some (put d b).
Proof.
  remember (length p) as n eqn:Hn.
  revert p Hn. induction n as [n IH] using lt_wf_ind. intros p Hn.
  destruct (Z.eq_dec (peek p) 0) as [H0|H0].
  - exists []. intros fuel b _ _. destruct fuel; simpl; rewrite H0; reflexivity.
  - destruct (scan_step_put p H0) as (p' & d & Hl & Hs).
    destruct (IH (length p') ltac:(lia) p' eq_refl) as (d' & Hd').
    exists (d ++ d'). intros fuel b Hf Hb.
    destruct fuel as [|fuel]; [lia|]. simpl.
    destruct (Z.eqb_spec (peek p) 0); [contradiction|].
    rewrite (Hs b Hb). rewrite Hd' by (try lia; now apply put_spec).
    now rewrite put_app.
Qed.

End ExpansionStep.

Section ExpansionOutput.
Import C Expansion.
Context {T : Type}.
Variable E : env.

Lemma c_str_take (j : nat) (l : list Z) : c_str (take j l) = take j (c_str l).
Proof.
  revert j. induction l as [|c l IH]; intros [|j]; simpl; try reflexivity.
  destruct (c =? 0); simpl; rewrite ?IH; reflexivity.
Qed.

Lemma strlen_lookup (a r : list Z) :
  (a ++ 0 :: r) !! strlen (a ++ 0 :: r) = Some 0.
Proof.
  unfold strlen. induction a as [|c a IH]; simpl; [reflexivity|].
  destruct (c =? 0) eqn:Hc; simpl; [|exact IH].
  apply Z.eqb_eq in Hc. now subst.
Qed.

Lemma strlen_le (l : list Z) : (strlen l <= length l)%nat.
Proof.
  unfold strlen. induction l as [|c l IH]; simpl; [lia|].
  destruct (c =? 0); simpl; lia.
Qed.

(** What the caller finds in the output array once the bytes [d] have been
    appended to an initialised buffer. *)
Lemma output_facts (d out : list Z) (n : nat) :
  (0 < n <= length out)%nat ->
  let o := buf (put d (buf_init out n)) in
  length o = length out
  /\ c_str o = take (n - 1) (c_str d)
  /\ (strlen o < n)%nat
  /\ o !! strlen o = Some 0.
Proof.
  intros Hn o.
  destruct (buf_init_ok out n Hn) as (Hok & Hc & Hs & Hl).
  destruct (put_spec d _ Hok) as (Hok' & Hs' & Hl' & Hc').
  fold o in Hl'. rewrite Hc, Hs in Hc'. simpl in Hc'.
  assert (Hstr : c_str o = take (n - 1) (c_str d)).
  { unfold o. rewrite buf_ok_c_str by assumption. rewrite Hc'. apply c_str_take. }
  split; [congruence|]. split; [assumption|]. split.
  - unfold strlen. rewrite Hstr, length_take. lia.
  - unfold o. rewrite (buf_ok_array _ Hok'). apply strlen_lookup.
Qed.

Variable ctx : lle_prompt_expand_ctx_t T.

(** Pass 2 returns, with success, the array holding the bytes the scanner
    appends; these depend on the input alone. *)
Lemma expand_prompt_escapes_put (input : list Z) :
  exists d, forall out n,
    (0 < n <= length out)%nat ->
    expand_prompt_escapes E ctx input out n
    = Some (LLE_SUCCESS, buf (put d (buf_init out n))).
Proof.
  destruct (scan_loop_put E ctx input) as (d & Hd).
  exists d. intros out n Hn. unfold expand_prompt_escapes.
  rewrite Hd; [reflexivity | lia | now apply buf_init_ok].
Qed.

End ExpansionOutput.

Section ExpansionClaims.
Import C Expansion.
Context {T : Type}.
Variable E : env.
Variable lle_template_evaluate : list Z -> T -> nat -> lle_result_t * list Z.

Lemma insert_zero_init (out : list Z) (n : nat) :
  (0 < n)%nat -> buf_init (<[0%nat := 0]> out) n = buf_init out n.
Proof.
  intros Hn. unfold buf_init. destruct (Nat.ltb_spec 0 n); [|lia].
  now rewrite list_insert_insert_eq.
Qed.

(** Without a template context the call is pass 2 on the format. *)
Lemma lle_prompt_expand_pass2 (fmt out : list Z) (n : nat)
    (c : lle_prompt_expand_ctx_t T) (d : list Z) :
  template_ctx c = None -> (0 < n <= length out)%nat ->
  (forall out n, (0 < n <= length out)%nat ->
     expand_prompt_escapes E c fmt out n = Some (LLE_SUCCESS, buf (put d (buf_init out n)))) ->
  lle_prompt_expand E lle_template_evaluate (Some fmt) (Some out) n (Some c)
  = Some (LLE_SUCCESS, Some (buf (put d (buf_init out n)))).
Proof.
  intros Ht Hn Hd. unfold lle_prompt_expand.
  destruct (Nat.eqb_spec n 0); [lia|]. rewrite Ht.
  rewrite Hd by (rewrite length_insert; lia).
  now rewrite insert_zero_init by lia.
Qed.

(** C1. [lle_prompt_expand] answers [LLE_ERROR_NULL_POINTER] and leaves the
    output untouched when the format, the output or the context is NULL or
    the output size is zero.  Otherwise it returns; the output array then
    holds a NUL at index [strlen output], which is below the output size, and
    the result is [LLE_SUCCESS] unless the template engine of pass 1 reported
    an error.  Without a template context the result is always
    [LLE_SUCCESS] and the string in the output is the first
    [output_size - 1] bytes of one text that does not depend on the size:
    overflow truncates and is not reported. *)
Theorem lle_prompt_expand_contract
    (format output : option (list Z)) (output_size : nat)
    (ctx : option (lle_prompt_expand_ctx_t T)) :
  (format = None \/ output = None \/ ctx = None \/ output_size = 0%nat ->
   lle_prompt_expand E lle_template_evaluate format output output_size ctx
   = Some (LLE_ERROR_NULL_POINTER, output))
  /\ (forall fmt out c,
        format = Some fmt -> output = Some out -> ctx = Some c ->
        (0 < output_size <= length out)%nat ->
        exists r out',
          lle_prompt_expand E lle_template_evaluate format output output_size ctx
          = Some (r, Some out')
          /\ length out' = length out
          /\ (strlen out' < output_size)%nat
          /\ out' !! strlen out' = Some 0
          /\ (r = LLE_SUCCESS
              \/ exists tctx, template_ctx c = Some tctx
                   /\ r = fst (lle_template_evaluate fmt tctx EXPAND_BUF_SIZE)))
  /\ (forall fmt c,
        format = Some fmt -> ctx = Some c -> template_ctx c = None ->
        exists text, forall out n,
          (0 < n <= length out)%nat ->
          exists out',
            lle_prompt_expand E lle_template_evaluate format (Some out) n ctx
            = Some (LLE_SUCCESS, Some out')
            /\ c_str out' = take (n - 1) text).
Proof.
  split; [|split].
  - intros H. unfold lle_prompt_expand.
    destruct format, output as [out|], ctx; try reflexivity.
    destruct H as [H|[H|[H|H]]]; try discriminate. now subst.
  - intros fmt out c -> -> -> Hn. unfold lle_prompt_expand.
    destruct (Nat.eqb_spec output_size 0); [lia|].
    assert (Hn' : (0 < output_size <= length (<[0%nat := 0%Z]> out))%nat)
      by (rewrite length_insert; lia).
    destruct (template_ctx c) as [tctx|] eqn:Ht.
    + destruct (lle_template_evaluate fmt tctx EXPAND_BUF_SIZE) as [r inter] eqn:Hr.
      destruct (expand_prompt_escapes_put E c inter) as (d & Hd).
      pose proof (output_facts d _ _ Hn') as (F1 & F2 & F3 & F4). 
      rewrite length_insert in F1.
      assert (Hfail : r <> LLE_SUCCESS ->
                exists r0 out', Some (r, Some (<[0%nat := 0]> out)) = Some (r0, Some out')
                  /\ length out' = length out /\ (strlen out' < output_size)%nat
                  /\ out' !! strlen out' = Some 0
                  /\ (r0 = LLE_SUCCESS \/ exists t0, Some tctx = Some t0
                        /\ r0 = fst (lle_template_evaluate fmt t0 EXPAND_BUF_SIZE))).
      { intros _. exists r, (<[0%nat := 0]> out).
        assert (Hz : strlen (<[0%nat := 0]> out) = 0%nat).
        { destruct out; [simpl in Hn; lia|]. reflexivity. }
        rewrite Hz. rewrite length_insert. repeat split; try lia.
        - apply list_lookup_insert_eq. lia.
        - right. exists tctx. now rewrite Hr. }
      destruct r; try (apply Hfail; discriminate).
      rewrite Hd by assumption.
      eexists _, _. split; [reflexivity|]. repeat split; try assumption. now left.
    + destruct (expand_prompt_escapes_put E c fmt) as (d & Hd).
      pose proof (output_facts d _ _ Hn') as (F1 & F2 & F3 & F4).
      rewrite length_insert in F1. rewrite Hd by assumption.
      eexists _, _. split; [reflexivity|]. repeat split; try assumption. now left.
  - intros fmt c -> -> Ht.
    destruct (expand_prompt_escapes_put E c fmt) as (d & Hd).
    exists (c_str d). intros out n Hn.
    eexists. split; [exact (lle_prompt_expand_pass2 fmt out n c d Ht Hn Hd)|].
    exact (proj1 (proj2 (output_facts d out n Hn))).
Qed.

End ExpansionClaims.

Section ExpansionAlgebra.
Import C Expansion.
Context {T : Type}.
Variable E : env.
Variable lle_template_evaluate : list Z -> T -> nat -> lle_result_t * list Z.

Lemma scan_loop_plain (ctx : lle_prompt_expand_ctx_t T) (s : list Z)
    (fuel : nat) (b : expand_buf_t) :
  is_cstring s -> Forall plain_byte s -> (length s <= fuel)%nat ->
  scan_loop E ctx fuel s b = Some (put s b).
Proof.
  intros Hs Hp. revert fuel b.
  induction s as [|c s IH]; intros fuel b Hf.
  - destruct fuel; reflexivity.
  - destruct fuel as [|fuel]; [simpl in Hf; lia|].
    inversion Hs as [|? ? Hc Hs']; inversion Hp as [|? ? (H1 & H2 & H3) Hp']; subst.
    cbn [scan_loop peek hd]. destruct (Z.eqb_spec c 0); [lia|].
    unfold scan_step. cbn [peek hd tl].
    destruct (Z.eqb_spec c 27); [contradiction|].
    destruct (Z.eqb_spec c 92); [contradiction|].
    destruct (Z.eqb_spec c 37); [contradiction|].
    cbn [andb]. rewrite IH by (try assumption; simpl in Hf; lia). reflexivity.
Qed.

(** C2. A format without backslash, percent sign and ESC, expanded without
    a template context into a buffer larger than the format, comes out
    unchanged. *)
Theorem expand_plain_identity (ctx : lle_prompt_expand_ctx_t T)
    (s out : list Z) (n : nat) :
  is_cstring s -> Forall plain_byte s ->
  template_ctx ctx = None ->
  (length s < n <= length out)%nat ->
  exists out',
    lle_prompt_expand E lle_template_evaluate (Some s) (Some out) n (Some ctx)
    = Some (LLE_SUCCESS, Some out')
    /\ c_str out' = s.
Proof.
  intros Hs Hp Ht Hn.
  assert (Hd : forall out n, (0 < n <= length out)%nat ->
            expand_prompt_escapes E ctx s out n
            = Some (LLE_SUCCESS, buf (put s (buf_init out n)))).
  { intros out0 n0 _. unfold expand_prompt_escapes.
    now rewrite scan_loop_plain. }
  eexists. split.
  - apply (lle_prompt_expand_pass2 E lle_template_evaluate s out n ctx s Ht); [lia | exact Hd].
  - destruct (output_facts s out n ltac:(lia)) as (_ & Hc & _).
    rewrite Hc. rewrite c_str_id by now apply is_cstring_nonzero.
    apply take_ge. lia.
Qed.

Lemma csi_param_byte (c : Z) :
  0 < c < 64 -> negb (c =? 0) && (char_val E c <? 64) = true.
Proof.
  intros H. unfold char_val. destruct (Z.eqb_spec c 0); [lia|].
  destruct (Z.leb_spec 128 c); [lia|]. rewrite andb_false_r. simpl.
  apply Z.ltb_lt. lia.
Qed.

Lemma csi_final_byte (c : Z) :
  64 <= c <= 126 -> negb (c =? 0) && (char_val E c <? 64) = false.
Proof.
  intros H. unfold char_val.
  destruct (Z.leb_spec 128 c); [lia|]. rewrite andb_false_r.
  apply andb_false_iff. right. apply Z.ltb_ge. lia.
Qed.

Lemma csi_span (params rest : list Z) (final : Z) :
  is_csi params final ->
  csi_params E (params ++ final :: rest) = params
  /\ csi_rest E (params ++ final :: rest) = final :: rest.
Proof.
  intros (Hp & Hf). induction Hp as [|c params Hc _ IH]; simpl.
  - rewrite csi_final_byte by assumption. now split.
  - rewrite csi_param_byte by assumption. destruct IH as [-> ->]. now split.
Qed.

(** The scanner's turn on a CSI sequence copies all of it. *)
Lemma scan_step_csi (ctx : lle_prompt_expand_ctx_t T) (params rest : list Z)
    (final : Z) (b : expand_buf_t) :
  is_csi params final ->
  scan_step E ctx (csi params final ++ rest) b = (rest, put (csi params final) b).
Proof.
  intros H. destruct (csi_span params rest final H) as (H1 & H2).
  unfold scan_step, csi. cbn [app peek hd tl Z.eqb Pos.eqb].
  rewrite <- app_assoc. cbn [app]. rewrite copy_csi_params_eq, H1, H2.
  cbn [peek hd tl]. destruct H as (_ & Hf).
  destruct (Z.eqb_spec final 0); [lia|]. cbn [negb].
  f_equal. unfold put. cbn [fold_left]. now rewrite fold_left_app.
Qed.

Lemma csi_nonzero (params : list Z) (final : Z) :
  is_csi params final -> Forall (fun c => c <> 0) (csi params final).
Proof.
  intros (Hp & Hf). unfold csi. repeat constructor; try lia.
  apply Forall_app. split.
  - eapply Forall_impl; [exact Hp|]. simpl. intros; lia.
  - repeat constructor. lia.
Qed.

(** C3. Expansion commutes with prefixing a CSI sequence: both calls
    succeed, and when the buffer holds the sequence and the expansion of
    the rest, the output for the prefixed format is the sequence, intact,
    followed by the output for the rest.  Given as many more bytes of buffer
    as the sequence is long, the prefixed format always expands to the
    sequence followed by the output for the rest. *)
Theorem ansi_passthrough (ctx : lle_prompt_expand_ctx_t T)
    (params f out : list Z) (final : Z) (n : nat) :
  is_csi params final ->
  template_ctx ctx = None ->
  (0 < n <= length out)%nat ->
  exists out_f out_ef,
    lle_prompt_expand E lle_template_evaluate (Some f) (Some out) n (Some ctx)
    = Some (LLE_SUCCESS, Some out_f)
    /\ lle_prompt_expand E lle_template_evaluate
         (Some (csi params final ++ f)) (Some out) n (Some ctx)
       = Some (LLE_SUCCESS, Some out_ef)
    /\ ((length (csi params final) + strlen out_f < n)%nat ->
        c_str out_ef = csi params final ++ c_str out_f)
    /\ (forall out2,
          (n + length (csi params final) <= length out2)%nat ->
          exists out_ef2,
            lle_prompt_expand E lle_template_evaluate
              (Some (csi params final ++ f)) (Some out2)
              (n + length (csi params final)) (Some ctx)
            = Some (LLE_SUCCESS, Some out_ef2)
            /\ c_str out_ef2 = csi params final ++ c_str out_f).
Proof.
  intros Hcsi Ht Hn.
  destruct (scan_loop_put E ctx f) as (d & Hd).
  assert (Hf : forall out n, (0 < n <= length out)%nat ->
            expand_prompt_escapes E ctx f out n
            = Some (LLE_SUCCESS, buf (put d (buf_init out n)))).
  { intros out0 n0 H0. unfold expand_prompt_escapes.
    rewrite Hd; [reflexivity | lia | now apply buf_init_ok]. }
  assert (Hef : forall out n, (0 < n <= length out)%nat ->
            expand_prompt_escapes E ctx (csi params final ++ f) out n
            = Some (LLE_SUCCESS, buf (put (csi params final ++ d) (buf_init out n)))).
  { intros out0 n0 H0. unfold expand_prompt_escapes.
    destruct (buf_init_ok out0 n0 H0) as (Hok & _).
    remember (length (csi params final ++ f)) as fuel eqn:Hfuel.
    destruct fuel as [|fuel]; [unfold csi in Hfuel; simpl in Hfuel; lia|].
    change (scan_loop E ctx (S fuel) (csi params final ++ f) (buf_init out0 n0))
      with (let '(p', b') := scan_step E ctx (csi params final ++ f) (buf_init out0 n0)
            in scan_loop E ctx fuel p' b').
    rewrite scan_step_csi by assumption.
    rewrite Hd; [now rewrite put_app | | now apply put_spec].
    rewrite length_app in Hfuel. unfold csi in Hfuel. simpl in Hfuel. lia. }
  eexists _, _. split; [|split; [|split]].
  - exact (lle_prompt_expand_pass2 E lle_template_evaluate f out n ctx d Ht Hn Hf).
  - exact (lle_prompt_expand_pass2 E lle_template_evaluate _ out n ctx _ Ht Hn Hef).
  - destruct (output_facts d out n Hn) as (_ & Hc & _).
    destruct (output_facts (csi params final ++ d) out n Hn) as (_ & Hc' & _).
    unfold strlen. rewrite Hc, Hc'. intros Hfit.
    rewrite c_str_app by now apply csi_nonzero.
    rewrite take_app.
    rewrite length_take in Hfit.
    rewrite (take_ge (csi params final)) by lia. f_equal.
    destruct (Nat.le_gt_cases (length (c_str d)) (n - 1)) as [Hle|Hgt].
    + rewrite !take_ge by lia. reflexivity.
    + unfold csi in Hfit. simpl in Hfit. lia.
  - intros out2 Hn2.
    assert (Hn2' : (0 < n + length (csi params final) <= length out2)%nat) by lia.
    eexists. split.
    + exact (lle_prompt_expand_pass2 E lle_template_evaluate _ out2 _ ctx _ Ht Hn2' Hef).
    + destruct (output_facts d out n Hn) as (_ & Hc & _).
      destruct (output_facts (csi params final ++ d) out2 _ Hn2') as (_ & Hc' & _).
      rewrite Hc, Hc'. rewrite c_str_app by now apply csi_nonzero.
      rewrite take_app. rewrite take_ge by lia. f_equal. f_equal. lia.
Qed.


End ExpansionAlgebra.

(** A format of three plain bytes in a buffer of eight. *)
Lemma expand_plain_identity_witness :
  exists out',
    Expansion.lle_prompt_expand (sample_env 1000 1000) sample_template
      (Some (C.lit "abc")) (Some (repeat 7 8)) 8 (Some (sample_ctx 3))
    = Some (LLE_SUCCESS, Some out')
    /\ C.c_str out' = C.lit "abc".
Proof.
  apply (expand_plain_identity (sample_env 1000 1000) sample_template (sample_ctx 3)
           (C.lit "abc") (repeat 7 8) 8).
  - repeat constructor.
  - repeat constructor; discriminate.
  - reflexivity.
  - simpl. lia.
Defined.

(** The colour sequence [ESC [ 3 2 m] before the format [\$ ]. *)
Lemma ansi_passthrough_witness :
  exists out_f out_ef,
    Expansion.lle_prompt_expand (sample_env 1000 1000) sample_template
      (Some (C.lit "\$ ")) (Some (repeat 7 16)) 16 (Some (sample_ctx 3))
    = Some (LLE_SUCCESS, Some out_f)
    /\ Expansion.lle_prompt_expand (sample_env 1000 1000) sample_template
         (Some (csi [51; 50] 109 ++ C.lit "\$ ")) (Some (repeat 7 16)) 16
         (Some (sample_ctx 3))
       = Some (LLE_SUCCESS, Some out_ef)
    /\ ((length (csi [51%Z; 50%Z] 109%Z) + C.strlen out_f < 16)%nat ->
        C.c_str out_ef = csi [51; 50] 109 ++ C.c_str out_f).
Proof.
  destruct (ansi_passthrough (sample_env 1000 1000) sample_template (sample_ctx 3)
              [51; 50] (C.lit "\$ ") (repeat 7 16) 109 16)
    as (out_f & out_ef & H1 & H2 & H3 & _).
  - split; [repeat constructor | lia].
  - reflexivity.
  - simpl. lia.
  - exists out_f, out_ef. repeat split; assumption.
Defined.



Section ColourClaims.
Import C Expansion.

(** A property of every number in [0..255], decided by running through them. *)
Lemma byte_range_check (P : Z -> Prop) `{!forall k, Decision (P k)} :
  bool_decide (Forall P (seqZ 0 256)) = true ->
  forall n, 0 <= n <= 255 -> P n.
Proof.
  intros Hall n Hn. apply bool_decide_eq_true_1 in Hall.
  rewrite Forall_forall in Hall. apply Hall. apply elem_of_seqZ. lia.
Qed.



Lemma lit_nonzero_app (a b : list Z) :
  Forall (fun c => c <> 0) a -> Forall (fun c => c <> 0) b ->
  Forall (fun c => c <> 0) (a ++ b).
Proof. intros. now apply Forall_app. Qed.


Lemma snprintf_esc_256 (fg : bool) (idx : Z) :
  0 <= idx <= 255 -> snprintf 24 (esc_256 fg idx) = esc_256 fg idx.
Proof.
  revert idx. apply (byte_range_check _). destruct fg; vm_compute; reflexivity.
Qed.


Lemma hex_digit_range (c v : Z) :
  hex_digit c = Some v ->
  (48 <= c <= 57 \/ 65 <= c <= 70 \/ 97 <= c <= 102) /\ 0 <= v <= 15.
Proof.
  unfold hex_digit. intros H.
  destruct (Z.leb_spec 48 c), (Z.leb_spec c 57), (Z.leb_spec 97 c),
    (Z.leb_spec c 102), (Z.leb_spec 65 c), (Z.leb_spec c 70);
    simpl in H; inversion H; subst; lia.
Qed.

(** One [%2x] conversion on two hexadecimal digits. *)
Lemma scan_2x_pair (h l v w : Z) (rest : list Z) :
  hex_digit h = Some v -> hex_digit l = Some w ->
  scan_2x (h :: l :: rest) = Some (16 * v + w, rest).
Proof.
  intros Hh Hl.
  destruct (hex_digit_range h v Hh) as (Rh & _).
  destruct (hex_digit_range l w Hl) as (Rl & _).
  unfold scan_2x. cbn [skip_space].
  assert (isspace h = false) as ->.
  { unfold isspace. apply orb_false_iff. split; [apply Z.eqb_neq; lia|].
    apply andb_false_iff. right. apply Z.leb_gt. lia. }
  assert ((h =? 43) || (h =? 45) = false) as ->.
  { apply orb_false_iff. split; apply Z.eqb_neq; lia. }
  rewrite Hh.
  assert ((h =? 48) && ((l =? 120) || (l =? 88)) = false) as ->.
  { apply andb_false_iff. right. apply orb_false_iff. split; apply Z.eqb_neq; lia. }
  now rewrite Hl.
Qed.

(** The hexadecimal branch of [emit_color] on [#RRGGBB]. *)
Lemma hex_spec_parse (h1 l1 h2 l2 h3 l3 a1 a2 a3 a4 a5 a6 : Z) :
  hex_digit h1 = Some a1 -> hex_digit l1 = Some a2 ->
  hex_digit h2 = Some a3 -> hex_digit l2 = Some a4 ->
  hex_digit h3 = Some a5 -> hex_digit l3 = Some a6 ->
  let spec := 35 :: [h1; l1; h2; l2; h3; l3] in
  (if (peek spec =? 35) && (strlen spec =? 7)%nat
   then sscanf_2x2x2x (tl spec) else None)
  = Some (16 * a1 + a2, 16 * a3 + a4, 16 * a5 + a6).
Proof.
  intros H1 H2 H3 H4 H5 H6 spec.
  assert (Hz : Forall (fun c => c <> 0) [h1; l1; h2; l2; h3; l3]).
  { repeat constructor;
      match goal with
      | |- ?c <> 0 =>
          match goal with
          | H : hex_digit c = Some _ |- _ =>
              destruct (hex_digit_range _ _ H) as (? & _); lia
          end
      end. }
  assert (Hs : strlen spec = 7%nat).
  { unfold strlen, spec. rewrite c_str_id; [reflexivity|].
    constructor; [lia | assumption]. }
  rewrite Hs. cbn [peek hd spec tl]. cbn [Z.eqb Pos.eqb Nat.eqb andb].
  unfold sscanf_2x2x2x. rewrite c_str_id by assumption.
  rewrite (scan_2x_pair _ _ _ _ _ H1 H2), (scan_2x_pair _ _ _ _ _ H3 H4),
    (scan_2x_pair _ _ _ _ _ H5 H6).
  reflexivity.
Qed.

Lemma cube_index_byte (c : Z) : 0 <= c <= 255 -> cube_index c = cube c /\ 0 <= cube c <= 5.
Proof.
  revert c. apply (byte_range_check _). vm_compute. reflexivity.
Qed.







Lemma fold_digits_mono (ds : list Z) (acc : Z) :
  Forall (fun d => isdigit d = true) ds -> 0 <= acc ->
  0 <= fold_left (fun a d => a * 10 + (d - 48)) ds acc.
Proof.
  intros Hds. revert acc. induction Hds as [|d ds Hd _ IH]; intros acc Ha; [exact Ha|].
  cbn [fold_left]. apply IH. unfold isdigit in Hd.
  apply andb_true_iff in Hd as [H1 H2]. apply Z.leb_le in H1. lia.
Qed.






End ColourClaims.

(** * Properties of the timed subprocess runner *)

Section RunnerLogic.
Import GitCommand.

Lemma returns_ret {A} (Q : A -> Prop) (a : A) : Q a -> returns Q (mret a).
Proof. intros H w a' w' Heq. inversion Heq. now subst. Qed.

Lemma returns_bind {A B} (Q : B -> Prop) (m : M A) (k : A -> M B) :
  (forall a, returns Q (k a)) -> returns Q (mbind m k).
Proof.
  intros H w b w' Heq. unfold mbind in Heq.
  destruct (m w) as [[a|] w1]; [|discriminate]. exact (H a w1 b w' Heq).
Qed.

Lemma calls_ret (P : syscall -> Prop) {A} (a : A) : calls P (mret a).
Proof.
  intros w. exists []. split; [|constructor]. simpl. now rewrite app_nil_r.
Qed.

Lemma calls_get_errno (P : syscall -> Prop) : calls P get_errno.
Proof.
  intros w. exists []. split; [|constructor]. simpl. now rewrite app_nil_r.
Qed.

Lemma calls_out_of_turns (P : syscall -> Prop) {A} : calls P (@out_of_turns A).
Proof.
  intros w. exists []. split; [|constructor]. simpl. now rewrite app_nil_r.
Qed.

Lemma calls_sys (P : syscall -> Prop) (c : syscall) : P c -> calls P (sys c).
Proof.
  intros Hc w. exists [c]. split; [reflexivity | now constructor].
Qed.

Lemma calls_bind (P : syscall -> Prop) {A B} (m : M A) (k : A -> M B) :
  calls P m -> (forall a, calls P (k a)) -> calls P (mbind m k).
Proof.
  intros Hm Hk w. unfold mbind.
  destruct (Hm w) as (e1 & T1 & F1).
  destruct (m w) as [[a|] w1]; simpl in T1.
  - destruct (Hk a w1) as (e2 & T2 & F2).
    exists (e1 ++ e2). split; [now rewrite T2, T1, app_assoc | now apply Forall_app].
  - exists e1. now split.
Qed.

End RunnerLogic.

Section RunnerClaims.
Import C GitCommand.

Ltac calls_step :=
  first
    [ apply calls_ret
    | apply calls_get_errno
    | apply calls_out_of_turns
    | apply calls_sys; solve [exact I | simpl; auto]
    | apply calls_bind; [|intros ?]
    | case_match ].

Lemma calls_weaken (P Q : syscall -> Prop) {A} (m : M A) :
  (forall c, P c -> Q c) -> calls P m -> calls Q m.
Proof.
  intros HPQ Hm w. destruct (Hm w) as (evs & Ht & Hf).
  exists evs. split; [assumption|]. eapply Forall_impl; [exact Hf | exact HPQ].
Qed.

Lemma drain_count_calls (turns : nat) (fd total : Z) :
  calls not_select (drain_count turns fd total).
Proof.
  revert total. induction turns as [|turns IH]; intros total; simpl.
  - apply calls_out_of_turns.
  - repeat calls_step; apply IH.
Qed.

Lemma drain_full_calls (turns : nat) (fd : Z) :
  calls not_select (drain_full turns fd).
Proof.
  induction turns as [|turns IH]; simpl.
  - apply calls_out_of_turns.
  - repeat calls_step; apply IH.
Qed.

Lemma read_loop_calls (turns : nat) (fd : Z) (buf_size : nat) (buf : list Z) :
  calls not_select (read_loop turns fd buf_size buf).
Proof.
  revert buf. induction turns as [|turns IH]; intros buf; simpl.
  - apply calls_out_of_turns.
  - repeat calls_step; try apply IH; apply drain_full_calls.
Qed.

Lemma read_all_available_calls (turns : nat) (fd : Z) (buf : option (list Z))
    (buf_size : nat) :
  calls not_select (read_all_available turns fd buf buf_size).
Proof.
  unfold read_all_available.
  repeat calls_step; first [apply drain_count_calls | apply read_loop_calls].
Qed.

Lemma wait_child_calls (turns : nat) (pid : Z) :
  calls not_select (wait_child turns pid).
Proof.
  induction turns as [|turns IH]; simpl.
  - apply calls_out_of_turns.
  - repeat calls_step; apply IH.
Qed.

Lemma not_select_wait_ok (t : Z) (c : syscall) : not_select c -> wait_ok t c.
Proof. destruct c; simpl; tauto. Qed.

Lemma pipe_wait_ok (t nfds fd : Z) :
  0 <= t < 2 ^ 32 ->
  let t' := if t =? 0 then GIT_CMD_SYNC_TIMEOUT_MS else t in
  wait_ok t (Select nfds (Some fd) (t' / 1000) (t' mod 1000 * 1000)).
Proof.
  intros Ht t'. simpl. unfold t', GIT_CMD_SYNC_TIMEOUT_MS.
  destruct (Z.eqb_spec t 0) as [->|Hne].
  - split; [left; discriminate|]. intros _ _. split; reflexivity.
  - split; [|intros _ H0; contradiction].
    destruct (Z.eq_dec (t / 1000) 0) as [Hq|Hq]; [|now left]. right.
    assert (t mod 1000 = t) by (rewrite (Z.div_mod t 1000) at 2; lia).
    lia.
Qed.

Lemma kill_child_calls (t pid : Z) : calls (wait_ok t) (kill_child pid).
Proof.
  unfold kill_child.
  repeat calls_step.
  apply calls_sys. simpl. split; [right; discriminate | intros H; contradiction].
Qed.

(** C10. Every I/O wait [git_command_with_timeout] makes, whether the call
    returns or not, is given a timeout that is not zero; when the call is
    made with [timeout_ms = 0] the wait on the pipe is given 3 s and 0 us,
    the default of 3000 ms, and that wait is made as soon as the pipe and
    the child exist. *)
Theorem zero_timeout_is_default (turns : nat) (cmd : option (list Z))
    (output : option (list Z)) (output_size : nat) (timeout_ms : Z) (w : world) :
  0 <= timeout_ms < 2 ^ 32 ->
  let w' := snd (git_command_with_timeout turns cmd output output_size timeout_ms w) in
  (exists evs, trace w' = trace w ++ evs /\ Forall (wait_ok timeout_ms) evs)
  /\ (forall c, cmd = Some c -> timeout_ms = 0 ->
        let p := oracle w (trace w) Pipe in
        let f := oracle w (trace w ++ [Pipe]) Fork in
        0 <= ret p -> 0 < ret f ->
        exists evs,
          trace w' = trace w ++ [Pipe; Fork; Close (nth 1 (data p) 0);
                                 Select (nth 0 (data p) 0 + 1)
                                        (Some (nth 0 (data p) 0)) 3 0] ++ evs).
Proof.
  intros Ht w'. split.
  - unfold w'. clear w'. revert w.
    change (calls (wait_ok timeout_ms)
              (git_command_with_timeout turns cmd output output_size timeout_ms)).
    unfold git_command_with_timeout.
    pose proof (fun n fd => pipe_wait_ok timeout_ms n fd Ht) as Hsel.
    cbv zeta in Hsel.
    repeat first
      [ apply kill_child_calls
      | apply (calls_weaken not_select);
        [ apply not_select_wait_ok
        | first [apply read_all_available_calls | apply wait_child_calls] ]
      | apply calls_sys; apply Hsel
      | calls_step ].
  - intros c -> -> p f Hp Hf. unfold w'.
    unfold git_command_with_timeout.
    cbn [Z.eqb]. unfold mbind at 1. cbn [sys].
    fold p. destruct (Z.ltb_spec (ret p) 0); [lia|].
    unfold mbind at 1. cbn [sys trace oracle].
    fold f. destruct (Z.ltb_spec (ret f) 0); [lia|].
    destruct (Z.eqb_spec (ret f) 0); [lia|].
    unfold mbind at 1. cbn [sys trace oracle].
    unfold mbind at 1. cbn [sys trace oracle].
    change (GIT_CMD_SYNC_TIMEOUT_MS / 1000) with 3.
    change (GIT_CMD_SYNC_TIMEOUT_MS mod 1000 * 1000) with 0.
    match goal with
    | |- exists evs, trace (snd (?k ?a ?w1)) = _ =>
        assert (Hk : calls (fun _ => True) (k a))
    end.
    { cbv beta.
      repeat first
        [ apply (calls_weaken (wait_ok 0)); [intros; exact I | apply kill_child_calls]
        | apply (calls_weaken not_select);
          [ intros; exact I
          | first [apply read_all_available_calls | apply wait_child_calls] ]
        | calls_step ]. }
    match goal with
    | |- exists evs, trace (snd (?k ?a ?w1)) = _ =>
        destruct (Hk w1) as (evs & Htr & _)
    end.
    cbn [trace] in Htr. exists evs. rewrite Htr. rewrite <- !app_assoc. reflexivity.
Qed.

(** C6. Pipe failure and fork failure make [git_command_with_timeout] return
    [{-1, false}]; an I/O wait that answers 0 makes it return [{-1, true}];
    and whatever the system answers, a result with [timed_out] set has the
    exit status -1. *)
Theorem runner_error_results (turns : nat) (cmd : list Z)
    (output : option (list Z)) (output_size : nat) (timeout_ms : Z) (w : world) :
  let run := git_command_with_timeout turns (Some cmd) output output_size timeout_ms in
  let t := if timeout_ms =? 0 then GIT_CMD_SYNC_TIMEOUT_MS else timeout_ms in
  let p := oracle w (trace w) Pipe in
  let rfd := nth 0 (data p) 0 in
  let wfd := nth 1 (data p) 0 in
  let f := oracle w (trace w ++ [Pipe]) Fork in
  let s := oracle w (((trace w ++ [Pipe]) ++ [Fork]) ++ [Close wfd])
             (Select (rfd + 1) (Some rfd) (t / 1000) (t mod 1000 * 1000)) in
  (ret p < 0 ->
   exists out w',
     run w = (Some (Returns {| exit_status := -1; timed_out := false |}, out), w'))
  /\ (0 <= ret p -> ret f < 0 ->
      exists out w',
        run w = (Some (Returns {| exit_status := -1; timed_out := false |}, out), w'))
  /\ (0 <= ret p -> 0 < ret f -> ret s = 0 ->
      exists out w',
        run w = (Some (Returns {| exit_status := -1; timed_out := true |}, out), w'))
  /\ (forall res w', run w = (Some res, w') -> timeout_means_no_status res).
Proof.
  intros run t p rfd wfd f s. split; [|split; [|split]].
  - intros Hp. unfold run, git_command_with_timeout.
    unfold mbind at 1. cbn [sys]. fold p.
    destruct (Z.ltb_spec (ret p) 0); [|lia]. eexists _, _. reflexivity.
  - intros Hp Hf. unfold run, git_command_with_timeout.
    unfold mbind at 1. cbn [sys]. fold p.
    destruct (Z.ltb_spec (ret p) 0); [lia|].
    unfold mbind at 1. cbn [sys trace oracle]. fold f.
    destruct (Z.ltb_spec (ret f) 0); [|lia]. eexists _, _. reflexivity.
  - intros Hp Hf Hs. unfold run, git_command_with_timeout.
    unfold mbind at 1. cbn [sys]. fold p.
    destruct (Z.ltb_spec (ret p) 0); [lia|].
    unfold mbind at 1. cbn [sys trace oracle]. fold f.
    destruct (Z.ltb_spec (ret f) 0); [lia|].
    destruct (Z.eqb_spec (ret f) 0); [lia|].
    unfold mbind at 1. cbn [sys trace oracle]. fold rfd wfd.
    unfold mbind at 1. cbn [sys trace oracle]. fold t s.
    rewrite Hs. cbn [Z.ltb Z.compare andb Z.eqb].
    unfold mbind at 1. cbn [get_errno].
    unfold mbind at 1. cbn [sys trace oracle].
    unfold kill_child, mbind, sys, mret. cbn [trace oracle errno ret].
    match goal with
    | |- context [if ?c then _ else _] => destruct c
    end; eexists _, _; reflexivity.
  - clear. intros res w'. revert w res w'.
    change (returns timeout_means_no_status
              (git_command_with_timeout turns (Some cmd) output output_size timeout_ms)).
    unfold git_command_with_timeout.
    repeat first
      [ apply returns_ret; unfold timeout_means_no_status; simpl;
        first [exact I | reflexivity | discriminate | intros; reflexivity]
      | apply returns_bind; intros ?
      | case_match ].
Qed.

End RunnerClaims.

(** * Properties of the async worker *)

Section WorkerClaims.
Import AsyncWorker.
Variable LLE_ASYNC_MAX_QUEUE_SIZE : Z.

Lemma wrap64_small (z : Z) : 0 <= z < 2 ^ 64 -> wrap64 z = z.
Proof. intros H. unfold wrap64. now apply Z.mod_small. Qed.

Lemma wrap64_add_l (a b : Z) : wrap64 (wrap64 a + b) = wrap64 (a + b).
Proof. unfold wrap64. now rewrite Zplus_mod_idemp_l. Qed.

Lemma wrap64_add_r (a b : Z) : wrap64 (a + wrap64 b) = wrap64 (a + b).
Proof. unfold wrap64. now rewrite Zplus_mod_idemp_r. Qed.

Lemma accounted_init : accounted 0 init_system.
Proof.
  exists 0, 0. simpl. repeat split; try lia; try reflexivity. now left.
Qed.

Lemma accounted_step (k : Z) (s : system) (o : op) :
  accounted k s -> accounted (k + 1) (step LLE_ASYNC_MAX_QUEUE_SIZE s o).
Proof.
  intros (TR & TC & H0 & Hsum & Hk & Htr & Htc & Hqs & Hth).
  destruct s as [w t]. unfold accounted, in_flight in *. simpl in *.
  assert (Halive : forall x, t = x -> x <> NotStarted -> x <> Exited -> running w = true).
  { intros x <- H1 H2. destruct (running w); [reflexivity|].
    destruct (Hth eq_refl); contradiction. }
  destruct o; simpl.
  - (* start *)
    unfold lle_async_worker_start. simpl.
    destruct (running w) eqn:Hr; simpl.
    + exists TR, TC. simpl. rewrite Hr. repeat split; try assumption; try lia.
    + destruct (Hth eq_refl) as [->| ->]; destruct created; simpl;
        exists TR, TC; simpl in *; repeat split; try assumption; try lia;
        try discriminate; auto.
  - (* shutdown *)
    exists TR, TC. simpl. repeat split; try assumption; lia.
  - (* wait *)
    unfold lle_async_worker_wait. simpl.
    destruct (running w) eqn:Hr.
    + destruct t; simpl; exists TR, TC; simpl in *; rewrite ?Hr;
        repeat split; try assumption; try lia; try discriminate; auto.
    + exists TR, TC. simpl. rewrite Hr. repeat split; try assumption; lia.
  - (* submit *)
    unfold lle_async_worker_submit.
    destruct (negb (running w) || shutdown_requested w) eqn:Hst; simpl.
    { exists TR, TC. simpl. repeat split; try assumption; lia. }
    destruct (LLE_ASYNC_MAX_QUEUE_SIZE <=? queue_size w); simpl.
    { exists TR, TC. simpl. repeat split; try assumption; lia. }
    exists (TR + 1), TC. simpl. rewrite length_app. simpl.
    rewrite Htr, Hqs, !wrap64_add_l.
    repeat split; try assumption; try lia; try (f_equal; lia);
      try (intros Hr; rewrite Hr in Hst; discriminate).
  - (* dequeue *)
    destruct t; simpl; try (exists TR, TC; simpl; repeat split; try assumption; lia).
    pose proof (Halive Waiting eq_refl ltac:(discriminate) ltac:(discriminate)) as Hrun.
    unfold thread_dequeue.
    destruct (queue w) as [|r rest] eqn:Hq; simpl.
    + destruct (shutdown_requested w); simpl; exists TR, TC; simpl; rewrite ?Hq;
        simpl in *; repeat split; try assumption; try lia; auto; congruence.
    + exists TR, TC. simpl in *. rewrite Hqs.
      replace (wrap64 (Z.of_nat (S (length rest))) - 1)
        with (wrap64 (Z.of_nat (S (length rest))) + -1) by lia.
      rewrite wrap64_add_l.
      repeat split; try assumption; try lia; try (f_equal; lia); congruence.
  - (* complete *)
    destruct t; simpl; try (exists TR, TC; simpl; repeat split; try assumption; lia).
    pose proof (Halive (Processing r) eq_refl ltac:(discriminate) ltac:(discriminate)) as Hrun.
    exists TR, (TC + 1). simpl in *. rewrite Htc, wrap64_add_l.
    repeat split; try assumption; try lia; congruence.
  - (* callback *)
    destruct t; simpl; try (exists TR, TC; simpl; repeat split; try assumption; lia).
    pose proof (Halive (Counted r) eq_refl ltac:(discriminate) ltac:(discriminate)) as Hrun.
    exists TR, TC. simpl in *. repeat split; try assumption; try lia; congruence.
Qed.

Lemma accounted_run (ops : list op) (k : Z) (s : system) :
  accounted k s ->
  accounted (k + Z.of_nat (length ops)) (fold_left (step LLE_ASYNC_MAX_QUEUE_SIZE) ops s).
Proof.
  revert k s. induction ops as [|o ops IH]; intros k s H; simpl fold_left.
  - simpl. now rewrite Z.add_0_r.
  - replace (k + Z.of_nat (length (o :: ops)))
      with ((k + 1) + Z.of_nat (length ops)) by (simpl length; lia).
    apply IH. now apply accounted_step.
Qed.

(** C8. In every state the worker reaches by starting, shutting down,
    waiting, submitting, dequeuing, counting and calling back, the requests
    counted as completed, those queued and the one in flight add up to the
    requests accepted: in the 64-bit arithmetic of the counters always, and
    as plain integers as long as fewer than 2^64 steps have been taken. *)
Theorem accounting_identity (ops : list op) :
  let s := AsyncWorker.run LLE_ASYNC_MAX_QUEUE_SIZE ops in
  wrap64 (total_completed (worker s) + pending s + in_flight s)
  = total_requests (worker s)
  /\ (Z.of_nat (length ops) < 2 ^ 64 ->
      total_completed (worker s) + pending s + in_flight s
      = total_requests (worker s)).
Proof.
  intros s.
  destruct (accounted_run ops 0 init_system accounted_init)
    as (TR & TC & H0 & Hsum & Hk & Htr & Htc & Hqs & _).
  fold (AsyncWorker.run LLE_ASYNC_MAX_QUEUE_SIZE ops) in *. fold s in Hsum, Htr, Htc, Hqs.
  unfold pending. split.
  - rewrite Htr, Htc, Hqs, <- Hsum.
    rewrite <- Z.add_assoc, wrap64_add_l, Z.add_assoc.
    rewrite (Z.add_comm TC), <- !Z.add_assoc, wrap64_add_l. f_equal. lia.
  - intros Hlen.
    assert (0 <= in_flight s <= 1) by (unfold in_flight; destruct (thread s); lia).
    rewrite Htr, Htc, Hqs. rewrite !wrap64_small by lia. lia.
Qed.

Lemma assigned_ids_sorted (ops : list op) (s : system) :
  0 <= next_id s -> next_id s + Z.of_nat (length ops) < 2 ^ 64 ->
  StronglySorted Z.lt (assigned_ids LLE_ASYNC_MAX_QUEUE_SIZE s ops)
  /\ Forall (fun i => next_id s <= i) (assigned_ids LLE_ASYNC_MAX_QUEUE_SIZE s ops).
Proof.
  revert s. induction ops as [|o ops IH]; intros s H0 Hlen.
  - split; constructor.
  - simpl length in Hlen.
    assert (Hnext : next_id (step LLE_ASYNC_MAX_QUEUE_SIZE s o) = next_id s
                    \/ (next_id (step LLE_ASYNC_MAX_QUEUE_SIZE s o) = next_id s + 1
                        /\ exists r, o = OpSubmit r
                             /\ lle_async_worker_submit LLE_ASYNC_MAX_QUEUE_SIZE (Some (worker s)) (Some r)
                                = (LLE_SUCCESS, Some (worker (step LLE_ASYNC_MAX_QUEUE_SIZE s o)),
                                   Some (set_id r (next_id s))))).
    { unfold next_id. destruct s as [w t]. destruct o; simpl;
        try (left; reflexivity).
      - unfold lle_async_worker_start. simpl.
        destruct (running w), created; left; reflexivity.
      - unfold lle_async_worker_wait. simpl.
        destruct (running w); [destruct t|]; left; reflexivity.
      - unfold lle_async_worker_submit.
        destruct (negb (running w) || shutdown_requested w); [left; reflexivity|].
        destruct (LLE_ASYNC_MAX_QUEUE_SIZE <=? queue_size w); [left; reflexivity|].
        right. simpl. split; [|exists r; split; reflexivity].
        unfold next_id in *. simpl in *. apply wrap64_small. lia.
      - destruct t; try (left; reflexivity). unfold thread_dequeue.
        destruct (queue w); [destruct (shutdown_requested w)|]; left; reflexivity.
      - destruct t; left; reflexivity.
      - destruct t; left; reflexivity. }
    destruct Hnext as [Hn|(Hn & r & -> & Hsub)].
    + destruct (IH (step LLE_ASYNC_MAX_QUEUE_SIZE s o)) as (Hs & Hf); [lia | lia |].
      rewrite Hn in Hf.
      assert (Hids : assigned_ids LLE_ASYNC_MAX_QUEUE_SIZE s (o :: ops)
                     = assigned_ids LLE_ASYNC_MAX_QUEUE_SIZE (step LLE_ASYNC_MAX_QUEUE_SIZE s o) ops).
      { destruct o; try reflexivity. simpl.
        unfold next_id in Hn. destruct s as [w t]. simpl in *.
        unfold lle_async_worker_submit in *.
        destruct (negb (running w) || shutdown_requested w); [reflexivity|].
        destruct (LLE_ASYNC_MAX_QUEUE_SIZE <=? queue_size w); [reflexivity|].
        simpl in Hn. unfold next_id in *. simpl in *.
        rewrite wrap64_small in Hn by lia. lia. }
      rewrite Hids. now split.
    + destruct (IH (step LLE_ASYNC_MAX_QUEUE_SIZE s (OpSubmit r))) as (Hs & Hf); [lia | lia |].
      rewrite Hn in Hf. cbn [assigned_ids]. rewrite Hsub. cbn [id set_id].
      split.
      * constructor; [assumption|]. eapply Forall_impl; [exact Hf|]. simpl. intros; lia.
      * constructor; [lia|]. eapply Forall_impl; [exact Hf|]. simpl. intros; lia.
Qed.

(** C7. [lle_async_worker_submit] answers [invalid_state] when the worker
    is not running or is shutting down, and [resource_exhausted] when it runs
    and the queue holds the maximum; both leave the worker and the request as
    they were.  Otherwise it succeeds: the request, given the next id, is
    appended at the tail of the queue, and the queue size and the request
    counter grow by one; the worker thread takes requests from the head of
    the queue.  From initialisation on, the ids the successful
    submissions assign are strictly increasing, as long as fewer than
    2^64 - 1 steps have been taken. *)
Theorem submit_contract :
  (forall w r,
     running w = false \/ shutdown_requested w = true ->
     lle_async_worker_submit LLE_ASYNC_MAX_QUEUE_SIZE (Some w) (Some r) = (LLE_ERROR_INVALID_STATE, Some w, Some r))
  /\ (forall w r,
        running w = true -> shutdown_requested w = false ->
        LLE_ASYNC_MAX_QUEUE_SIZE <= queue_size w ->
        lle_async_worker_submit LLE_ASYNC_MAX_QUEUE_SIZE (Some w) (Some r) = (LLE_ERROR_RESOURCE_EXHAUSTED, Some w, Some r))
  /\ (forall w r,
        running w = true -> shutdown_requested w = false ->
        queue_size w < LLE_ASYNC_MAX_QUEUE_SIZE ->
        exists w',
          lle_async_worker_submit LLE_ASYNC_MAX_QUEUE_SIZE (Some w) (Some r)
          = (LLE_SUCCESS, Some w', Some (set_id r (next_request_id w)))
          /\ queue w' = queue w ++ [set_id r (next_request_id w)]
          /\ queue_size w' = wrap64 (queue_size w + 1)
          /\ total_requests w' = wrap64 (total_requests w + 1)
          /\ next_request_id w' = wrap64 (next_request_id w + 1)
          /\ running w' = true /\ shutdown_requested w' = false
          /\ total_completed w' = total_completed w)
  /\ (forall w r rest,
        queue w = r :: rest ->
        snd (thread_dequeue w) = Processing r /\ queue (fst (thread_dequeue w)) = rest)
  /\ (forall ops,
        Z.of_nat (length ops) < 2 ^ 64 - 1 ->
        StronglySorted Z.lt (assigned_ids LLE_ASYNC_MAX_QUEUE_SIZE init_system ops)).
Proof.
  split; [|split; [|split; [|split]]].
  - intros w r [H|H]; unfold lle_async_worker_submit; rewrite H;
      [reflexivity | now rewrite orb_true_r].
  - intros w r Hr Hs Hq. unfold lle_async_worker_submit. rewrite Hr, Hs. simpl.
    destruct (Z.leb_spec LLE_ASYNC_MAX_QUEUE_SIZE (queue_size w)); [reflexivity | lia].
  - intros w r Hr Hs Hq. unfold lle_async_worker_submit. rewrite Hr, Hs. simpl.
    destruct (Z.leb_spec LLE_ASYNC_MAX_QUEUE_SIZE (queue_size w)); [lia|].
    eexists. split; [reflexivity|]. simpl. repeat split; assumption.
  - intros w r rest Hq. unfold thread_dequeue. rewrite Hq. now split.
  - intros ops Hlen.
    apply (assigned_ids_sorted ops init_system); unfold next_id; simpl; lia.
Qed.

End WorkerClaims.

(** * Properties of the powerline renderer *)

Section Occurrences.

Variable sep : list Z.
Hypothesis sep_nonempty : sep <> [].

Lemma starts_with_short (hay : list Z) :
  (length hay < length sep)%nat -> starts_with sep hay = false.
Proof.
  intros H. unfold starts_with. apply bool_decide_eq_false_2. intros Heq.
  apply (f_equal length) in Heq. rewrite length_take in Heq. lia.
Qed.

Lemma occurrences_short (hay : list Z) :
  (length hay < length sep)%nat -> occurrences sep hay = 0%nat.
Proof.
  induction hay as [|c hay IH]; intros H; [reflexivity|].
  cbn [occurrences]. rewrite starts_with_short by assumption.
  rewrite IH by (simpl in H; lia). reflexivity.
Qed.

Lemma starts_with_outside (u v : list Z) (f : Z) :
  outside sep f -> starts_with sep (u ++ f :: v) = starts_with sep u.
Proof.
  intros Hf. unfold starts_with.
  destruct (Nat.le_gt_cases (length sep) (length u)) as [Hle|Hgt].
  - now rewrite take_app_le by assumption.
  - rewrite (bool_decide_eq_false_2 (take (length sep) u = sep)).
    + apply bool_decide_eq_false_2. intros Heq. apply Hf.
      rewrite <- Heq. apply list_elem_of_In.
      apply (list_elem_of_lookup_2 _ (length u)).
      rewrite lookup_take_lt by assumption.
      rewrite lookup_app_r by lia. now rewrite Nat.sub_diag.
    + intros Heq. apply (f_equal length) in Heq. rewrite length_take in Heq. lia.
Qed.

(** An occurrence of the separator cannot cover a byte outside it. *)
Lemma occurrences_split (u v : list Z) (f : Z) :
  outside sep f ->
  occurrences sep (u ++ f :: v) = (occurrences sep u + occurrences sep v)%nat.
Proof.
  intros Hf. induction u as [|c u IH].
  - cbn [app occurrences].
    change (f :: v) with ([] ++ f :: v). rewrite starts_with_outside by assumption.
    rewrite starts_with_short; [reflexivity|].
    destruct sep; [contradiction | simpl; lia].
  - cbn [app occurrences]. rewrite IH.
    change (c :: u ++ f :: v) with ((c :: u) ++ f :: v).
    rewrite starts_with_outside by assumption. lia.
Qed.

Lemma occurrences_outside (fr : list Z) :
  Forall (outside sep) fr -> occurrences sep fr = 0%nat.
Proof.
  induction 1 as [|f fr Hf _ IH]; [reflexivity|].
  change (f :: fr) with ([] ++ f :: fr). rewrite occurrences_split by assumption.
  now rewrite IH.
Qed.

Lemma occurrences_skip (fr v : list Z) :
  Forall (outside sep) fr -> occurrences sep (fr ++ v) = occurrences sep v.
Proof.
  induction 1 as [|f fr Hf _ IH]; [reflexivity|].
  change ((f :: fr) ++ v) with ([] ++ f :: (fr ++ v)).
  rewrite occurrences_split by assumption. now rewrite IH.
Qed.

Lemma occurrences_self : occurrences sep sep = 1%nat.
Proof.
  destruct sep as [|c s] eqn:Hs; [contradiction|]. rewrite <- Hs.
  rewrite Hs at 2. cbn [occurrences]. rewrite <- Hs.
  assert (starts_with sep sep = true) as ->.
  { unfold starts_with. apply bool_decide_eq_true_2. apply take_ge. lia. }
  rewrite occurrences_short; [reflexivity|]. rewrite Hs. simpl. lia.
Qed.

(** The separator followed by a byte outside it is one occurrence. *)
Lemma occurrences_sep_then (f : Z) (v : list Z) :
  outside sep f -> occurrences sep (sep ++ f :: v) = S (occurrences sep v).
Proof.
  intros Hf. rewrite occurrences_split by assumption. now rewrite occurrences_self.
Qed.

End Occurrences.

Section PowerlineText.
Import C Powerline.
Variable lle_color_to_ansi : lle_color_t -> bool -> nat -> list Z.

Lemma holds_length (a : append_ctx_t) (t : list Z) : holds a t -> length t = pos a.
Proof. intros (H1 & <- & _). rewrite length_take. lia. Qed.

Lemma buf_append_holds (a : append_ctx_t) (t data : list Z) :
  holds a t -> (length t + length data < size a)%nat ->
  holds (buf_append a data) (t ++ data) /\ size (buf_append a data) = size a.
Proof.
  intros Ha Hfit. pose proof (holds_length a t Ha) as Hl.
  destruct Ha as (H1 & H2 & H3). unfold buf_append.
  destruct (Nat.leb_spec (size a) (pos a + length data)); [lia|].
  split; [|reflexivity]. unfold holds, memcpy. cbn [Powerline.buf Powerline.size Powerline.pos].
  assert (Hlen : length (take (pos a) (buf a) ++ data
                         ++ drop (pos a + length data) (buf a)) = length (buf a)).
  { rewrite !length_app, length_take, length_drop. lia. }
  rewrite length_insert, Hlen. split; [lia|]. split.
  - rewrite take_insert_ge by lia. rewrite app_assoc.
    rewrite take_app_length'; [now rewrite H2|].
    rewrite length_app, length_take. lia.
  - apply list_lookup_insert_eq. lia.
Qed.

Lemma buf_append_str_holds (a : append_ctx_t) (t s : list Z) :
  holds a t -> (length t + length (c_str s) < size a)%nat ->
  holds (Powerline.buf_append_str a s) (t ++ c_str s)
  /\ size (Powerline.buf_append_str a s) = size a.
Proof. apply buf_append_holds. Qed.

Lemma buf_append_color_holds (a : append_ctx_t) (t : list Z) (c : lle_color_t)
    (is_fg : bool) :
  holds a t -> (length t + length (lle_color_to_ansi c is_fg 32) < size a)%nat ->
  let a' := if is_fg then buf_append_color_fg lle_color_to_ansi a c
            else buf_append_color_bg lle_color_to_ansi a c in
  holds a' (t ++ lle_color_to_ansi c is_fg 32) /\ size a' = size a.
Proof.
  intros Ha Hfit.
  assert (Hgen : let a' := if (0 <? length (lle_color_to_ansi c is_fg 32))%nat
                           then buf_append a (lle_color_to_ansi c is_fg 32) else a in
                 holds a' (t ++ lle_color_to_ansi c is_fg 32) /\ size a' = size a).
  { simpl. destruct (Nat.ltb_spec 0 (length (lle_color_to_ansi c is_fg 32))).
    - now apply buf_append_holds.
    - destruct (lle_color_to_ansi c is_fg 32); [|simpl in *; lia].
      rewrite app_nil_r. now split. }
  destruct is_fg; exact Hgen.
Qed.

End PowerlineText.

Section PowerlineRender.
Import C Powerline.
Variable lle_color_to_ansi : lle_color_t -> bool -> nat -> list Z.

(** When the whole text fits, [render_left_to_right] appends it. *)
Lemma render_left_to_right_holds (segs : list powerline_segment_t)
    (separator : list Z) (a : append_ctx_t) (t : list Z) :
  holds a t ->
  (length t + length (ltr_text lle_color_to_ansi segs (c_str separator)) < size a)%nat ->
  holds (render_left_to_right lle_color_to_ansi segs separator a)
        (t ++ ltr_text lle_color_to_ansi segs (c_str separator)).
Proof.
  revert a t. induction segs as [|seg rest IH]; intros a t Ha Hfit.
  - simpl. now rewrite app_nil_r.
  - cbn [ltr_text] in *. cbn [render_left_to_right].
    set (A1 := lle_color_to_ansi (bg seg) false 32) in *.
    set (A2 := lle_color_to_ansi (fg seg) true 32) in *.
    set (A3 := lle_color_to_ansi (bg seg) true 32) in *.
    set (body := take (seg_content_len seg) (seg_content seg)) in *.
    set (sp := c_str separator) in *.
    unfold buf_append_color_bg, buf_append_color_fg, Powerline.buf_append_str,
      buf_append_reset. fold A1 A2 A3 body sp. fold reset_text.
    change (c_str (lit " ")) with [32].
    assert (Hsz : size a = size a) by reflexivity.
    revert Hsz. generalize (size a) at 2. intros n Hsz. rewrite Hsz in Hfit.
    assert (Hstep : forall x u d, holds x u -> size x = n ->
              (length u + length d < n)%nat ->
              holds (if (0 <? length d)%nat then buf_append x d else x) (u ++ d)
              /\ size (if (0 <? length d)%nat then buf_append x d else x) = n).
    { intros x u d Hx Hn Hd. destruct (Nat.ltb_spec 0 (length d)).
      - rewrite <- Hn. apply buf_append_holds; [assumption | lia].
      - destruct d; [|simpl in *; lia]. rewrite app_nil_r. now split. }
    assert (Hstep' : forall x u d, holds x u -> size x = n ->
              (length u + length d < n)%nat ->
              holds (buf_append x d) (u ++ d) /\ size (buf_append x d) = n).
    { intros x u d Hx Hn Hd. rewrite <- Hn. apply buf_append_holds; [assumption | lia]. }
    destruct rest as [|next rest'].
    + cbn [ltr_text] in *.
      repeat first [rewrite length_app in Hfit | progress cbn [length] in Hfit].
      destruct (Hstep a t A1 Ha Hsz ltac:(lia)) as (H1 & S1).
      destruct (Hstep _ _ A2 H1 S1 ltac:(rewrite length_app; lia)) as (H2 & S2).
      destruct (Hstep' _ _ [32] H2 S2 ltac:(rewrite !length_app; cbn [length]; lia)) as (H3 & S3).
      destruct (Hstep' _ _ body H3 S3 ltac:(rewrite !length_app; cbn [length]; lia)) as (H4 & S4).
      destruct (Hstep' _ _ [32] H4 S4 ltac:(rewrite !length_app; cbn [length]; lia)) as (H5 & S5).
      destruct (Hstep' _ _ reset_text H5 S5 ltac:(rewrite !length_app; cbn [length]; lia)) as (H6 & S6).
      destruct (Hstep _ _ A3 H6 S6 ltac:(rewrite !length_app; cbn [length]; lia)) as (H7 & S7).
      destruct (Hstep' _ _ sp H7 S7 ltac:(rewrite !length_app; cbn [length]; lia)) as (H8 & S8).
      destruct (Hstep' _ _ reset_text H8 S8 ltac:(rewrite !length_app; cbn [length]; lia)) as (H9 & S9).
      cbn [render_left_to_right].
      repeat rewrite <- app_assoc in H9. repeat rewrite <- app_assoc.
      exact H9.
    + set (A4 := lle_color_to_ansi (bg next) false 32) in *.
      set (tail := ltr_text lle_color_to_ansi (next :: rest') sp) in *.
      repeat first [rewrite length_app in Hfit | progress cbn [length] in Hfit].
      destruct (Hstep a t A1 Ha Hsz ltac:(lia)) as (H1 & S1).
      destruct (Hstep _ _ A2 H1 S1 ltac:(rewrite length_app; lia)) as (H2 & S2).
      destruct (Hstep' _ _ [32] H2 S2 ltac:(rewrite !length_app; cbn [length]; lia)) as (H3 & S3).
      destruct (Hstep' _ _ body H3 S3 ltac:(rewrite !length_app; cbn [length]; lia)) as (H4 & S4).
      destruct (Hstep' _ _ [32] H4 S4 ltac:(rewrite !length_app; cbn [length]; lia)) as (H5 & S5).
      destruct (Hstep _ _ A3 H5 S5 ltac:(rewrite !length_app; cbn [length]; lia)) as (H6 & S6).
      destruct (Hstep _ _ A4 H6 S6 ltac:(rewrite !length_app; cbn [length]; lia)) as (H7 & S7).
      destruct (Hstep' _ _ sp H7 S7 ltac:(rewrite !length_app; cbn [length]; lia)) as (H8 & S8).
      match goal with
      | |- holds (render_left_to_right _ _ _ ?x) _ =>
          pose proof (IH x _ H8) as Hrest
      end.
      fold sp tail in Hrest. rewrite S8 in Hrest.
      specialize (Hrest ltac:(rewrite !length_app; cbn [length]; lia)).
      repeat rewrite <- app_assoc in Hrest. repeat rewrite <- app_assoc.
      exact Hrest.
Qed.

End PowerlineRender.

Section PowerlineCount.
Import C Powerline.
Variable lle_color_to_ansi : lle_color_t -> bool -> nat -> list Z.
Variable sep : list Z.
Hypothesis sep_nonempty : sep <> [].
Hypothesis space_outside : outside sep 32.
Hypothesis reset_outside : Forall (outside sep) reset_text.
Hypothesis ansi_outside : forall c f, Forall (outside sep) (lle_color_to_ansi c f 32).

(** The separator occurs in the assembled text once per segment when it
    occurs in no content and shares no byte with what surrounds it. *)
Lemma ltr_text_occurrences (segs : list powerline_segment_t) :
  Forall (fun seg => occurrences sep (take (seg_content_len seg) (seg_content seg))
                     = 0%nat) segs ->
  occurrences sep (ltr_text lle_color_to_ansi segs sep) = length segs
  /\ (segs <> [] ->
      exists f v, ltr_text lle_color_to_ansi segs sep = f :: v /\ outside sep f).
Proof.
  induction 1 as [|seg rest Hseg _ IH]; [split; [reflexivity | congruence]|].
  assert (Hhead : forall fr v, Forall (outside sep) fr ->
            exists f v', fr ++ 32 :: v = f :: v' /\ outside sep f).
  { intros fr v Hfr. destruct Hfr as [|f fr Hf _]; simpl; eauto. }
  assert (Hfr2 : forall c1 f1 c2 f2,
            Forall (outside sep) (lle_color_to_ansi c1 f1 32 ++ lle_color_to_ansi c2 f2 32)).
  { intros. apply Forall_app. split; apply ansi_outside. }
  split.
  - cbn [ltr_text length].
    rewrite occurrences_split by assumption.
    rewrite (occurrences_outside sep sep_nonempty) by apply Hfr2.
    rewrite occurrences_split by assumption. rewrite Hseg.
    destruct rest as [|next rest'].
    + rewrite (occurrences_skip sep sep_nonempty)
        by (apply Forall_app; split; [apply reset_outside | apply ansi_outside]).
      unfold reset_text in *. inversion reset_outside as [|? ? Hesc Htl]; subst.
      rewrite occurrences_sep_then by assumption.
      now rewrite (occurrences_outside sep sep_nonempty) by assumption.
    + rewrite (occurrences_skip sep sep_nonempty) by apply Hfr2.
      destruct IH as (Hn & Hne). destruct (Hne ltac:(discriminate)) as (f & v & Hfv & Hf).
      rewrite Hfv in *. rewrite occurrences_sep_then by assumption.
      change (f :: v) with ([] ++ f :: v) in Hn.
      rewrite occurrences_split in Hn by assumption.
      simpl in Hn. simpl. lia.
  - intros _. cbn [ltr_text]. apply Hhead, Hfr2.
Qed.

End PowerlineCount.

Section PowerlineClaims.
Import C Powerline.
Variable lle_color_to_ansi : lle_color_t -> bool -> nat -> list Z.
Variable lle_color_downgrade : lle_color_t -> bool -> bool -> lle_color_t.
Variable lle_segment_registry_t : Type.
Variable lle_segment_registry_find :
  lle_segment_registry_t -> list Z -> option lle_prompt_segment_t.
Variable LLE_SEGMENT_OUTPUT_MAX : nat.

Lemma strip_ansi_from_nonzero (src : list Z) (skipping : bool) (n : nat)
    (dst : list Z) :
  Forall (fun c => c <> 0) dst ->
  Forall (fun c => c <> 0) (strip_ansi_from src skipping n dst).
Proof.
  remember (length src) as k eqn:Hk. revert src skipping dst Hk.
  induction k as [k IH] using lt_wf_ind. intros src skipping dst Hk Hd.
  destruct src as [|c src]; [assumption|]. subst k.
  assert (IH' : forall s sk d, (length s < length (c :: src))%nat ->
            Forall (fun c => c <> 0) d ->
            Forall (fun c => c <> 0) (strip_ansi_from s sk n d)).
  { intros s sk d Hs Hd'. exact (IH (length s) Hs s sk d eq_refl Hd'). }
  clear IH. rename IH' into IH. cbn [strip_ansi_from].
  assert (Hcons : c <> 0 ->
            Forall (fun c => c <> 0) (if (length dst + 1 <? n)%nat then dst ++ [c] else dst)).
  { intros Hc. destruct (length dst + 1 <? n)%nat; [|assumption].
    apply Forall_app. split; [assumption | now repeat constructor]. }
  destruct skipping.
  - destruct (negb (c =? 0) && negb ((64 <=? c) && (c <=? 126)));
      apply IH; simpl; try lia; assumption.
  - destruct (Z.eqb_spec c 0); [assumption|].
    destruct src as [|c2 src'']; [now apply Hcons|].
    destruct ((c =? 27) && (c2 =? 91)); apply IH; simpl; try lia; auto.
Qed.

Lemma collect_from_stored (theme : lle_theme_t) (registry : lle_segment_registry_t)
    (ctx : lle_prompt_context_t) (names : list (list Z))
    (out : list powerline_segment_t) (cap : nat) :
  Forall stored out ->
  Forall stored
    (collect_from lle_color_downgrade lle_segment_registry_t lle_segment_registry_find
       LLE_SEGMENT_OUTPUT_MAX theme registry ctx names out cap).
Proof.
  revert out. induction names as [|nm names IH]; intros out Hout; [assumption|].
  cbn [collect_from].
  repeat case_match; try assumption; try (now apply IH);
    apply IH; apply Forall_app; (split; [assumption|]);
    repeat constructor; simpl; apply strip_ansi_from_nonzero; constructor.
Qed.

Lemma ltr_text_nonzero (segs : list powerline_segment_t) (sep : list Z) :
  (forall c f, Forall (fun x => x <> 0) (lle_color_to_ansi c f 32)) ->
  Forall stored segs ->
  Forall (fun x => x <> 0) (ltr_text lle_color_to_ansi segs (c_str sep)).
Proof.
  intros Hansi. induction 1 as [|seg rest (Hl & Hz) Hrest IH]; [constructor|].
  cbn [ltr_text].
  assert (Hreset : Forall (fun x => x <> 0) reset_text)
    by (repeat constructor; discriminate).
  assert (Hbody : Forall (fun x => x <> 0) (take (seg_content_len seg) (seg_content seg))).
  { now apply Forall_take. }
  destruct rest;
    repeat first
      [ assumption | apply Hansi | apply c_str_nonzero
      | apply Forall_cons; split; [discriminate|]
      | apply Forall_app; split ].
Qed.

(** C9, as the code has it. In a left-to-right render whose buffer is large
    enough for the whole text, with no visible segment's stripped content
    containing the separator, and with a separator that shares no byte with
    what the renderer puts around it (the padding space, the reset sequence
    and the colour escapes, themselves free of NUL), the separator occurs in
    the output as many times as there are visible segments. *)
Theorem powerline_separator_count (theme : lle_theme_t)
    (registry : lle_segment_registry_t) (ctx : lle_prompt_context_t)
    (out : list Z) (n : nat) :
  let visible :=
    collect_visible_segments lle_color_downgrade lle_segment_registry_t
      lle_segment_registry_find LLE_SEGMENT_OUTPUT_MAX theme registry ctx
      POWERLINE_MAX_VISIBLE in
  let sep := c_str (separator_for theme LLE_POWERLINE_LEFT_TO_RIGHT) in
  (0 < n <= length out)%nat ->
  (length (ltr_text lle_color_to_ansi visible sep) < n)%nat ->
  Forall (fun seg => occurrences sep (seg_content seg) = 0%nat) visible ->
  (forall c f, Forall (fun x => x <> 0) (lle_color_to_ansi c f 32)) ->
  Forall (fun x => x <> 32 /\ ~ In x reset_text
                   /\ forall c f, ~ In x (lle_color_to_ansi c f 32)) sep ->
  exists out',
    lle_powerline_render lle_color_to_ansi lle_color_downgrade
      lle_segment_registry_t lle_segment_registry_find LLE_SEGMENT_OUTPUT_MAX
      (Some theme) (Some registry) (Some ctx) LLE_POWERLINE_LEFT_TO_RIGHT
      (Some out) n
    = (LLE_SUCCESS, Some out')
    /\ occurrences sep (c_str out') = length visible.
Proof.
  intros visible sep Hn Hfit Hcontent Hansi Hsep.
  assert (Hne : sep <> []).
  { unfold sep, separator_for.
    destruct (Z.eqb_spec (peek (separator_left theme)) 0) as [|Hp]; [discriminate|].
    destruct (separator_left theme) as [|c s]; [now contradict Hp|].
    simpl in *. destruct (Z.eqb_spec c 0); [contradiction | discriminate]. }
  assert (Hstored : Forall stored visible).
  { apply collect_from_stored. constructor. }
  assert (Hempty : forall o : list Z, (0 < length o)%nat ->
            occurrences sep (c_str (<[0%nat := 0%Z]> o)) = 0%nat).
  { intros [|x o] Ho; [simpl in Ho; lia | reflexivity]. }
  unfold lle_powerline_render.
  destruct (Nat.eqb_spec n 0); [lia|].
  destruct (Nat.eqb_spec (length (enabled_segments theme)) 0) as [He|He].
  { eexists. split; [reflexivity|]. rewrite Hempty by lia.
    unfold visible, collect_visible_segments.
    destruct (enabled_segments theme); [reflexivity | discriminate]. }
  fold visible.
  destruct (Nat.eqb_spec (length visible) 0) as [Hv|Hv].
  { eexists. split; [reflexivity|]. rewrite Hempty by lia. now rewrite Hv. }
  eexists. split; [reflexivity|].
  set (a0 := {| buf := <[0%nat := 0%Z]> out; size := n; pos := 0 |}).
  assert (Ha0 : holds a0 []).
  { unfold holds, a0. simpl. rewrite length_insert. repeat split; try lia.
    apply list_lookup_insert_eq. lia. }
  pose proof (render_left_to_right_holds lle_color_to_ansi visible
                (separator_for theme LLE_POWERLINE_LEFT_TO_RIGHT) a0 [] Ha0) as Hr.
  fold sep in Hr. specialize (Hr ltac:(simpl; lia)). simpl app in Hr.
  destruct Hr as (Hp & Ht & Hz).
  rewrite <- (take_drop_middle _ _ _ Hz), Ht, c_str_app_zero.
  rewrite c_str_id by (apply ltr_text_nonzero; assumption).
  assert (Hout : forall y, In y sep -> y <> 32 /\ ~ In y reset_text
                   /\ forall c f, ~ In y (lle_color_to_ansi c f 32)).
  { intros y Hy. rewrite Forall_forall in Hsep. apply Hsep. now apply list_elem_of_In. }
  apply ltr_text_occurrences; try assumption.
  - intros Hin. now destruct (Hout 32 Hin).
  - apply Forall_forall. intros y Hy Hin. destruct (Hout y Hin) as (_ & H2 & _).
    apply H2. now apply list_elem_of_In.
  - intros c f. apply Forall_forall. intros y Hy Hin.
    destruct (Hout y Hin) as (_ & _ & H3). apply (H3 c f). now apply list_elem_of_In.
  - apply Forall_forall. intros seg Hseg.
    rewrite Forall_forall in Hcontent, Hstored.
    destruct (Hstored seg Hseg) as (Hl & _).
    rewrite Hl, take_ge by lia. now apply Hcontent.
Qed.

End PowerlineClaims.

(** * Further properties of the expansion engine *)

Section ExpansionTokens.
Import C Expansion.
Context {T : Type}.
Variable E : env.
Variable lle_template_evaluate : list Z -> T -> nat -> lle_result_t * list Z.
Variable ctx : lle_prompt_expand_ctx_t T.

Lemma scans_to_total (p : list Z) : exists d, scans_to E ctx p d.
Proof. exact (scan_loop_put E ctx p). Qed.

Lemma scans_to_token (R : list Z -> Prop) (t d rest d' : list Z) :
  token E ctx R t d -> R rest -> scans_to E ctx rest d' ->
  scans_to E ctx (t ++ rest) (d ++ d').
Proof.
  intros (Hp & Hstep) HR Hrest fuel b Hf Hb.
  destruct t as [|c t]; [now contradict Hp|]. cbn [peek hd] in Hp.
  destruct fuel as [|fuel]; [simpl in Hf; lia|].
  cbn [scan_loop]. change (peek ((c :: t) ++ rest)) with c.
  destruct (Z.eqb_spec c 0); [contradiction|].
  rewrite (Hstep rest b HR Hb). rewrite put_app.
  apply Hrest; [|now apply put_spec].
  rewrite length_app in Hf. simpl in Hf. lia.
Qed.

(** Without a template context the string in the output is the scanned
    text cut to the buffer. *)
Lemma expansion_scan (fmt d out : list Z) (n : nat) :
  template_ctx ctx = None -> (0 < n <= length out)%nat -> scans_to E ctx fmt d ->
  expansion E lle_template_evaluate ctx fmt n out = Some (take (n - 1) (c_str d)).
Proof.
  intros Ht Hn Hd. unfold expansion.
  rewrite (lle_prompt_expand_pass2 E lle_template_evaluate fmt out n ctx d Ht Hn).
  - destruct (output_facts d out n Hn) as (_ & Hc & _). cbv zeta in Hc. now rewrite Hc.
  - intros out0 n0 H0. unfold expand_prompt_escapes.
    rewrite Hd; [reflexivity | lia | now apply buf_init_ok].
Qed.

(** A token in front of a format adds its text in front of the expansion,
    when the buffer has room for both. *)
Lemma expansion_token (R : list Z -> Prop) (t d F s out : list Z) (n : nat) :
  token E ctx R t d -> R F -> Forall (fun c => c <> 0) d ->
  template_ctx ctx = None -> (0 < n <= length out)%nat ->
  expansion E lle_template_evaluate ctx F n out = Some s ->
  (length d + length s < n)%nat ->
  expansion E lle_template_evaluate ctx (t ++ F) n out = Some (d ++ s).
Proof.
  intros Htok HR Hz Ht Hn Hs Hfit.
  destruct (scans_to_total F) as (dF & HdF).
  rewrite (expansion_scan F dF out n Ht Hn HdF) in Hs. injection Hs as <-.
  rewrite (expansion_scan _ _ out n Ht Hn (scans_to_token _ _ _ _ _ Htok HR HdF)).
  f_equal. rewrite c_str_app by assumption.
  rewrite length_take in Hfit.
  destruct d as [|c d]; [reflexivity|]. simpl length in Hfit.
  rewrite (take_ge (c_str dF)) by lia.
  apply take_ge. rewrite length_app. simpl. lia.
Qed.

Lemma token_plain (c : Z) :
  c <> 0 -> plain_byte c -> token E ctx (fun _ => True) [c] [c].
Proof.
  intros Hc (H1 & H2 & H3). split; [exact Hc|]. intros rest b _ _.
  unfold scan_step. cbn [app peek hd tl].
  destruct (Z.eqb_spec c 27); [contradiction|].
  destruct (Z.eqb_spec c 92); [contradiction|].
  destruct (Z.eqb_spec c 37); [contradiction|]. reflexivity.
Qed.

Lemma scans_to_plain (s rest d : list Z) :
  Forall (fun c => c <> 0) s -> Forall plain_byte s ->
  scans_to E ctx rest d -> scans_to E ctx (s ++ rest) (s ++ d).
Proof.
  intros Hz Hp Hd. induction Hz as [|c s Hc Hz IH]; [exact Hd|].
  inversion Hp; subst.
  change ((c :: s) ++ rest) with ([c] ++ (s ++ rest)).
  change ((c :: s) ++ d) with ([c] ++ (s ++ d)).
  eapply scans_to_token; [now apply token_plain | exact I | now apply IH].
Qed.

Lemma token_fixed (t d : list Z) :
  In (t, d) fixed_escapes -> token E ctx (fun _ => True) t d.
Proof.
  intros Hin. unfold fixed_escapes in Hin. cbn [In] in Hin.
  repeat (destruct Hin as [Hin|Hin];
          [inversion Hin; subst; split; [discriminate|]; intros rest b _ Hb;
           first [reflexivity | apply (f_equal (pair rest)); now apply buf_append_str_put]|]).
  contradiction.
Qed.

End ExpansionTokens.

Section ExpansionExtras.
Import C Expansion.
Context {T : Type}.
Variable E : env.
Variable lle_template_evaluate : list Z -> T -> nat -> lle_result_t * list Z.
Variable ctx : lle_prompt_expand_ctx_t T.

Lemma buf_append_char_frame (b : expand_buf_t) (c : Z) :
  drop (size b) (buf (buf_append_char b c)) = drop (size b) (buf b)
  /\ size (buf_append_char b c) = size b.
Proof.
  unfold buf_append_char.
  destruct (Nat.ltb_spec (pos b + 1) (size b)); [|now split].
  cbn [buf size]. split; [|reflexivity].
  rewrite !drop_insert_lt by lia. reflexivity.
Qed.

Lemma put_frame (d : list Z) (b : expand_buf_t) :
  drop (size b) (buf (put d b)) = drop (size b) (buf b).
Proof.
  revert b. induction d as [|c d IH]; intros b; [reflexivity|].
  destruct (buf_append_char_frame b c) as (Hd & Hs).
  change (put (c :: d) b) with (put d (buf_append_char b c)).
  rewrite <- Hs at 1. rewrite IH, Hs. exact Hd.
Qed.

Lemma buf_init_frame (out : list Z) (n : nat) :
  (0 < n)%nat -> drop n (buf (buf_init out n)) = drop n out.
Proof.
  intros Hn. unfold buf_init. cbn [buf].
  destruct (Nat.ltb_spec 0 n); [|lia]. now rewrite drop_insert_lt by lia.
Qed.

Lemma expand_prompt_escapes_frame (c : lle_prompt_expand_ctx_t T) (input out : list Z)
    (n : nat) :
  (0 < n <= length out)%nat ->
  exists out',
    expand_prompt_escapes E c input out n = Some (LLE_SUCCESS, out')
    /\ length out' = length out /\ drop n out' = drop n out.
Proof.
  intros Hn. destruct (expand_prompt_escapes_put E c input) as (d & Hd).
  rewrite (Hd out n Hn). eexists. split; [reflexivity|].
  destruct (output_facts d out n Hn) as (Hl & _). split; [exact Hl|].
  destruct (buf_init_ok out n Hn) as (_ & _ & Hs & _).
  rewrite <- Hs at 1. rewrite put_frame, Hs. apply buf_init_frame. lia.
Qed.

(** X1. [lle_prompt_expand] stays inside the [output_size] bytes it is
    given: called with non-NULL arguments and a size that is not zero it
    returns, the output array keeps its length, and every byte at index
    [output_size] or beyond is as it was, whatever the format, the context
    and the template engine do. *)
Theorem expand_stays_in_bounds (fmt out : list Z) (n : nat)
    (c : lle_prompt_expand_ctx_t T) :
  (0 < n <= length out)%nat ->
  exists r out',
    lle_prompt_expand E lle_template_evaluate (Some fmt) (Some out) n (Some c)
    = Some (r, Some out')
    /\ length out' = length out
    /\ drop n out' = drop n out.
Proof.
  intros Hn. unfold lle_prompt_expand.
  destruct (Nat.eqb_spec n 0); [lia|].
  assert (Hn' : (0 < n <= length (<[0%nat := 0%Z]> out))%nat)
    by (rewrite length_insert; lia).
  assert (Hz : drop n (<[0%nat := 0%Z]> out) = drop n out)
    by (apply drop_insert_lt; lia).
  destruct (template_ctx c) as [tctx|].
  - destruct (lle_template_evaluate fmt tctx EXPAND_BUF_SIZE) as [r inter].
    destruct (expand_prompt_escapes_frame c inter _ n Hn') as (o & Ho & Hl & Hd).
    rewrite length_insert in Hl. rewrite Hz in Hd.
    destruct r;
      first [ rewrite Ho; eexists _, _; split; [reflexivity|]; now split
            | eexists _, _; split; [reflexivity|]; rewrite length_insert; now split ].
  - destruct (expand_prompt_escapes_frame c fmt _ n Hn') as (o & Ho & Hl & Hd).
    rewrite length_insert in Hl. rewrite Hz in Hd. rewrite Ho.
    eexists _, _. split; [reflexivity|]. now split.
Qed.

Lemma fixed_escapes_nonzero (t d : list Z) :
  In (t, d) fixed_escapes -> Forall (fun c => c <> 0) d.
Proof.
  intros Hin. unfold fixed_escapes in Hin. cbn [In] in Hin.
  repeat (destruct Hin as [Hin|Hin];
          [inversion Hin; subst; vm_compute; repeat constructor; discriminate|]).
  contradiction.
Qed.

(** X2. The escapes that stand for a fixed text: in front of any format,
    [\\] gives a backslash, [\n] a line feed, [\r] a carriage return, [\e]
    ESC, [\a] BEL, [%%] a percent sign, [\[] and [\]] nothing, and the zsh
    attribute escapes [%B %b %U %u %S %s %f %k] the SGR sequences 1, 22, 4,
    24, 7, 27, 39 and 49, followed by the expansion of the format, when the
    buffer has room for both. *)
Theorem fixed_escapes_expand (t d F s out : list Z) (n : nat) :
  In (t, d) fixed_escapes ->
  template_ctx ctx = None -> (0 < n <= length out)%nat ->
  expansion E lle_template_evaluate ctx F n out = Some s ->
  (length d + length s < n)%nat ->
  expansion E lle_template_evaluate ctx (t ++ F) n out = Some (d ++ s).
Proof.
  intros Hin Ht Hn Hs Hfit.
  apply (expansion_token E lle_template_evaluate ctx (fun _ => True) t d F s out n);
    try assumption; [now apply token_fixed | exact I | now apply (fixed_escapes_nonzero t)].
Qed.

End ExpansionExtras.

Section ExpansionEscapes.
Import C Expansion.
Context {T : Type}.
Variable E : env.
Variable lle_template_evaluate : list Z -> T -> nat -> lle_result_t * list Z.
Variable ctx : lle_prompt_expand_ctx_t T.

Lemma expansion_length (F s out : list Z) (n : nat) :
  template_ctx ctx = None -> (0 < n <= length out)%nat ->
  expansion E lle_template_evaluate ctx F n out = Some s -> (length s < n)%nat.
Proof.
  intros Ht Hn Hs. destruct (scans_to_total E ctx F) as (d & Hd).
  rewrite (expansion_scan E lle_template_evaluate ctx F d out n Ht Hn Hd) in Hs.
  injection Hs as <-. rewrite length_take. lia.
Qed.

Ltac not_a_case c Hnot :=
  repeat match goal with
         | |- context [c =? ?k] =>
             destruct (Z.eqb_spec c k) as [->|?];
             [exfalso; apply Hnot; vm_compute; repeat first [left; reflexivity | right]|]
         end.

Lemma token_unknown_bash (c : Z) :
  c <> 0 -> ~ In c bash_cases -> token E ctx (fun _ => True) [92; c] [92; c].
Proof.
  intros Hc Hnot. split; [discriminate|]. intros rest b _ _.
  unfold scan_step. cbn [app peek hd tl].
  change (92 =? 27) with false. change (92 =? 92) with true. cbv iota.
  destruct (Z.eqb_spec c 0); [contradiction|]. cbn [negb andb].
  unfold bash_escape. not_a_case c Hnot. reflexivity.
Qed.

Lemma token_unknown_zsh (c : Z) :
  c <> 0 -> ~ In c zsh_cases -> token E ctx (fun _ => True) [37; c] [37; c].
Proof.
  intros Hc Hnot. split; [discriminate|]. intros rest b _ _.
  unfold scan_step. cbn [app peek hd tl].
  change (37 =? 27) with false. change (37 =? 92) with false.
  change (37 =? 37) with true. cbv iota.
  destruct (Z.eqb_spec c 0); [contradiction|]. cbn [negb andb].
  unfold zsh_escape. not_a_case c Hnot. reflexivity.
Qed.

(** X3. An escape character followed by a character the [switch] has no
    case for is passed through: in front of any format, a backslash and
    such a character, or a percent sign and such a character, expand to
    the same two bytes followed by the expansion of the format. *)
Theorem unknown_escapes_pass_through (c : Z) (F s out : list Z) (n : nat) :
  c <> 0 ->
  template_ctx ctx = None -> (0 < n <= length out)%nat ->
  expansion E lle_template_evaluate ctx F n out = Some s ->
  (2 + length s < n)%nat ->
  (~ In c bash_cases ->
   expansion E lle_template_evaluate ctx ([92; c] ++ F) n out = Some ([92; c] ++ s))
  /\ (~ In c zsh_cases ->
      expansion E lle_template_evaluate ctx ([37; c] ++ F) n out = Some ([37; c] ++ s)).
Proof.
  intros Hc Ht Hn Hs Hfit. split; intros Hnot.
  - apply (expansion_token E lle_template_evaluate ctx (fun _ => True) _ _ F s out n);
      try assumption; [now apply token_unknown_bash | exact I |].
    repeat constructor; [discriminate | assumption].
  - apply (expansion_token E lle_template_evaluate ctx (fun _ => True) _ _ F s out n);
      try assumption; [now apply token_unknown_zsh | exact I |].
    repeat constructor; [discriminate | assumption].
Qed.

Lemma scans_to_end (p : list Z) : peek p = 0 -> scans_to E ctx p [].
Proof.
  intros H fuel b _ _. destruct fuel; cbn [scan_loop]; rewrite H; reflexivity.
Qed.

Lemma token_last (k : Z) :
  k = 92 \/ k = 37 -> token E ctx (fun rest => peek rest = 0) [k] [k].
Proof.
  intros Hk. split; [cbn [peek hd]; lia|]. intros rest b Hr _.
  unfold scan_step. cbn [app peek hd tl]. fold (peek rest). rewrite Hr.
  destruct Hk as [-> | ->]; reflexivity.
Qed.

(** X4. A backslash or a percent sign that is the last character of the
    format starts no escape: after a text without escapes it is copied as
    it is. *)
Theorem trailing_escape_char_literal (k : Z) (S out : list Z) (n : nat) :
  k = 92 \/ k = 37 ->
  is_cstring S -> Forall plain_byte S ->
  template_ctx ctx = None -> (length S + 1 < n <= length out)%nat ->
  expansion E lle_template_evaluate ctx (S ++ [k]) n out = Some (S ++ [k]).
Proof.
  intros Hk HS Hp Ht Hn.
  assert (Hz : Forall (fun c => c <> 0) S) by now apply is_cstring_nonzero.
  assert (Hsc : scans_to E ctx (S ++ [k] ++ []) (S ++ [k] ++ [])).
  { apply scans_to_plain; try assumption.
    eapply scans_to_token; [now apply token_last | reflexivity | now apply scans_to_end]. }
  cbn [app] in Hsc.
  rewrite (expansion_scan E lle_template_evaluate ctx _ _ out n Ht ltac:(lia) Hsc).
  f_equal. rewrite c_str_id.
  - apply take_ge. rewrite length_app. simpl. lia.
  - apply Forall_app. split; [assumption|]. repeat constructor. lia.
Qed.

Lemma char_val_ascii (c : Z) : c < 128 -> char_val E c = c.
Proof.
  intros H. unfold char_val. destruct (Z.leb_spec 128 c); [lia|].
  now rewrite andb_false_r.
Qed.

Lemma char_val_byte (c : Z) : 0 <= c < 256 -> char_val E c = c \/ char_val E c < 0.
Proof.
  intros H. unfold char_val. destruct (char_signed E && (128 <=? c)) eqn:Hs; [|now left].
  right. lia.
Qed.

Lemma uint_wrap_small (z : Z) : 0 <= z < 2 ^ 32 -> uint_wrap z = z.
Proof. intros H. unfold uint_wrap. now apply Z.mod_small. Qed.

Lemma octal_digits_three (d1 d2 d3 : Z) (rest : list Z) :
  is_octal d1 -> is_octal d2 -> is_octal d3 ->
  octal_digits E 3 (d1 :: d2 :: d3 :: rest) 0
  = (rest, 64 * (d1 - 48) + 8 * (d2 - 48) + (d3 - 48)).
Proof.
  unfold is_octal. intros H1 H2 H3. cbn [octal_digits peek hd tl].
  rewrite !char_val_ascii by lia.
  destruct (Z.leb_spec 48 d1); [|lia]. destruct (Z.leb_spec d1 55); [|lia].
  destruct (Z.leb_spec 48 d2); [|lia]. destruct (Z.leb_spec d2 55); [|lia].
  destruct (Z.leb_spec 48 d3); [|lia]. destruct (Z.leb_spec d3 55); [|lia].
  cbn [andb]. f_equal.
  rewrite (uint_wrap_small (d1 - 48)) by lia.
  rewrite (uint_wrap_small (0 * 8 + (d1 - 48))) by lia.
  rewrite (uint_wrap_small (d2 - 48)) by lia.
  rewrite (uint_wrap_small ((0 * 8 + (d1 - 48)) * 8 + (d2 - 48))) by lia.
  rewrite (uint_wrap_small (d3 - 48)) by lia.
  rewrite uint_wrap_small by lia. lia.
Qed.

Lemma hex_digits_one (c v : Z) (p : list Z) (acc : Z) (k : nat) :
  hex_digit c = Some v -> 0 <= acc < 256 ->
  hex_digits E (S k) (c :: p) acc = hex_digits E k p (acc * 16 + v).
Proof.
  intros Hc Hacc. destruct (hex_digit_range c v Hc) as (Hr & Hv).
  cbn [hex_digits peek hd tl]. rewrite char_val_ascii by lia.
  unfold hex_digit in Hc.
  destruct ((48 <=? c) && (c <=? 57)).
  { injection Hc as <-. rewrite (uint_wrap_small (c - 48)) by lia.
    now rewrite uint_wrap_small by lia. }
  destruct ((97 <=? c) && (c <=? 102)).
  { injection Hc as <-. rewrite (uint_wrap_small (c - 97 + 10)) by lia.
    now rewrite uint_wrap_small by lia. }
  destruct ((65 <=? c) && (c <=? 70)); [|discriminate].
  injection Hc as <-. rewrite (uint_wrap_small (c - 65 + 10)) by lia.
  now rewrite uint_wrap_small by lia.
Qed.

Lemma token_octal (d1 d2 d3 : Z) :
  is_octal d1 -> is_octal d2 -> is_octal d3 ->
  let v := 64 * (d1 - 48) + 8 * (d2 - 48) + (d3 - 48) in
  token E ctx (fun _ => True) (lit "\0" ++ [d1; d2; d3]) (if v <=? 255 then [v] else []).
Proof.
  intros H1 H2 H3 v. split; [discriminate|]. intros rest b _ _.
  unfold scan_step. change ((lit "\0" ++ [d1; d2; d3]) ++ rest)
    with (92 :: 48 :: d1 :: d2 :: d3 :: rest).
  cbn [peek hd tl]. change (92 =? 27) with false. change (92 =? 92) with true.
  change (48 =? 0) with false. cbv iota. cbn [negb andb].
  unfold bash_escape.
  repeat match goal with
         | |- context [48 =? ?k] =>
             let r := eval vm_compute in (48 =? k) in change (48 =? k) with r; cbv iota
         end.
  rewrite octal_digits_three by assumption. fold v.
  destruct (v <=? 255); reflexivity.
Qed.

Lemma token_hex (h l hv lv : Z) :
  hex_digit h = Some hv -> hex_digit l = Some lv ->
  token E ctx (fun _ => True) (lit "\x" ++ [h; l]) [16 * hv + lv].
Proof.
  intros Hh Hl. split; [discriminate|]. intros rest b _ _.
  destruct (hex_digit_range h hv Hh) as (_ & Rh).
  destruct (hex_digit_range l lv Hl) as (_ & Rl).
  unfold scan_step. change ((lit "\x" ++ [h; l]) ++ rest)
    with (92 :: 120 :: h :: l :: rest).
  cbn [peek hd tl]. change (92 =? 27) with false. change (92 =? 92) with true.
  change (120 =? 0) with false. cbv iota. cbn [negb andb].
  unfold bash_escape.
  repeat match goal with
         | |- context [120 =? ?k] =>
             let r := eval vm_compute in (120 =? k) in change (120 =? k) with r; cbv iota
         end.
  rewrite (hex_digits_one h hv) by (try assumption; lia).
  rewrite (hex_digits_one l lv) by (try assumption; lia).
  cbn [hex_digits]. replace ((0 * 16 + hv) * 16 + lv) with (16 * hv + lv) by lia.
  destruct (Z.leb_spec (16 * hv + lv) 255); [reflexivity | lia].
Qed.

(** X5. The numeric escapes: in front of any format, [\0] with three octal
    digits gives the byte they denote when that is at most 255 and nothing
    when it is more, and [\x] with two hexadecimal digits gives the byte
    they denote (a byte that is not NUL), followed by the expansion of the
    format. *)
Theorem numeric_escapes_value (F s out : list Z) (n : nat) :
  template_ctx ctx = None -> (0 < n <= length out)%nat ->
  expansion E lle_template_evaluate ctx F n out = Some s ->
  (forall d1 d2 d3,
     is_octal d1 -> is_octal d2 -> is_octal d3 ->
     let v := 64 * (d1 - 48) + 8 * (d2 - 48) + (d3 - 48) in
     (0 < v <= 255 -> (1 + length s < n)%nat ->
      expansion E lle_template_evaluate ctx (lit "\0" ++ [d1; d2; d3] ++ F) n out
      = Some (v :: s))
     /\ (255 < v ->
         expansion E lle_template_evaluate ctx (lit "\0" ++ [d1; d2; d3] ++ F) n out
         = Some s))
  /\ (forall h l hv lv,
        hex_digit h = Some hv -> hex_digit l = Some lv ->
        0 < 16 * hv + lv -> (1 + length s < n)%nat ->
        expansion E lle_template_evaluate ctx (lit "\x" ++ [h; l] ++ F) n out
        = Some ((16 * hv + lv) :: s)).
Proof.
  intros Ht Hn Hs. pose proof (expansion_length F s out n Ht Hn Hs) as Hlen. split.
  - intros d1 d2 d3 H1 H2 H3 v.
    pose proof (token_octal d1 d2 d3 H1 H2 H3) as Htok. fold v in Htok. cbv zeta in Htok.
    split.
    + intros Hv Hfit. destruct (Z.leb_spec v 255); [|lia].
      rewrite app_assoc.
      apply (expansion_token E lle_template_evaluate ctx (fun _ => True) _ [v] F s out n);
        try assumption; [exact I | repeat constructor; lia].
    + intros Hv. destruct (Z.leb_spec v 255); [lia|].
      rewrite app_assoc.
      apply (expansion_token E lle_template_evaluate ctx (fun _ => True) _ [] F s out n);
        try assumption; [exact I | constructor].
  - intros h l hv lv Hh Hl Hv Hfit. rewrite app_assoc.
    apply (expansion_token E lle_template_evaluate ctx (fun _ => True) _ [_] F s out n);
      try assumption; [now apply token_hex | exact I | repeat constructor; lia].
Qed.

Lemma token_nul_octal :
  token E ctx (fun rest => ~ is_octal (peek rest) /\ 0 <= peek rest < 256) (lit "\0") [0].
Proof.
  split; [discriminate|]. intros rest b (Hno & Hb) _.
  unfold scan_step. change (lit "\0" ++ rest) with (92 :: 48 :: rest).
  cbn [peek hd tl]. change (92 =? 27) with false. change (92 =? 92) with true.
  change (48 =? 0) with false. cbv iota. cbn [negb andb].
  unfold bash_escape.
  repeat match goal with
         | |- context [48 =? ?k] =>
             let r := eval vm_compute in (48 =? k) in change (48 =? k) with r; cbv iota
         end.
  cbn [octal_digits]. fold (peek rest).
  assert (Hd : (48 <=? char_val E (peek rest)) && (char_val E (peek rest) <=? 55) = false).
  { unfold is_octal in Hno. destruct (char_val_byte (peek rest) Hb) as [-> | Hneg].
    - destruct (Z.leb_spec 48 (peek rest)), (Z.leb_spec (peek rest) 55);
        try reflexivity. lia.
    - destruct (Z.leb_spec 48 (char_val E (peek rest))); [lia | reflexivity]. }
  rewrite Hd. reflexivity.
Qed.

Lemma token_nul_hex :
  token E ctx (fun rest => ~ is_hex (peek rest) /\ 0 <= peek rest < 256) (lit "\x") [0].
Proof.
  split; [discriminate|]. intros rest b (Hno & Hb) _.
  unfold scan_step. change (lit "\x" ++ rest) with (92 :: 120 :: rest).
  cbn [peek hd tl]. change (92 =? 27) with false. change (92 =? 92) with true.
  change (120 =? 0) with false. cbv iota. cbn [negb andb].
  unfold bash_escape.
  repeat match goal with
         | |- context [120 =? ?k] =>
             let r := eval vm_compute in (120 =? k) in change (120 =? k) with r; cbv iota
         end.
  cbn [hex_digits]. fold (peek rest).
  unfold is_hex in Hno.
  destruct (char_val_byte (peek rest) Hb) as [-> | Hneg].
  - destruct (Z.leb_spec 48 (peek rest)), (Z.leb_spec (peek rest) 57),
      (Z.leb_spec 97 (peek rest)), (Z.leb_spec (peek rest) 102),
      (Z.leb_spec 65 (peek rest)), (Z.leb_spec (peek rest) 70);
      cbn [andb]; try reflexivity; lia.
  - destruct (Z.leb_spec 48 (char_val E (peek rest))); [lia|].
    destruct (Z.leb_spec 97 (char_val E (peek rest))); [lia|].
    destruct (Z.leb_spec 65 (char_val E (peek rest))); [lia|]. reflexivity.
Qed.

(** X6. An escape [\0] that no octal digit follows, like an escape [\x]
    that no hexadecimal digit follows, stores a NUL in the output: the
    string the caller reads ends there. After a text without escapes the
    output is that text, and whatever follows the escape is not seen. *)
Theorem nul_escape_cuts_output (S F out : list Z) (n : nat) :
  is_cstring S -> Forall plain_byte S ->
  template_ctx ctx = None -> (0 < n <= length out)%nat ->
  0 <= peek F < 256 ->
  (~ is_octal (peek F) ->
   expansion E lle_template_evaluate ctx (S ++ lit "\0" ++ F) n out
   = Some (take (n - 1) S))
  /\ (~ is_hex (peek F) ->
      expansion E lle_template_evaluate ctx (S ++ lit "\x" ++ F) n out
      = Some (take (n - 1) S)).
Proof.
  intros HS Hp Ht Hn Hb.
  assert (Hz : Forall (fun c => c <> 0) S) by now apply is_cstring_nonzero.
  destruct (scans_to_total E ctx F) as (dF & HdF).
  assert (Hcut : forall t R, token E ctx R t [0] -> R F ->
            expansion E lle_template_evaluate ctx (S ++ t ++ F) n out
            = Some (take (n - 1) S)).
  { intros t R Htok HR.
    assert (Hsc : scans_to E ctx (S ++ t ++ F) (S ++ [0] ++ dF)).
    { apply scans_to_plain; try assumption. now apply (scans_to_token E ctx R). }
    rewrite (expansion_scan E lle_template_evaluate ctx _ _ out n Ht Hn Hsc).
    cbn [app]. rewrite c_str_app_zero. now rewrite c_str_id. }
  split; intros Hno.
  - apply (Hcut _ _ token_nul_octal). now split.
  - apply (Hcut _ _ token_nul_hex). now split.
Qed.

(** X7. The zsh escapes [%n %m %M %~ %c %. %T %* %j] do what the bash
    escapes [\u \h \H \w \W \W \A \t \j] do: a format that starts with one
    of them and the format that starts with its counterpart give the same
    result and the same output array. *)
Theorem zsh_synonyms_agree (z b F out : list Z) (n : nat) :
  In (z, b) synonyms ->
  template_ctx ctx = None ->
  lle_prompt_expand E lle_template_evaluate (Some (z ++ F)) (Some out) n (Some ctx)
  = lle_prompt_expand E lle_template_evaluate (Some (b ++ F)) (Some out) n (Some ctx).
Proof.
  intros Hin Ht. unfold lle_prompt_expand. rewrite Ht.
  destruct (n =? 0)%nat; [reflexivity|].
  unfold synonyms in Hin. cbn [In] in Hin.
  repeat (destruct Hin as [Hin|Hin]; [inversion Hin; subst; reflexivity|]).
  contradiction.
Qed.

(** X8. The zsh escape [%#] looks at the real user id, as [\$] does: in
    front of any format it gives [#] when [getuid] answers 0 and [%]
    otherwise. *)
Theorem zsh_hash_real_uid (F s out : list Z) (n : nat) :
  template_ctx ctx = None -> (0 < n <= length out)%nat ->
  expansion E lle_template_evaluate ctx F n out = Some s ->
  (1 + length s < n)%nat ->
  expansion E lle_template_evaluate ctx (lit "%#" ++ F) n out
  = Some ((if getuid E =? 0 then 35 else 37) :: s).
Proof.
  intros Ht Hn Hs Hfit.
  apply (expansion_token E lle_template_evaluate ctx (fun _ => True) _ [_] F s out n);
    try assumption; [| exact I | repeat constructor; destruct (getuid E =? 0); discriminate].
  split; [discriminate|]. intros rest b _ _. reflexivity.
Qed.

End ExpansionEscapes.

Section ExpansionHelpers.
Import C Expansion.
Variable E : env.

Lemma cut_at_prefix (c : Z) (s : list Z) :
  Forall (fun x => x <> 0) s ->
  exists rest, s = cut_at c s ++ rest /\ (rest = [] \/ peek rest = c).
Proof.
  induction 1 as [|x s Hx _ (rest & IH & Hrest)]; [exists []; now split; [|left]|].
  cbn [cut_at]. destruct (Z.eqb_spec x 0); [contradiction|].
  destruct (Z.eqb_spec x c) as [->|Hc]; cbn [orb].
  - exists (c :: s). split; [reflexivity | now right].
  - exists rest. split; [cbn [app]; now rewrite <- IH | exact Hrest].
Qed.

Lemma cut_at_not_in (c : Z) (s : list Z) : ~ In c (cut_at c s).
Proof.
  induction s as [|x s IH]; [easy|]. cbn [cut_at].
  destruct (Z.eqb_spec x 0); [easy|]. destruct (Z.eqb_spec x c); [easy|].
  cbn [orb In]. intros [H|H]; [congruence | contradiction].
Qed.

Lemma cut_at_id (c : Z) (s : list Z) :
  Forall (fun x => x <> 0) s -> ~ In c s -> cut_at c s = s.
Proof.
  induction 1 as [|x s Hx _ IH]; intros Hc; [reflexivity|]. cbn [cut_at].
  destruct (Z.eqb_spec x 0); [contradiction|].
  destruct (Z.eqb_spec x c); [subst; contradict Hc; now left|].
  cbn [orb]. rewrite IH; [reflexivity|]. intros H. apply Hc. now right.
Qed.

(** X9. The short host name of [\h] and [%m] is the full host name of [\H]
    and [%M] up to its first dot: the full name is the short name followed
    by nothing or by a rest that starts with a dot, and the short name holds
    no dot; so it is the full name when that holds none. When [gethostname]
    fails both are empty, and neither is longer than the array less one. *)
Theorem hostname_short_is_prefix (size : nat) :
  (exists rest,
     get_hostname_full E size = get_hostname_short E size ++ rest
     /\ (rest = [] \/ peek rest = 46))
  /\ ~ In 46 (get_hostname_short E size)
  /\ (~ In 46 (get_hostname_full E size) ->
      get_hostname_short E size = get_hostname_full E size)
  /\ (gethostname E size = None ->
      get_hostname_short E size = [] /\ get_hostname_full E size = [])
  /\ (length (get_hostname_full E size) <= size - 1)%nat.
Proof.
  unfold get_hostname_short, get_hostname_full.
  destruct (gethostname E size) as [h|].
  - split; [apply cut_at_prefix, Forall_take, c_str_nonzero|].
    split; [apply cut_at_not_in|].
    split; [|split; [discriminate|]].
    + apply cut_at_id. apply Forall_take, c_str_nonzero.
    + rewrite length_take. lia.
  - split; [exists []; now split; [|left]|].
    split; [easy|]. split; [easy|]. split; [easy|].
    simpl. lia.
Qed.

Lemma get_cwd_full_nonzero (size : nat) :
  Forall (fun x => x <> 0) (get_cwd_full E size).
Proof.
  unfold get_cwd_full. destruct (getcwd E size); [apply c_str_nonzero | constructor].
Qed.

(** X10. [get_cwd_tilde], the text of [\w] and [%~], puts [~] for the home
    directory only at a path component boundary. With the home directory
    [home] of the real user a prefix of the working directory, the rest of
    the path follows [~] when it is empty or starts with a slash, and the
    path stays as it is otherwise; the path also stays as it is when the
    home directory is no prefix of it and when the user has no password
    entry or no home directory. *)
Theorem cwd_tilde_boundary (size : nat) :
  let cwd := get_cwd_full E PATH_MAX in
  (getpwuid E (getuid E) = None
   \/ (exists pw, getpwuid E (getuid E) = Some pw /\ pw_dir pw = None) ->
   get_cwd_tilde E size = snprintf size cwd)
  /\ (forall pw home,
        getpwuid E (getuid E) = Some pw -> pw_dir pw = Some home ->
        Forall (fun x => x <> 0) home ->
        (forall rest, cwd = home ++ rest ->
           (rest = [] \/ peek rest = 47 ->
            get_cwd_tilde E size = snprintf size (126 :: rest))
           /\ (rest <> [] -> peek rest <> 47 ->
               get_cwd_tilde E size = snprintf size cwd))
        /\ (take (length home) cwd <> home ->
            get_cwd_tilde E size = snprintf size cwd)).
Proof.
  intros cwd. unfold get_cwd_tilde. fold cwd. split.
  - intros [-> | (pw & -> & ->)]; reflexivity.
  - intros pw home -> -> Hz. unfold strlen. rewrite (c_str_id home Hz). split.
    + intros rest Hcwd. rewrite Hcwd.
      rewrite take_app_length. rewrite bool_decide_eq_true_2 by reflexivity.
      rewrite drop_app_length.
      replace (nth (length home) (home ++ rest) 0) with (peek rest)
        by (rewrite app_nth2, Nat.sub_diag by lia; now destruct rest).
      cbn [andb]. split.
      * intros [-> | ->]; [reflexivity|]. reflexivity.
      * intros Hne Hp.
        assert (Hnz : peek rest <> 0).
        { pose proof (get_cwd_full_nonzero PATH_MAX) as Hc. fold cwd in Hc.
          rewrite Hcwd in Hc. apply Forall_app in Hc as [_ Hc].
          destruct rest as [|x rest]; [contradiction|]. now inversion Hc. }
        destruct (Z.eqb_spec (peek rest) 47); [contradiction|].
        destruct (Z.eqb_spec (peek rest) 0); [contradiction|]. reflexivity.
    + intros Hno. now rewrite bool_decide_eq_false_2 by assumption.
Qed.

Lemma strrchr_spec (c : Z) (s : list Z) :
  c <> 0 ->
  match strrchr s c with
  | Some r => exists pre, c_str s = pre ++ c :: c_str (tl r) /\ ~ In c (c_str (tl r))
  | None => ~ In c (c_str s)
  end.
Proof.
  intros Hc. induction s as [|x s IH]; [easy|]. cbn [strrchr c_str].
  destruct (Z.eqb_spec x 0); [easy|].
  destruct (strrchr s c) as [r|].
  - destruct IH as (pre & Heq & Hno). exists (x :: pre). cbn [app]. now rewrite Heq.
  - destruct (Z.eqb_spec x c) as [->|Hx].
    + exists []. now split.
    + cbn [In]. intros [H|H]; [congruence | contradiction].
Qed.

(** X11. [get_cwd_basename], the text of [\W], [%c] and [%.], is the last
    component of the path that [get_cwd_tilde] gives: it holds no slash
    unless that path is the root directory, for which it is a single
    slash, and when the array has room it is the end of that path, with
    nothing before it or with what is before it ending in a slash. *)
Theorem cwd_basename_no_slash (size : nat) :
  let tilde := c_str (get_cwd_tilde E PATH_MAX) in
  (tilde = lit "/" -> get_cwd_basename E size = snprintf size (lit "/"))
  /\ (tilde <> lit "/" -> ~ In 47 (get_cwd_basename E size))
  /\ ((length tilde < size)%nat ->
      exists pre,
        tilde = pre ++ get_cwd_basename E size
        /\ (pre = [] \/ last pre = Some 47)).
Proof.
  intros tilde. unfold get_cwd_basename, streq.
  change (c_str (lit "~")) with (lit "~"). change (c_str (lit "/")) with (lit "/").
  fold tilde.
  destruct (bool_decide_reflect (tilde = lit "~")) as [Ht|Ht].
  { rewrite Ht. split; [discriminate|]. split.
    - intros _. unfold snprintf. change (c_str (lit "~")) with [126].
      intros Hin. apply list_elem_of_In, elem_of_take in Hin as (i & Hi & _).
      destruct i as [|[|i]]; simpl in Hi; congruence.
    - intros Hl. exists []. split; [|now left].
      unfold snprintf. simpl in Hl. symmetry. simpl.
      apply take_ge. simpl. lia. }
  destruct (bool_decide_reflect (tilde = lit "/")) as [Hr|Hr].
  { split; [reflexivity|]. split; [contradiction|].
    intros Hl. exists []. split; [|now left].
    rewrite Hr in *. unfold snprintf. symmetry. simpl.
    apply take_ge. simpl in *. lia. }
  split; [contradiction|].
  pose proof (strrchr_spec 47 (get_cwd_tilde E PATH_MAX) ltac:(lia)) as Hs.
  destruct (strrchr (get_cwd_tilde E PATH_MAX) 47) as [last|].
  - destruct Hs as (pre & Heq & Hno). fold tilde in Heq. split.
    + intros _ Hin. apply Hno. unfold snprintf in Hin.
      apply list_elem_of_In in Hin. apply list_elem_of_In.
      now apply elem_of_take in Hin as (i & Hi & _); apply (list_elem_of_lookup_2 _ i).
    + intros Hl. exists (pre ++ [47]). split; [|right; apply last_snoc].
      rewrite <- app_assoc. cbn [app].
      unfold snprintf. rewrite take_ge; [exact Heq|].
      rewrite Heq, length_app in Hl. simpl in Hl. lia.
  - fold tilde in Hs. split.
    + intros _ Hin. apply Hs. unfold snprintf in Hin. fold tilde in Hin.
      apply list_elem_of_In in Hin. apply list_elem_of_In.
      now apply elem_of_take in Hin as (i & Hi & _); apply (list_elem_of_lookup_2 _ i).
    + intros Hl. exists []. split; [|now left].
      unfold snprintf. fold tilde. symmetry. apply take_ge. lia.
Qed.

(** X12. At depth 2 a specification [#RRGGBB] always selects a colour of
    the 6x6x6 cube: the index of the sequence [ESC[38;5;IDXm] lies in
    16..231, never among the 16 system colours or on the grey ramp. *)
Theorem hex_color_stays_in_cube (b : expand_buf_t) (fg : bool)
    (h1 l1 h2 l2 h3 l3 a1 a2 a3 a4 a5 a6 : Z) :
  hex_digit h1 = Some a1 -> hex_digit l1 = Some a2 ->
  hex_digit h2 = Some a3 -> hex_digit l2 = Some a4 ->
  hex_digit h3 = Some a5 -> hex_digit l3 = Some a6 ->
  exists idx,
    16 <= idx <= 231
    /\ emit_color b (35 :: [h1; l1; h2; l2; h3; l3]) 2 fg
       = buf_append_str b (Some (esc_256 fg idx)).
Proof.
  intros H1 H2 H3 H4 H5 H6.
  pose proof (hex_spec_parse _ _ _ _ _ _ _ _ _ _ _ _ H1 H2 H3 H4 H5 H6) as Hp.
  cbv zeta in Hp.
  assert (Hr : 0 <= 16 * a1 + a2 <= 255)
    by (destruct (hex_digit_range _ _ H1), (hex_digit_range _ _ H2); lia).
  assert (Hg : 0 <= 16 * a3 + a4 <= 255)
    by (destruct (hex_digit_range _ _ H3), (hex_digit_range _ _ H4); lia).
  assert (Hb : 0 <= 16 * a5 + a6 <= 255)
    by (destruct (hex_digit_range _ _ H5), (hex_digit_range _ _ H6); lia).
  destruct (cube_index_byte _ Hr) as (Er & Rr).
  destruct (cube_index_byte _ Hg) as (Eg & Rg).
  destruct (cube_index_byte _ Hb) as (Eb & Rb).
  exists (16 + 36 * cube (16 * a1 + a2) + 6 * cube (16 * a3 + a4) + cube (16 * a5 + a6)).
  split; [lia|]. unfold emit_color. rewrite Hp.
  cbn [Z.eqb Z.leb Z.compare Pos.compare Pos.compare_cont]. rewrite Er, Eg, Eb.
  assert (Hw : forall z, 16 <= z <= 231 -> int_wrap z = z).
  { intros z Hz. unfold int_wrap. rewrite Z.mod_small by lia. lia. }
  rewrite Hw by lia. now rewrite snprintf_esc_256 by lia.
Qed.

End ExpansionHelpers.

(** * Further properties of the timed subprocess runner *)

Section RunnerExtras.
Import C GitCommand.

Ltac calls_step' :=
  first
    [ apply calls_ret
    | apply calls_get_errno
    | apply calls_out_of_turns
    | apply calls_sys; solve [exact I | simpl; auto]
    | apply calls_bind; [|intros ?]
    | case_match ].

Lemma drain_count_quiet (turns : nat) (fd total : Z) :
  calls quiet (drain_count turns fd total).
Proof.
  revert total. induction turns as [|turns IH]; intros total; simpl.
  - apply calls_out_of_turns.
  - repeat calls_step'; apply IH.
Qed.

Lemma drain_full_quiet (turns : nat) (fd : Z) : calls quiet (drain_full turns fd).
Proof.
  induction turns as [|turns IH]; simpl.
  - apply calls_out_of_turns.
  - repeat calls_step'; apply IH.
Qed.

Lemma read_loop_quiet (turns : nat) (fd : Z) (buf_size : nat) (buf : list Z) :
  calls quiet (read_loop turns fd buf_size buf).
Proof.
  revert buf. induction turns as [|turns IH]; intros buf; simpl.
  - apply calls_out_of_turns.
  - repeat calls_step'; try apply IH; apply drain_full_quiet.
Qed.

Lemma read_all_available_quiet (turns : nat) (fd : Z) (buf : option (list Z))
    (buf_size : nat) :
  calls quiet (read_all_available turns fd buf buf_size).
Proof.
  unfold read_all_available.
  repeat calls_step'; first [apply drain_count_quiet | apply read_loop_quiet].
Qed.

Lemma wait_child_quiet (turns : nat) (pid : Z) : calls quiet (wait_child turns pid).
Proof.
  induction turns as [|turns IH]; simpl.
  - apply calls_out_of_turns.
  - repeat calls_step'; apply IH.
Qed.

Lemma kill_child_quiet (pid : Z) : calls quiet (kill_child pid).
Proof. unfold kill_child. repeat calls_step'. Qed.

Lemma quiet_not_close (c : syscall) : quiet c -> not_close c.
Proof. destruct c; simpl; try tauto. Qed.

(** What [kill_child] does in a world: the calls it makes and the world it
    leaves. *)
Lemma kill_child_trace (pid : Z) (w : world) :
  let a := answer_after w [Kill pid SIGTERM; Select 0 None 0 100000] (Waitpid pid WNOHANG) in
  exists w',
    kill_child pid w = (Some tt, w')
    /\ oracle w' = oracle w
    /\ trace w' = trace w ++ [Kill pid SIGTERM; Select 0 None 0 100000; Waitpid pid WNOHANG]
                  ++ (if ret a =? 0 then [Kill pid SIGKILL; Waitpid pid 0] else []).
Proof.
  intros a. unfold kill_child, mbind, sys, mret. cbn [trace oracle errno].
  unfold answer_after in a.
  replace (oracle w ((trace w ++ [Kill pid SIGTERM]) ++ [Select 0 None 0 100000])
             (Waitpid pid WNOHANG)) with a
    by (unfold a; now rewrite <- app_assoc).
  destruct (ret a =? 0); eexists; (split; [reflexivity|]); cbn [trace oracle];
    (split; [reflexivity|]); rewrite <- !app_assoc; reflexivity.
Qed.

Lemma bind_returns {A B} (m : M A) (k : A -> M B) (w w' : world) (b : B) :
  mbind m k w = (Some b, w') ->
  exists a w1, m w = (Some a, w1) /\ k a w1 = (Some b, w').
Proof.
  unfold mbind. destruct (m w) as [[a|] w1]; [|discriminate].
  intros H. now exists a, w1.
Qed.

Lemma calls_trace (P : syscall -> Prop) {A} (m : M A) (w w' : world) (r : option A) :
  calls P m -> m w = (r, w') ->
  exists evs, trace w' = trace w ++ evs /\ Forall P evs.
Proof. intros Hc Hm. destruct (Hc w) as (evs & Ht & Hf). rewrite Hm in Ht. now exists evs. Qed.

Lemma comes_back_ret {A} (a : A) : comes_back (mret a).
Proof. intros w. now exists a, w. Qed.

Lemma comes_back_sys (c : syscall) : comes_back (sys c).
Proof. intros w. unfold sys. now eexists _, _. Qed.

Lemma comes_back_bind {A B} (m : M A) (k : A -> M B) :
  comes_back m -> (forall a, comes_back (k a)) -> comes_back (mbind m k).
Proof.
  intros Hm Hk w. destruct (Hm w) as (a & w1 & H1).
  destruct (Hk a w1) as (b & w2 & H2). exists b, w2.
  unfold mbind. now rewrite H1.
Qed.

Ltac comes_back_step :=
  first
    [ apply comes_back_ret
    | apply comes_back_sys
    | apply comes_back_bind; [|intros ?]
    | case_match ].

Ltac returns_step Q :=
  first
    [ apply returns_ret; unfold Q; cbn [fst]
    | apply returns_bind; intros ?
    | case_match ].

(** What the call does in the forked child. *)
Lemma child_run (turns : nat) (cmd : list Z) (output : option (list Z))
    (output_size : nat) (timeout_ms : Z) (w : world) :
  let p := oracle w (trace w) Pipe in
  let f := answer_after w [Pipe] Fork in
  0 <= ret p -> ret f = 0 ->
  exists o out w' evs,
    git_command_with_timeout turns (Some cmd) output output_size timeout_ms w
    = (Some (o, out), w')
    /\ ends_in_child cmd o
    /\ trace w' = trace w ++ [Pipe; Fork] ++ evs
    /\ Forall child_call evs.
Proof.
  intros p f Hp Hf. unfold git_command_with_timeout.
  unfold mbind at 1. cbn [sys]. fold p.
  destruct (Z.ltb_spec (ret p) 0); [lia|].
  unfold mbind at 1. cbn [sys trace oracle].
  change (oracle w (trace w ++ [Pipe]) Fork) with f. rewrite Hf.
  cbn [Z.ltb Z.eqb Z.compare].
  match goal with
  | |- exists o out w' evs, ?K ?w2 = _ /\ _ =>
      assert (Hback : comes_back K) by (repeat comes_back_step);
      assert (Hret : returns (fun res => ends_in_child cmd (fst res)) K)
        by (repeat first [ apply returns_ret; cbn [fst]; first [now left | now right]
                         | apply returns_bind; intros ?
                         | case_match ]);
      assert (Hcalls : calls child_call K) by (repeat calls_step');
      destruct (Hback w2) as ([o out] & w' & Hrun);
      destruct (calls_trace child_call K w2 w' _ Hcalls Hrun) as (evs & Htr & Hev);
      pose proof (Hret w2 _ w' Hrun) as Hend
  end.
  exists o, out, w', evs. split; [exact Hrun|]. split; [exact Hend|].
  split; [|exact Hev]. rewrite Htr. cbn [trace]. now rewrite <- !app_assoc.
Qed.

(** X13. In the forked child [git_command_with_timeout] never returns to
    its caller: the call ends with the process image replaced by the
    command, or with the process exiting with 127, and after [fork] the
    child only closes and duplicates descriptors, opens [/dev/null] and
    calls [execl]. *)
Theorem child_never_returns (turns : nat) (cmd : list Z) (output : option (list Z))
    (output_size : nat) (timeout_ms : Z) (w : world) :
  let p := oracle w (trace w) Pipe in
  let f := answer_after w [Pipe] Fork in
  0 <= ret p -> ret f = 0 ->
  exists o out w' evs,
    git_command_with_timeout turns (Some cmd) output output_size timeout_ms w
    = (Some (o, out), w')
    /\ ends_in_child cmd o
    /\ trace w' = trace w ++ [Pipe; Fork] ++ evs
    /\ Forall child_call evs.
Proof. exact (child_run turns cmd output output_size timeout_ms w). Qed.

Lemma WEXITSTATUS_range (status : Z) : 0 <= WEXITSTATUS status <= 255.
Proof.
  unfold WEXITSTATUS. rewrite Z.shiftr_div_pow2 by lia.
  assert (H : Z.land status 65280 = Z.land status 65280 mod 2 ^ 16).
  { rewrite <- Z.land_ones by lia. rewrite <- Z.land_assoc. reflexivity. }
  pose proof (Z.mod_pos_bound (Z.land status 65280) (2 ^ 16) ltac:(lia)) as Hb.
  rewrite <- H in Hb. change (2 ^ 8) with 256. split.
  - apply Z.div_pos; lia.
  - assert (Z.land status 65280 / 256 < 256) by (apply Z.div_lt_upper_bound; lia). lia.
Qed.

(** X14. Whatever the system answers, the exit status of a result that
    [git_command_with_timeout] returns is -1 or lies in 0..255: it is set
    only from [WEXITSTATUS] of a child that exited. *)
Theorem exit_status_in_range (turns : nat) (cmd : option (list Z))
    (output : option (list Z)) (output_size : nat) (timeout_ms : Z) (w w' : world)
    (res : outcome * option (list Z)) :
  git_command_with_timeout turns cmd output output_size timeout_ms w = (Some res, w') ->
  status_in_range res.
Proof.
  revert w res w'.
  change (returns status_in_range
            (git_command_with_timeout turns cmd output output_size timeout_ms)).
  unfold git_command_with_timeout.
  repeat first
    [ apply returns_ret; unfold status_in_range; cbn [fst exit_status];
      first [exact I | now left | right; apply WEXITSTATUS_range]
    | apply returns_bind; intros ?
    | case_match ].
Qed.

Lemma close_kill_return {A} (rfd pid : Z) (x : A) (w : world) :
  let a := answer_after w [Close rfd; Kill pid SIGTERM; Select 0 None 0 100000]
             (Waitpid pid WNOHANG) in
  exists w',
    (_ <- sys (Close rfd) ;; _ <- kill_child pid ;; mret x) w = (Some x, w')
    /\ trace w' = trace w ++ [Close rfd; Kill pid SIGTERM; Select 0 None 0 100000;
                              Waitpid pid WNOHANG]
                  ++ (if ret a =? 0 then [Kill pid SIGKILL; Waitpid pid 0] else []).
Proof.
  intros a. unfold mbind at 1. cbn [sys]. unfold mbind at 1.
  match goal with
  | |- context [kill_child pid ?w1] =>
      destruct (kill_child_trace pid w1) as (w2 & Hk & _ & Htr)
  end.
  rewrite Hk. exists w2. split; [reflexivity|].
  rewrite Htr. unfold answer_after. cbn [trace oracle].
  unfold a, answer_after. rewrite <- !app_assoc. reflexivity.
Qed.

(** X15. When the wait on the pipe times out or fails, the runner closes
    its end of the pipe and gets rid of the child: it sends SIGTERM, sleeps
    100 ms and asks for the child's status without blocking; only if the
    child is still running does it send SIGKILL and wait for it. The result
    is [{-1, timed_out}] with [timed_out] set for a timeout only, and the
    caller's buffer, when there is one, holds the empty string. *)
Theorem failed_wait_kills_child (turns : nat) (cmd : list Z)
    (output : option (list Z)) (output_size : nat) (timeout_ms : Z) (w : world) :
  let t := if timeout_ms =? 0 then GIT_CMD_SYNC_TIMEOUT_MS else timeout_ms in
  let p := oracle w (trace w) Pipe in
  let rfd := nth 0 (data p) 0 in
  let wfd := nth 1 (data p) 0 in
  let pid := ret (answer_after w [Pipe] Fork) in
  let before := [Pipe; Fork; Close wfd;
                 Select (rfd + 1) (Some rfd) (t / 1000) (t mod 1000 * 1000)] in
  let s := answer_after w [Pipe; Fork; Close wfd]
             (Select (rfd + 1) (Some rfd) (t / 1000) (t mod 1000 * 1000)) in
  let k := answer_after w (before ++ [Close rfd; Kill pid SIGTERM; Select 0 None 0 100000])
             (Waitpid pid WNOHANG) in
  0 <= ret p -> 0 < pid ->
  ret s = 0 \/ (ret s < 0 /\ err s <> EINTR) ->
  exists w',
    git_command_with_timeout turns (Some cmd) output output_size timeout_ms w
    = (Some (Returns {| exit_status := -1; timed_out := (ret s =? 0) |},
             match output with
             | Some arr => if (0 <? output_size)%nat then Some (<[0%nat := 0]> arr)
                           else output
             | None => None
             end), w')
    /\ trace w'
       = trace w ++ before
         ++ [Close rfd; Kill pid SIGTERM; Select 0 None 0 100000; Waitpid pid WNOHANG]
         ++ (if ret k =? 0 then [Kill pid SIGKILL; Waitpid pid 0] else []).
Proof.
  intros t p rfd wfd pid before s k Hp Hpid Hs.
  unfold git_command_with_timeout. fold t.
  unfold mbind at 1. cbn [sys]. fold p.
  destruct (Z.ltb_spec (ret p) 0); [lia|].
  unfold mbind at 1. cbn [sys trace oracle].
  change (ret (oracle w (trace w ++ [Pipe]) Fork)) with pid.
  destruct (Z.ltb_spec pid 0); [lia|]. destruct (Z.eqb_spec pid 0); [lia|].
  fold rfd wfd.
  unfold mbind at 1. cbn [sys trace oracle].
  unfold mbind at 1. cbn [sys trace oracle].
  replace (oracle w (((trace w ++ [Pipe]) ++ [Fork]) ++ [Close wfd])
             (Select (rfd + 1) (Some rfd) (t / 1000) (t mod 1000 * 1000))) with s
    by (unfold s, answer_after; now rewrite <- !app_assoc).
  unfold mbind at 1. cbn [get_errno errno].
  assert (Hk : forall W : world,
            oracle W = oracle w ->
            trace W = trace w ++ before ->
            answer_after W [Close rfd; Kill pid SIGTERM; Select 0 None 0 100000]
              (Waitpid pid WNOHANG) = k).
  { intros W Ho Ht. unfold k, answer_after. rewrite Ho, Ht.
    now rewrite <- !app_assoc. }
  destruct Hs as [Hs0 | (Hneg & Herr)].
  - rewrite Hs0 in *. cbn [Z.ltb Z.eqb Z.compare andb].
    match goal with
    | |- exists w', _ ?W = (Some ?x, _) /\ _ =>
        destruct (close_kill_return rfd pid x W) as (w' & Hrun & Htr)
    end.
    exists w'. split; [exact Hrun|].
    rewrite Hk in Htr;
      [| reflexivity | cbn [trace]; unfold before; now rewrite <- !app_assoc].
    rewrite Htr. cbn [trace]. unfold before. now rewrite <- !app_assoc.
  - destruct (Z.ltb_spec (ret s) 0); [|lia].
    destruct (Z.eqb_spec (err s) EINTR); [contradiction|]. cbn [negb andb].
    destruct (Z.eqb_spec (ret s) 0); [lia|].
    match goal with
    | |- exists w', _ ?W = (Some ?x, _) /\ _ =>
        destruct (close_kill_return rfd pid x W) as (w' & Hrun & Htr)
    end.
    exists w'. split; [exact Hrun|].
    rewrite Hk in Htr;
      [| reflexivity | cbn [trace]; unfold before; now rewrite <- !app_assoc].
    rewrite Htr. cbn [trace]. unfold before. now rewrite <- !app_assoc.
Qed.

Lemma kill_tail_not_close (pid : Z) (b : bool) :
  Forall not_close
    ([Kill pid SIGTERM; Select 0 None 0 100000; Waitpid pid WNOHANG]
     ++ (if b then [Kill pid SIGKILL; Waitpid pid 0] else [])).
Proof. destruct b; repeat constructor. Qed.

(** X16. The runner leaks no pipe descriptor. When [pipe] fails it makes no
    further call; when [fork] fails it closes both ends; and whenever the
    parent returns it has closed the write end right after [fork] and the
    read end exactly once later, and has closed nothing else. *)
Theorem pipe_ends_closed_once (turns : nat) (cmd : list Z)
    (output : option (list Z)) (output_size : nat) (timeout_ms : Z) (w : world) :
  let run := git_command_with_timeout turns (Some cmd) output output_size timeout_ms in
  let p := oracle w (trace w) Pipe in
  let rfd := nth 0 (data p) 0 in
  let wfd := nth 1 (data p) 0 in
  let f := answer_after w [Pipe] Fork in
  (ret p < 0 -> trace (snd (run w)) = trace w ++ [Pipe])
  /\ (0 <= ret p -> ret f < 0 ->
      trace (snd (run w)) = trace w ++ [Pipe; Fork; Close rfd; Close wfd])
  /\ (0 <= ret p -> 0 < ret f ->
      forall res w', run w = (Some res, w') ->
      exists pre post,
        trace w' = trace w ++ [Pipe; Fork; Close wfd] ++ pre ++ [Close rfd] ++ post
        /\ Forall not_close pre /\ Forall not_close post).
Proof.
  intros run p rfd wfd f. unfold run, git_command_with_timeout.
  split; [|split].
  - intros Hp. unfold mbind at 1. cbn [sys]. fold p.
    destruct (Z.ltb_spec (ret p) 0); [reflexivity | lia].
  - intros Hp Hf. unfold mbind at 1. cbn [sys]. fold p.
    destruct (Z.ltb_spec (ret p) 0); [lia|].
    unfold mbind at 1. cbn [sys trace oracle].
    change (oracle w (trace w ++ [Pipe]) Fork) with f.
    destruct (Z.ltb_spec (ret f) 0); [|lia]. fold rfd wfd.
    unfold mbind, sys, mret. cbn [snd trace]. now rewrite <- !app_assoc.
  - intros Hp Hf res w'. unfold mbind at 1. cbn [sys]. fold p.
    destruct (Z.ltb_spec (ret p) 0); [lia|].
    unfold mbind at 1. cbn [sys trace oracle].
    change (oracle w (trace w ++ [Pipe]) Fork) with f.
    destruct (Z.ltb_spec (ret f) 0); [lia|]. destruct (Z.eqb_spec (ret f) 0); [lia|].
    fold rfd wfd.
    unfold mbind at 1. cbn [sys trace oracle].
    unfold mbind at 1. cbn [sys trace oracle].
    unfold mbind at 1. cbn [get_errno errno].
    match goal with
    | |- (if ?c1 then _ else if ?c2 then _ else _) _ = _ -> _ =>
        destruct c1; [|destruct c2]
    end.
    + match goal with
      | |- _ ?W = (Some _, _) -> _ =>
          intros Hrun;
          match type of Hrun with
          | (_ <- _ ;; _ <- _ ;; mret ?x) _ = _ =>
              destruct (close_kill_return rfd (ret f) x W) as (w2 & Hr2 & Htr)
          end
      end.
      rewrite Hr2 in Hrun. injection Hrun as _ <-.
      eexists [_], _. split.
      { rewrite Htr. cbn [trace]. rewrite <- !app_assoc. reflexivity. }
      split; [repeat constructor | apply kill_tail_not_close].
    + match goal with
      | |- _ ?W = (Some _, _) -> _ =>
          intros Hrun;
          match type of Hrun with
          | (_ <- _ ;; _ <- _ ;; mret ?x) _ = _ =>
              destruct (close_kill_return rfd (ret f) x W) as (w2 & Hr2 & Htr)
          end
      end.
      rewrite Hr2 in Hrun. injection Hrun as _ <-.
      eexists [_], _. split.
      { rewrite Htr. cbn [trace]. rewrite <- !app_assoc. reflexivity. }
      split; [repeat constructor | apply kill_tail_not_close].
    + intros Hrun.
      apply bind_returns in Hrun as (ro & w1 & Hread & Hrun).
      destruct (calls_trace quiet _ _ _ _ (read_all_available_quiet _ _ _ _) Hread)
        as (R & HR & HRq).
      unfold mbind at 1 in Hrun. cbn [sys] in Hrun.
      apply bind_returns in Hrun as (a & w3 & Hwait & Hrun).
      destruct (calls_trace quiet _ _ _ _ (wait_child_quiet _ _) Hwait)
        as (Wt & HW & HWq).
      assert (Hw' : w' = w3) by (destruct ((0 <? ret a) && _); now injection Hrun).
      subst w'. eexists (_ :: R), Wt. split; [|split].
      * rewrite HW. cbn [trace]. rewrite HR. cbn [trace].
        rewrite <- !app_assoc. reflexivity.
      * constructor; [exact I|]. eapply Forall_impl; [exact HRq | apply quiet_not_close].
      * eapply Forall_impl; [exact HWq | apply quiet_not_close].
Qed.

Lemma read_loop_length (turns : nat) (fd : Z) (buf_size : nat) (buf : list Z) :
  (length buf <= buf_size - 1)%nat ->
  returns (fun got => (length got <= buf_size - 1)%nat) (read_loop turns fd buf_size buf).
Proof.
  revert buf. induction turns as [|turns IH]; intros buf Hb; cbn [read_loop].
  - intros w a w' H. discriminate.
  - destruct (Nat.eqb_spec (buf_size - 1 - length buf) 0) as [Hz|Hz].
    + apply returns_bind. intros _. now apply returns_ret.
    + apply returns_bind. intros a.
      destruct (ret a <? 0).
      * apply returns_bind. intros e.
        destruct (e =? EINTR); [now apply IH | now apply returns_ret].
      * destruct (Nat.ltb_spec 0 (length (read_bytes a (buf_size - 1 - length buf))));
          [|now apply returns_ret].
        apply IH. rewrite length_app. unfold read_bytes in *.
        rewrite length_take in *. lia.
Qed.

Lemma lookup_zero_strlen (l : list Z) (k : nat) :
  l !! k = Some 0 -> (strlen l <= k)%nat.
Proof.
  unfold strlen. revert k. induction l as [|c l IH]; intros k H; [discriminate|].
  cbn [c_str]. destruct k as [|k]; simpl in H.
  - injection H as ->. simpl. lia.
  - destruct (c =? 0); simpl; [lia|]. specialize (IH k H). lia.
Qed.

(** X17. [read_all_available] stays inside the array it is given: when it
    returns, the count [k] is at most [buf_size - 1], a NUL stands at index
    [k], so that the string in the array is no longer than [k], the array
    keeps its length and every byte at index [buf_size] or beyond is as it
    was. *)
Theorem read_all_available_bounds (turns : nat) (fd : Z) (arr : list Z)
    (buf_size : nat) (w w' : world) (k : Z) (o : option (list Z)) :
  (0 < buf_size <= length arr)%nat ->
  read_all_available turns fd (Some arr) buf_size w = (Some (k, o), w') ->
  exists arr',
    o = Some arr'
    /\ 0 <= k <= Z.of_nat (buf_size - 1)
    /\ length arr' = length arr
    /\ arr' !! Z.to_nat k = Some 0
    /\ (strlen arr' <= Z.to_nat k)%nat
    /\ drop buf_size arr' = drop buf_size arr.
Proof.
  intros Hn Hrun. unfold read_all_available in Hrun.
  destruct (Nat.eqb_spec buf_size 0); [lia|].
  apply bind_returns in Hrun as (got & w1 & Hloop & Hrun).
  pose proof (read_loop_length turns fd buf_size [] ltac:(simpl; lia) _ _ _ Hloop) as Hg.
  cbv beta in Hg. unfold mret in Hrun. injection Hrun as <- <- <-.
  eexists. split; [reflexivity|].
  assert (Hlen : length (got ++ drop (length got) arr) = length arr).
  { rewrite length_app, length_drop. lia. }
  rewrite Nat2Z.id. repeat split; try lia.
  - now rewrite length_insert.
  - apply list_lookup_insert_eq. lia.
  - apply lookup_zero_strlen. apply list_lookup_insert_eq. lia.
  - rewrite drop_insert_lt by lia. rewrite drop_app_ge by lia.
    rewrite drop_drop. f_equal. lia.
Qed.

Lemma drain_full_stale (turns : nat) (fd : Z) (w : world) :
  errno w = EINTR ->
  (forall tr, 0 <= ret (oracle w tr (Read fd 256))) ->
  fst (drain_full turns fd w) = None.
Proof.
  revert w. induction turns as [|turns IH]; intros w He Hr; [reflexivity|].
  cbn [drain_full]. unfold mbind at 1. cbn [sys].
  pose proof (Hr (trace w)) as Ha.
  destruct (Z.ltb_spec (ret (oracle w (trace w) (Read fd 256))) 0); [lia|].
  unfold mbind at 1. cbn [get_errno errno]. rewrite He.
  change (EINTR =? EINTR) with true. rewrite andb_false_r.
  apply IH; [reflexivity | exact Hr].
Qed.

Lemma read_loop_stale (turns : nat) (fd : Z) (buf_size : nat) (buf got : list Z)
    (w w' : world) :
  errno w = EINTR ->
  (forall tr c, 0 <= ret (oracle w tr (Read fd c))) ->
  read_loop turns fd buf_size buf w = (Some got, w') ->
  (length got < buf_size - 1)%nat.
Proof.
  revert buf w. induction turns as [|turns IH]; intros buf w He Hr Hrun; [discriminate|].
  cbn [read_loop] in Hrun.
  destruct (Nat.eqb_spec (buf_size - 1 - length buf) 0) as [Hz|Hz].
  - apply bind_returns in Hrun as (u & w1 & Hd & _).
    pose proof (drain_full_stale turns fd w He (fun tr => Hr tr 256%nat)) as Hn.
    rewrite Hd in Hn. discriminate.
  - unfold mbind at 1 in Hrun. cbn [sys] in Hrun.
    pose proof (Hr (trace w) (buf_size - 1 - length buf)%nat) as Ha.
    destruct (Z.ltb_spec (ret (oracle w (trace w) (Read fd (buf_size - 1 - length buf)))) 0);
      [lia|].
    destruct (Nat.ltb_spec 0 (length (read_bytes (oracle w (trace w)
                (Read fd (buf_size - 1 - length buf))) (buf_size - 1 - length buf)))).
    + eapply IH; [| |exact Hrun]; [exact He | exact Hr].
    + unfold mret in Hrun. injection Hrun as <- _. lia.
Qed.

(** X18. The loop that drains the pipe once the buffer is full tests
    [errno] after every [read], also after one that succeeded. With [errno]
    holding [EINTR] from an earlier call and every [read] succeeding or
    reporting the end of the input, that loop never ends, whatever number of
    turns it is given; so [read_all_available] returns only if the input
    ended before the buffer was full. *)
Theorem stale_eintr_never_returns_full (turns : nat) (fd : Z) (arr : list Z)
    (buf_size : nat) (w : world) :
  errno w = EINTR ->
  (forall tr c, 0 <= ret (oracle w tr (Read fd c))) ->
  fst (drain_full turns fd w) = None
  /\ ((0 < buf_size)%nat ->
      forall k o w',
        read_all_available turns fd (Some arr) buf_size w = (Some (k, o), w') ->
        k < Z.of_nat (buf_size - 1)).
Proof.
  intros He Hr. split; [apply drain_full_stale; [exact He | intros tr; apply Hr]|].
  intros Hn k o w' Hrun. unfold read_all_available in Hrun.
  destruct (Nat.eqb_spec buf_size 0); [lia|].
  apply bind_returns in Hrun as (got & w1 & Hloop & Hrun).
  pose proof (read_loop_stale turns fd buf_size [] got w w1 He Hr Hloop) as Hg.
  unfold mret in Hrun. injection Hrun as <- _ _. lia.
Qed.

Lemma trimmed_length_spec (s : list Z) :
  exists a tail,
    s = a ++ tail /\ Forall is_newline tail
    /\ (forall c, last a = Some c -> ~ is_newline c)
    /\ trimmed_length (rev s) = length a.
Proof.
  induction s as [|c s (a & tail & Hs & Hnl & Hlast & Hlen)] using rev_ind.
  - exists [], []. split; [reflexivity|]. split; [constructor|]. split; [discriminate | reflexivity].
  - rewrite rev_unit. cbn [trimmed_length].
    destruct (Z.eqb_spec c 10) as [H10|H10]; [|destruct (Z.eqb_spec c 13) as [H13|H13]];
      cbn [orb].
    + exists a, (tail ++ [c]).
      split; [now rewrite Hs, <- app_assoc|]. split; [|now split].
      apply Forall_app. split; [assumption|]. constructor; [now left | constructor].
    + exists a, (tail ++ [c]).
      split; [now rewrite Hs, <- app_assoc|]. split; [|now split].
      apply Forall_app. split; [assumption|]. constructor; [now right | constructor].
    + exists (s ++ [c]), []. rewrite app_nil_r.
      split; [reflexivity|]. split; [constructor|]. split.
      * intros c' Hc'. rewrite last_snoc in Hc'. injection Hc' as <-.
        unfold is_newline. lia.
      * cbn [length]. rewrite length_app, length_rev. simpl. lia.
Qed.

Lemma zero_range_length (arr : list Z) (from n : nat) :
  length (zero_range arr from n) = length arr.
Proof.
  revert arr. induction n as [|n IH]; intros arr; [reflexivity|].
  cbn [zero_range]. now rewrite IH, length_insert.
Qed.

Lemma zero_range_take (arr : list Z) (from n : nat) :
  take from (zero_range arr from n) = take from arr.
Proof.
  revert arr. induction n as [|n IH]; intros arr; [reflexivity|].
  cbn [zero_range]. rewrite IH. apply take_insert_ge. lia.
Qed.

Lemma zero_range_first (arr : list Z) (from n : nat) :
  (0 < n)%nat -> (from < length arr)%nat -> zero_range arr from n !! from = Some 0.
Proof.
  revert arr. induction n as [|n IH]; intros arr Hn Hf; [lia|].
  cbn [zero_range]. destruct n as [|n].
  - cbn [zero_range]. rewrite Nat.add_0_r. now apply list_lookup_insert_eq.
  - apply IH; [lia | now rewrite length_insert].
Qed.

Lemma c_str_prefix (arr : list Z) : take (strlen arr) arr = c_str arr.
Proof.
  unfold strlen. induction arr as [|c arr IH]; [reflexivity|]. cbn [c_str].
  destruct (c =? 0); [reflexivity|]. cbn [length take]. now rewrite IH.
Qed.

(** X19. The loop that removes trailing newlines: the string left in the
    array is the string that was there without the line feeds and carriage
    returns at its end, it does not end in one, and the array keeps its
    length. *)
Theorem trim_removes_trailing_newlines (arr : list Z) :
  let s := c_str arr in
  let s' := c_str (trim_trailing_newlines arr) in
  length (trim_trailing_newlines arr) = length arr
  /\ (forall c, last s' = Some c -> ~ is_newline c)
  /\ exists tail, s = s' ++ tail /\ Forall is_newline tail.
Proof.
  intros s s'. unfold trim_trailing_newlines in *. fold s in s'.
  split; [apply zero_range_length|].
  destruct (trimmed_length_spec s) as (a & tail & Hs & Hnl & Hlast & Hlen).
  assert (Hz : Forall (fun c => c <> 0) a).
  { pose proof (c_str_nonzero arr) as H. fold s in H. rewrite Hs in H.
    now apply Forall_app in H as [H _]. }
  assert (Hs' : s' = a).
  { unfold s'. rewrite Hlen. unfold strlen. fold s.
    pose proof (strlen_le arr) as Hle. unfold strlen in Hle. fold s in Hle.
    assert (Hla : length s = (length a + length tail)%nat)
      by (rewrite Hs; apply length_app).
    assert (Hta : take (length a) arr = a).
    { assert (H : take (length a) (take (strlen arr) arr) = a)
        by (rewrite c_str_prefix; fold s; rewrite Hs; apply take_app_length).
      rewrite take_take in H.
      replace (length a `min` strlen arr)%nat with (length a) in H
        by (unfold strlen; fold s; lia).
      exact H. }
    destruct tail as [|t tail].
    - rewrite app_nil_r in Hs.
      replace (length s - length a)%nat with 0%nat by (simpl in Hla; lia).
      cbn [zero_range]. fold s. congruence.
    - assert (Hlk : zero_range arr (length a) (length s - length a) !! length a = Some 0).
      { simpl in Hla. apply zero_range_first; lia. }
      rewrite <- (take_drop_middle _ _ _ Hlk), zero_range_take, Hta.
      rewrite c_str_app_zero. now apply c_str_id. }
  rewrite Hs'. split; [exact Hlast|]. now exists tail.
Qed.

(** X20. [git_command_in_dir] runs the text [git -C '<dir>' <args>
    2>/dev/null], the directory put between the quotes as it is. With a
    NULL directory or NULL arguments, or when that text does not fit in 1024
    bytes, it returns [{-1, false}] and makes no system call; otherwise the
    forked child ends with its image replaced by that text, or exits with
    127. *)
Theorem git_in_dir_command (turns : nat) (dir args : list Z) (output : option (list Z))
    (output_size : nat) (timeout_ms : Z) (w : world) :
  let text := lit "git -C '" ++ c_str dir ++ lit "' " ++ c_str args
              ++ lit " 2>/dev/null" in
  let failed := (Returns {| exit_status := -1; timed_out := false |}, output) in
  (forall d a, d = None \/ a = None ->
     git_command_in_dir turns d a output output_size timeout_ms w = (Some failed, w))
  /\ ((1024 <= length text)%nat ->
      git_command_in_dir turns (Some dir) (Some args) output output_size timeout_ms w
      = (Some failed, w))
  /\ ((length text < 1024)%nat ->
      0 <= ret (oracle w (trace w) Pipe) -> ret (answer_after w [Pipe] Fork) = 0 ->
      exists o out w',
        git_command_in_dir turns (Some dir) (Some args) output output_size timeout_ms w
        = (Some (o, out), w')
        /\ ends_in_child text o).
Proof.
  intros text failed. split; [|split].
  - intros d a [-> | ->]; [reflexivity | now destruct d].
  - intros Hl. unfold git_command_in_dir. fold text.
    destruct (Nat.leb_spec 1024 (length text)); [reflexivity | lia].
  - intros Hl Hp Hf. unfold git_command_in_dir. fold text.
    destruct (Nat.leb_spec 1024 (length text)); [lia|].
    destruct (child_run turns text output output_size timeout_ms w Hp Hf)
      as (o & out & w' & evs & Hrun & Hend & _).
    now exists o, out, w'.
Qed.

End RunnerExtras.

(** * Further properties of the async worker *)

Section WorkerExtras.
Import AsyncWorker.
Variable LLE_ASYNC_MAX_QUEUE_SIZE : Z.

Lemma fifo_step (s : system) (o : op) (ops : list op) :
  queue (worker s) ++ accepted LLE_ASYNC_MAX_QUEUE_SIZE s (o :: ops)
  = dequeued LLE_ASYNC_MAX_QUEUE_SIZE s [o]
    ++ queue (worker (step LLE_ASYNC_MAX_QUEUE_SIZE s o)) ++ accepted LLE_ASYNC_MAX_QUEUE_SIZE (step LLE_ASYNC_MAX_QUEUE_SIZE s o) ops.
Proof.
  destruct s as [w t]. destruct o; cbn [accepted dequeued step worker thread].
  - unfold lle_async_worker_start. cbn [worker thread].
    destruct (running w), created; reflexivity.
  - reflexivity.
  - unfold lle_async_worker_wait. cbn [worker thread].
    destruct (running w); [destruct t|]; reflexivity.
  - unfold lle_async_worker_submit.
    destruct (negb (running w) || shutdown_requested w); [reflexivity|].
    destruct (LLE_ASYNC_MAX_QUEUE_SIZE <=? queue_size w); [reflexivity|].
    cbn [worker queue app]. now rewrite <- app_assoc.
  - destruct t; try reflexivity. unfold thread_dequeue.
    destruct (queue w) as [|r rest] eqn:Hq.
    + destruct (shutdown_requested w); cbn [worker queue]; now rewrite Hq.
    + reflexivity.
  - destruct t; reflexivity.
  - destruct t; reflexivity.
Qed.

Lemma dequeued_cons (s : system) (o : op) (ops : list op) :
  dequeued LLE_ASYNC_MAX_QUEUE_SIZE s (o :: ops)
  = dequeued LLE_ASYNC_MAX_QUEUE_SIZE s [o]
    ++ dequeued LLE_ASYNC_MAX_QUEUE_SIZE (step LLE_ASYNC_MAX_QUEUE_SIZE s o) ops.
Proof.
  cbn [dequeued]. destruct o; try reflexivity.
  destruct (thread s); try reflexivity. destruct (queue (worker s)); reflexivity.
Qed.

Lemma fifo_run (ops : list op) (s : system) :
  queue (worker s) ++ accepted LLE_ASYNC_MAX_QUEUE_SIZE s ops
  = dequeued LLE_ASYNC_MAX_QUEUE_SIZE s ops ++ queue (worker (fold_left (step LLE_ASYNC_MAX_QUEUE_SIZE) ops s)).
Proof.
  revert s. induction ops as [|o ops IH]; intros s.
  - cbn [accepted dequeued fold_left app]. now rewrite app_nil_r.
  - rewrite (dequeued_cons s o ops), fifo_step, IH. cbn [fold_left].
    now rewrite <- app_assoc.
Qed.

Lemma accepted_step (s : system) (o : op) (ops : list op) :
  (accepted LLE_ASYNC_MAX_QUEUE_SIZE s (o :: ops)
   = accepted LLE_ASYNC_MAX_QUEUE_SIZE (step LLE_ASYNC_MAX_QUEUE_SIZE s o) ops
   /\ next_id (step LLE_ASYNC_MAX_QUEUE_SIZE s o) = next_id s)
  \/ (exists r,
        accepted LLE_ASYNC_MAX_QUEUE_SIZE s (o :: ops)
        = set_id r (next_id s)
          :: accepted LLE_ASYNC_MAX_QUEUE_SIZE (step LLE_ASYNC_MAX_QUEUE_SIZE s o) ops
        /\ next_id (step LLE_ASYNC_MAX_QUEUE_SIZE s o) = wrap64 (next_id s + 1)).
Proof.
  destruct s as [w t]. unfold next_id.
  destruct o; cbn [accepted step worker thread].
  - left. unfold lle_async_worker_start. cbn [worker thread].
    destruct (running w), created; now split.
  - left. now split.
  - left. unfold lle_async_worker_wait. cbn [worker thread].
    destruct (running w); [destruct t|]; now split.
  - unfold lle_async_worker_submit.
    destruct (negb (running w) || shutdown_requested w); [left; now split|].
    destruct (LLE_ASYNC_MAX_QUEUE_SIZE <=? queue_size w); [left; now split|].
    right. exists r. now split.
  - left. destruct t; try now split. unfold thread_dequeue.
    destruct (queue w); [destruct (shutdown_requested w)|]; now split.
  - left. destruct t; now split.
  - left. destruct t; now split.
Qed.

Lemma accepted_ids (ops : list op) (s : system) :
  0 <= next_id s -> next_id s + Z.of_nat (length ops) < 2 ^ 64 ->
  map id (accepted LLE_ASYNC_MAX_QUEUE_SIZE s ops)
  = seqZ (next_id s) (Z.of_nat (length (accepted LLE_ASYNC_MAX_QUEUE_SIZE s ops)))
  /\ (length (accepted LLE_ASYNC_MAX_QUEUE_SIZE s ops) <= length ops)%nat.
Proof.
  revert s. induction ops as [|o ops IH]; intros s H0 Hlen.
  - split; [reflexivity | simpl; lia].
  - simpl length in Hlen.
    destruct (accepted_step s o ops) as [(-> & Hn) | (r & -> & Hn)].
    + destruct (IH (step LLE_ASYNC_MAX_QUEUE_SIZE s o)) as (IH1 & IH2); [lia | lia |].
      rewrite Hn in IH1. split; [exact IH1 | simpl length; lia].
    + rewrite wrap64_small in Hn by lia.
      destruct (IH (step LLE_ASYNC_MAX_QUEUE_SIZE s o)) as (IH1 & IH2); [lia | lia |].
      rewrite Hn in IH1. split; [|simpl length; lia].
      cbn [map id set_id length]. rewrite IH1.
      rewrite Nat2Z.inj_succ. rewrite (seqZ_cons (next_id s)) by lia.
      f_equal. f_equal; lia.
Qed.

(** X21. The queue is first in, first out, and loses nothing: at every
    moment the requests accepted so far are, in order, those the worker
    thread has taken followed by those still queued. Their ids count up
    from 1 without gaps, whatever submissions were refused in between, as
    long as fewer than 2^64 - 1 steps have been taken. *)
Theorem requests_served_in_order (ops : list op) :
  accepted LLE_ASYNC_MAX_QUEUE_SIZE init_system ops
  = dequeued LLE_ASYNC_MAX_QUEUE_SIZE init_system ops
    ++ queue (worker (AsyncWorker.run LLE_ASYNC_MAX_QUEUE_SIZE ops))
  /\ (Z.of_nat (length ops) < 2 ^ 64 - 1 ->
      map id (accepted LLE_ASYNC_MAX_QUEUE_SIZE init_system ops)
      = seqZ 1 (Z.of_nat (length (accepted LLE_ASYNC_MAX_QUEUE_SIZE init_system ops)))).
Proof.
  split.
  - exact (fifo_run ops init_system).
  - intros Hlen. apply (accepted_ids ops init_system); unfold next_id; simpl; lia.
Qed.

Lemma queue_bounded_step (s : system) (o : op) :
  LLE_ASYNC_MAX_QUEUE_SIZE < 2 ^ 64 ->
  queue_size (worker s) = Z.of_nat (length (queue (worker s)))
  /\ Z.of_nat (length (queue (worker s))) <= Z.max 0 LLE_ASYNC_MAX_QUEUE_SIZE ->
  let s' := step LLE_ASYNC_MAX_QUEUE_SIZE s o in
  queue_size (worker s') = Z.of_nat (length (queue (worker s')))
  /\ Z.of_nat (length (queue (worker s'))) <= Z.max 0 LLE_ASYNC_MAX_QUEUE_SIZE.
Proof.
  intros Hmax (Hq & Hb). destruct s as [w t]. cbn [worker] in *.
  destruct o; cbn [step worker thread].
  - unfold lle_async_worker_start. cbn [worker thread].
    destruct (running w), created; now split.
  - now split.
  - unfold lle_async_worker_wait. cbn [worker thread].
    destruct (running w); [destruct t|]; now split.
  - unfold lle_async_worker_submit.
    destruct (negb (running w) || shutdown_requested w); [now split|].
    destruct (Z.leb_spec LLE_ASYNC_MAX_QUEUE_SIZE (queue_size w)); [now split|].
    cbn [worker queue queue_size]. rewrite length_app. cbn [length].
    rewrite wrap64_small by lia. lia.
  - destruct t; try now split. unfold thread_dequeue.
    destruct (queue w) as [|r rest] eqn:Hqu.
    + destruct (shutdown_requested w); cbn [worker]; rewrite Hqu; now split.
    + cbn [worker queue queue_size]. cbn [length] in *.
      rewrite wrap64_small by lia. lia.
  - destruct t; now split.
  - destruct t; now split.
Qed.

(** X22. With a bound that a 64-bit counter can hold, the queue never
    holds more than [LLE_ASYNC_MAX_QUEUE_SIZE] requests, and the count that
    [lle_async_worker_pending_count] reads is the number of requests in the
    queue. *)
Theorem queue_stays_bounded (ops : list op) :
  LLE_ASYNC_MAX_QUEUE_SIZE < 2 ^ 64 ->
  let w := worker (AsyncWorker.run LLE_ASYNC_MAX_QUEUE_SIZE ops) in
  lle_async_worker_pending_count (Some w) = Z.of_nat (length (queue w))
  /\ Z.of_nat (length (queue w)) <= Z.max 0 LLE_ASYNC_MAX_QUEUE_SIZE.
Proof.
  intros Hmax. unfold AsyncWorker.run, lle_async_worker_pending_count.
  assert (H : forall s,
            queue_size (worker s) = Z.of_nat (length (queue (worker s)))
            /\ Z.of_nat (length (queue (worker s))) <= Z.max 0 LLE_ASYNC_MAX_QUEUE_SIZE ->
            let s' := fold_left (step LLE_ASYNC_MAX_QUEUE_SIZE) ops s in
            queue_size (worker s') = Z.of_nat (length (queue (worker s')))
            /\ Z.of_nat (length (queue (worker s'))) <= Z.max 0 LLE_ASYNC_MAX_QUEUE_SIZE).
  { induction ops as [|o ops IH]; intros s Hs; [exact Hs|].
    cbn [fold_left]. apply IH. now apply queue_bounded_step. }
  apply H. simpl. lia.
Qed.

End WorkerExtras.

Section PorcelainExtras.
Import C AsyncWorker.

Lemma porcelain_line_add (l rest : list Z) (c : porcelain_counts) :
  porcelain_text_line l -> porcelain_line (l ++ rest) c = add_line l c.
Proof.
  intros (Hl & Hz). destruct l as [|x [|y l]]; try (simpl in Hl; lia).
  inversion Hz as [|? ? (Hx0 & _) Hz']; subst. inversion Hz' as [|? ? (Hy0 & _) _]; subst.
  unfold porcelain_line, add_line, staged_line, unstaged_line, untracked_line.
  cbn [app peek hd tl]. destruct c as [a b u]. cbn [staged_count unstaged_count untracked_count].
  destruct (Z.eqb_spec x 63); cbn [negb andb].
  - f_equal; lia.
  - destruct (Z.eqb_spec x 0); [contradiction|]. destruct (Z.eqb_spec y 0); [contradiction|].
    cbn [negb andb].
    destruct (Z.eqb_spec x 32), (Z.eqb_spec y 32), (Z.eqb_spec y 63);
      cbn [negb andb staged_count unstaged_count untracked_count]; f_equal; lia.
Qed.

Lemma strchr_line (l rest : list Z) :
  Forall (fun c => c <> 0 /\ c <> 10) l ->
  strchr (l ++ 10 :: rest) 10 = Some (10 :: rest).
Proof.
  induction 1 as [|x l (H0 & H10) _ IH]; [reflexivity|]. cbn [app strchr].
  destruct (Z.eqb_spec x 0); [contradiction|]. destruct (Z.eqb_spec x 10); [contradiction|].
  exact IH.
Qed.

Lemma strchr_last (l : list Z) :
  Forall (fun c => c <> 0 /\ c <> 10) l -> strchr l 10 = None.
Proof.
  induction 1 as [|x l (H0 & H10) _ IH]; [reflexivity|]. cbn [strchr].
  destruct (Z.eqb_spec x 0); [contradiction|]. destruct (Z.eqb_spec x 10); [contradiction|].
  exact IH.
Qed.

Lemma join_lines_cons (l : list Z) (lines : list (list Z)) :
  join_lines (l :: lines)
  = l ++ match lines with [] => [] | _ => 10 :: join_lines lines end.
Proof. destruct lines; [now rewrite app_nil_r | reflexivity]. Qed.

Lemma porcelain_loop_lines (lines : list (list Z)) (fuel : nat) (c : porcelain_counts) :
  Forall porcelain_text_line lines ->
  (length lines <= fuel)%nat ->
  porcelain_loop fuel (join_lines lines) c = Some (fold_left (fun c l => add_line l c) lines c).
Proof.
  intros Hl. revert fuel c. induction Hl as [|l lines Hline _ IH]; intros fuel c Hf.
  - destruct fuel; reflexivity.
  - destruct fuel as [|fuel]; [simpl in Hf; lia|].
    rewrite join_lines_cons. pose proof Hline as (Hlen & Hz).
    cbn [porcelain_loop].
    assert (Hp : peek (l ++ match lines with [] => [] | _ => 10 :: join_lines lines end) <> 0).
    { destruct l as [|x l]; [simpl in Hlen; lia|]. inversion Hz as [|? ? (H0 & _) _]. exact H0. }
    destruct (Z.eqb_spec (peek (l ++ match lines with [] => [] | _ => 10 :: join_lines lines end)) 0);
      [contradiction|].
    rewrite porcelain_line_add by assumption.
    destruct lines as [|l2 lines].
    + rewrite app_nil_r, strchr_last by assumption. reflexivity.
    + rewrite strchr_line by assumption. cbn [tl]. rewrite IH by (simpl in Hf |- *; lia).
      reflexivity.
Qed.

Lemma fold_add_line (lines : list (list Z)) (c : porcelain_counts) :
  fold_left (fun c l => add_line l c) lines c
  = {| staged_count := staged_count c + count_lines staged_line lines;
       unstaged_count := unstaged_count c + count_lines unstaged_line lines;
       untracked_count := untracked_count c + count_lines untracked_line lines |}.
Proof.
  revert c. induction lines as [|l lines IH]; intros c.
  - destruct c. unfold count_lines. simpl. f_equal; lia.
  - cbn [fold_left]. rewrite IH. unfold add_line, count_lines.
    cbn [staged_count unstaged_count untracked_count].
    rewrite !filter_cons.
    destruct (staged_line l), (unstaged_line l), (untracked_line l);
      repeat (destruct (decide _); try congruence); cbn [length];
      f_equal; lia.
Qed.

(** X23. The loop of [lle_async_get_git_status] that reads the output of
    [git status --porcelain] ends, and on lines of at least two characters
    joined by line feeds it counts line by line: a line that starts with a
    question mark as untracked, any other line as staged when its first
    character is not a space and as unstaged when its second character is
    neither a space nor a question mark. *)
Theorem porcelain_counts_by_line (lines : list (list Z)) :
  Forall porcelain_text_line lines ->
  count_porcelain (join_lines lines)
  = Some {| staged_count := count_lines staged_line lines;
            unstaged_count := count_lines unstaged_line lines;
            untracked_count := count_lines untracked_line lines |}.
Proof.
  intros Hl. unfold count_porcelain. rewrite porcelain_loop_lines; [|assumption|].
  - now rewrite fold_add_line.
  - induction Hl as [|l lines (Hlen & _) _ IH]; [simpl; lia|].
    rewrite join_lines_cons, length_app. destruct lines; cbn [length] in *; lia.
Qed.

End PorcelainExtras.

(** * Further properties of the powerline renderer *)

Section PowerlineSafety.
Import C Powerline.
Variable lle_color_to_ansi : lle_color_t -> bool -> nat -> list Z.
Variable lle_color_downgrade : lle_color_t -> bool -> bool -> lle_color_t.
Variable lle_segment_registry_t : Type.
Variable lle_segment_registry_find :
  lle_segment_registry_t -> list Z -> option lle_prompt_segment_t.
Variable LLE_SEGMENT_OUTPUT_MAX : nat.

Lemma buf_append_kept (out : list Z) (n : nat) (a : append_ctx_t) (data : list Z) :
  (n <= length out)%nat -> kept out n a -> kept out n (buf_append a data).
Proof.
  intros Hn (Hs & Hp & Hl & H0 & Hd). unfold buf_append.
  destruct (Nat.leb_spec (size a) (pos a + length data)); [now repeat split|].
  unfold kept, memcpy. cbn [buf size pos].
  assert (Hlen : length (take (pos a) (buf a) ++ data
                         ++ drop (pos a + length data) (buf a)) = length (buf a)).
  { rewrite !length_app, length_take, length_drop. lia. }
  rewrite length_insert, Hlen. split; [exact Hs|]. split; [lia|]. split; [exact Hl|]. split.
  - apply list_lookup_insert_eq. lia.
  - rewrite drop_insert_lt by lia. rewrite app_assoc.
    rewrite drop_app_ge by (rewrite length_app, length_take; lia).
    rewrite length_app, length_take, drop_drop. rewrite <- Hd. f_equal. lia.
Qed.

Lemma buf_append_str_kept (out : list Z) (n : nat) (a : append_ctx_t) (s : list Z) :
  (n <= length out)%nat -> kept out n a -> kept out n (Powerline.buf_append_str a s).
Proof. apply buf_append_kept. Qed.

Lemma buf_append_reset_kept (out : list Z) (n : nat) (a : append_ctx_t) :
  (n <= length out)%nat -> kept out n a -> kept out n (buf_append_reset a).
Proof. apply buf_append_kept. Qed.

Lemma buf_append_color_fg_kept (out : list Z) (n : nat) (a : append_ctx_t)
    (c : lle_color_t) :
  (n <= length out)%nat -> kept out n a ->
  kept out n (buf_append_color_fg lle_color_to_ansi a c).
Proof.
  intros Hn Ha. unfold buf_append_color_fg.
  destruct (0 <? length (lle_color_to_ansi c true 32))%nat; [now apply buf_append_kept | exact Ha].
Qed.

Lemma buf_append_color_bg_kept (out : list Z) (n : nat) (a : append_ctx_t)
    (c : lle_color_t) :
  (n <= length out)%nat -> kept out n a ->
  kept out n (buf_append_color_bg lle_color_to_ansi a c).
Proof.
  intros Hn Ha. unfold buf_append_color_bg.
  destruct (0 <? length (lle_color_to_ansi c false 32))%nat; [now apply buf_append_kept | exact Ha].
Qed.

Ltac kept_step Hn :=
  first
    [ assumption
    | apply buf_append_reset_kept; [exact Hn|]
    | apply buf_append_color_fg_kept; [exact Hn|]
    | apply buf_append_color_bg_kept; [exact Hn|]
    | apply buf_append_str_kept; [exact Hn|]
    | apply buf_append_kept; [exact Hn|] ].

Lemma render_left_to_right_kept (out : list Z) (n : nat)
    (segs : list powerline_segment_t) (separator : list Z) (a : append_ctx_t) :
  (n <= length out)%nat -> kept out n a ->
  kept out n (render_left_to_right lle_color_to_ansi segs separator a).
Proof.
  intros Hn. revert a. induction segs as [|seg rest IH]; intros a Ha; [exact Ha|].
  cbn [render_left_to_right]. destruct rest as [|next rest'].
  - cbn [render_left_to_right]. repeat kept_step Hn.
  - apply IH. repeat kept_step Hn.
Qed.

Lemma render_right_to_left_from_kept (out : list Z) (n : nat)
    (segs : list powerline_segment_t) (prev : option powerline_segment_t)
    (separator : list Z) (a : append_ctx_t) :
  (n <= length out)%nat -> kept out n a ->
  kept out n (render_right_to_left_from lle_color_to_ansi prev segs separator a).
Proof.
  intros Hn. revert prev a. induction segs as [|seg rest IH]; intros prev a Ha; [exact Ha|].
  cbn [render_right_to_left_from]. apply IH. destruct prev; repeat kept_step Hn.
Qed.

(** X24. [lle_powerline_render] answers [LLE_ERROR_INVALID_PARAMETER] and
    leaves the output alone when an argument is NULL or the size is zero.
    Otherwise, for any size the array has and in either direction, it
    answers [LLE_SUCCESS], the output is NUL-terminated within the size, no
    byte at or after the size is written, and with no visible segment the
    output is the empty string. *)
Theorem powerline_render_contract (theme : option lle_theme_t)
    (registry : option lle_segment_registry_t) (ctx : option lle_prompt_context_t)
    (direction : lle_powerline_direction_t) (output : option (list Z)) (n : nat) :
  let render :=
    lle_powerline_render lle_color_to_ansi lle_color_downgrade lle_segment_registry_t
      lle_segment_registry_find LLE_SEGMENT_OUTPUT_MAX in
  (theme = None \/ registry = None \/ ctx = None \/ output = None \/ n = 0%nat ->
   render theme registry ctx direction output n = (LLE_ERROR_INVALID_PARAMETER, output))
  /\ (forall th reg c out,
        theme = Some th -> registry = Some reg -> ctx = Some c -> output = Some out ->
        (0 < n <= length out)%nat ->
        exists out',
          render theme registry ctx direction output n = (LLE_SUCCESS, Some out')
          /\ length out' = length out
          /\ (strlen out' < n)%nat
          /\ drop n out' = drop n out
          /\ (collect_visible_segments lle_color_downgrade lle_segment_registry_t
                lle_segment_registry_find LLE_SEGMENT_OUTPUT_MAX th reg c
                POWERLINE_MAX_VISIBLE = [] -> c_str out' = [])).
Proof.
  intros render. unfold render, lle_powerline_render. split.
  - intros H. destruct theme, registry, ctx, output; try reflexivity.
    destruct H as [H|[H|[H|[H|H]]]]; try discriminate. now subst.
  - intros th reg c out -> -> -> -> Hn.
    destruct (Nat.eqb_spec n 0); [lia|].
    assert (H0 : kept out n {| buf := <[0%nat := 0]> out; size := n; pos := 0 |}).
    { unfold kept. cbn [buf size pos]. rewrite length_insert.
      repeat split; try lia; [apply list_lookup_insert_eq; lia | apply drop_insert_lt; lia]. }
    assert (Hfin : forall a, kept out n a ->
              length (buf a) = length out /\ (strlen (buf a) < n)%nat
              /\ drop n (buf a) = drop n out).
    { intros a (Hs & Hp & Hl & Hz & Hd). split; [exact Hl|]. split; [|exact Hd].
      pose proof (lookup_zero_strlen _ _ Hz). lia. }
    assert (Hempty : c_str (<[0%nat := 0]> out) = []).
    { destruct out; [simpl in Hn; lia | reflexivity]. }
    destruct (Nat.eqb_spec (length (enabled_segments th)) 0) as [He|He].
    { destruct (Hfin _ H0) as (F1 & F2 & F3). cbn [buf] in *.
      eexists. split; [reflexivity|]. repeat split; try assumption.
      intros _; exact Hempty. }
    set (visible := collect_visible_segments _ _ _ _ th reg c POWERLINE_MAX_VISIBLE).
    destruct (Nat.eqb_spec (length visible) 0) as [Hv|Hv].
    { destruct (Hfin _ H0) as (F1 & F2 & F3). cbn [buf] in *.
      eexists. split; [reflexivity|]. repeat split; try assumption.
      intros _; exact Hempty. }
    eexists. split; [reflexivity|].
    assert (Hk : kept out n
              match direction with
              | LLE_POWERLINE_LEFT_TO_RIGHT =>
                  render_left_to_right lle_color_to_ansi visible
                    (separator_for th direction)
                    {| buf := <[0%nat := 0]> out; size := n; pos := 0 |}
              | LLE_POWERLINE_RIGHT_TO_LEFT =>
                  render_right_to_left lle_color_to_ansi visible
                    (separator_for th direction)
                    {| buf := <[0%nat := 0]> out; size := n; pos := 0 |}
              end).
    { destruct direction.
      - apply render_left_to_right_kept; [lia | exact H0].
      - apply buf_append_reset_kept; [lia|].
        apply render_right_to_left_from_kept; [lia | exact H0]. }
    destruct (Hfin _ Hk) as (F1 & F2 & F3).
    split; [exact F1|]. split; [exact F2|]. split; [exact F3|].
    intros Hnil. fold visible in Hnil. rewrite Hnil in Hv. now contradict Hv.
Qed.
End PowerlineSafety.

Section StripExtras.
Import C Powerline.


Lemma strip_ansi_from_plain (a rest dst : list Z) (n : nat) :
  Forall text_byte a ->
  strip_ansi_from (a ++ rest) false n dst
  = strip_ansi_from rest false n (dst ++ take (n - 1 - length dst) a).
Proof.
  intros Ha. revert dst. induction Ha as [|c a (Hc0 & Hc27) _ IH]; intros dst.
  - now rewrite take_nil, app_nil_r.
  - cbn [app strip_ansi_from].
    destruct (Z.eqb_spec c 0); [contradiction|].
    destruct (Z.eqb_spec c 27); [contradiction|]. cbn [andb].
    assert (Hpush : (if (length dst + 1 <? n)%nat then dst ++ [c] else dst)
                    ++ take (n - 1 - length (if (length dst + 1 <? n)%nat
                                             then dst ++ [c] else dst)) a
                    = dst ++ take (n - 1 - length dst) (c :: a)).
    { destruct (Nat.ltb_spec (length dst + 1) n).
      - rewrite length_app, <- app_assoc. cbn [length app].
        replace (n - 1 - length dst)%nat with (S (n - 1 - (length dst + 1))) by lia.
        reflexivity.
      - replace (n - 1 - length dst)%nat with 0%nat by lia. reflexivity. }
    destruct (a ++ rest) as [|c2 l] eqn:El.
    + destruct a; [|discriminate]. simpl in El. subst rest.
      rewrite <- Hpush. rewrite take_nil, app_nil_r. reflexivity.
    + rewrite <- Hpush. apply IH.
Qed.

Lemma strip_ansi_from_skip (params rest dst : list Z) (f : Z) (n : nat) :
  Forall csi_inner params -> csi_final f \/ f = 0 ->
  strip_ansi_from (params ++ f :: rest) true n dst = strip_ansi_from rest false n dst.
Proof.
  intros Hp Hf. induction Hp as [|c params (Hc0 & Hc) _ IH].
  - cbn [app strip_ansi_from].
    destruct (Z.eqb_spec f 0); [reflexivity|]. cbn [negb andb].
    destruct Hf as [Hf|Hf]; [|contradiction]. unfold csi_final in Hf.
    destruct (Z.leb_spec 64 f); [|lia]. destruct (Z.leb_spec f 126); [|lia]. reflexivity.
  - cbn [app strip_ansi_from].
    destruct (Z.eqb_spec c 0); [contradiction|]. cbn [negb andb].
    destruct (Z.leb_spec 64 c); [|exact IH].
    destruct (Z.leb_spec c 126); [lia | exact IH].
Qed.

Lemma strip_ansi_from_csi (a params rest : list Z) (f : Z) (n : nat) :
  Forall text_byte a -> Forall csi_inner params -> csi_final f \/ f = 0 ->
  strip_ansi (a ++ 27 :: 91 :: params ++ f :: rest) n = strip_ansi (a ++ rest) n.
Proof.
  intros Ha Hp Hf. unfold strip_ansi. rewrite !strip_ansi_from_plain by assumption.
  cbn [strip_ansi_from]. change ((27 =? 27) && (91 =? 91)) with true. cbn iota.
  destruct (27 =? 0) eqn:E; [discriminate|].
  now apply strip_ansi_from_skip.
Qed.

(** X25. On a string with no ESC byte [strip_ansi] stores the string
    itself, cut to what the destination holds with its terminator. *)
Theorem strip_ansi_plain_text (s rest : list Z) (n : nat) :
  Forall text_byte s -> strip_ansi (s ++ 0 :: rest) n = take (n - 1) s.
Proof.
  intros Hs. unfold strip_ansi. rewrite strip_ansi_from_plain by assumption.
  cbn [strip_ansi_from length app]. now rewrite Nat.sub_0_r.
Qed.

(** X26. A CSI sequence, [ESC '['], parameter bytes and a final byte in
    [0x40..0x7E], after text with no ESC byte leaves no trace: the result is
    that of the string without the sequence. *)
Theorem strip_ansi_removes_csi (a params rest : list Z) (f : Z) (n : nat) :
  Forall text_byte a -> Forall csi_inner params -> csi_final f ->
  strip_ansi (a ++ 27 :: 91 :: params ++ f :: rest) n = strip_ansi (a ++ rest) n.
Proof. intros Ha Hp Hf. apply strip_ansi_from_csi; auto. Qed.

(** X27. When the string ends inside a CSI sequence, the scan steps over
    the terminating NUL and goes on with the bytes of the array that follow
    it: the result is that of the text before the sequence followed by those
    bytes. *)
Theorem strip_ansi_unterminated_csi (a params rest : list Z) (n : nat) :
  Forall text_byte a -> Forall csi_inner params ->
  strip_ansi (a ++ 27 :: 91 :: params ++ 0 :: rest) n = strip_ansi (a ++ rest) n.
Proof. intros Ha Hp. apply strip_ansi_from_csi; auto. Qed.

Lemma strip_ansi_from_length (src : list Z) (skipping : bool) (n : nat) (dst : list Z) :
  (length (strip_ansi_from src skipping n dst) <= Nat.max (length dst) (n - 1))%nat.
Proof.
  remember (length src) as k eqn:Hk. revert src skipping dst Hk.
  induction k as [k IH] using lt_wf_ind. intros src skipping dst Hk.
  destruct src as [|c src]; [simpl; lia|]. subst k.
  assert (IH' : forall s sk d, (length s < length (c :: src))%nat ->
            (length (strip_ansi_from s sk n d) <= Nat.max (length d) (n - 1))%nat).
  { intros s sk d Hs. exact (IH (length s) Hs s sk d eq_refl). }
  clear IH. rename IH' into IH. cbn [strip_ansi_from].
  assert (Hcons : (length (if (length dst + 1 <? n)%nat then dst ++ [c] else dst)
                   <= Nat.max (length dst) (n - 1))%nat).
  { destruct (Nat.ltb_spec (length dst + 1) n); [rewrite length_app; simpl|]; lia. }
  destruct skipping.
  - destruct (negb (c =? 0) && negb ((64 <=? c) && (c <=? 126)));
      apply IH; simpl; lia.
  - destruct (Z.eqb_spec c 0); [lia|].
    destruct src as [|c2 src'']; [exact Hcons|].
    destruct ((c =? 27) && (c2 =? 91)).
    + apply IH; simpl; lia.
    + etransitivity; [apply IH; simpl; lia|]. lia.
Qed.
End StripExtras.

Section PowerlineExtras.
Import C Powerline.
Variable lle_color_to_ansi : lle_color_t -> bool -> nat -> list Z.
Variable lle_color_downgrade : lle_color_t -> bool -> bool -> lle_color_t.
Variable lle_segment_registry_t : Type.
Variable lle_segment_registry_find :
  lle_segment_registry_t -> list Z -> option lle_prompt_segment_t.
Variable LLE_SEGMENT_OUTPUT_MAX : nat.

Lemma collect_from_bounded (theme : lle_theme_t) (registry : lle_segment_registry_t)
    (ctx : lle_prompt_context_t) (names : list (list Z))
    (out : list powerline_segment_t) (cap : nat) :
  Forall (fun seg => (length (seg_content seg) <= LLE_SEGMENT_OUTPUT_MAX - 1)%nat) out ->
  Forall (fun seg => (length (seg_content seg) <= LLE_SEGMENT_OUTPUT_MAX - 1)%nat)
    (collect_from lle_color_downgrade lle_segment_registry_t
       lle_segment_registry_find LLE_SEGMENT_OUTPUT_MAX theme registry ctx names out cap).
Proof.
  revert out. induction names as [|nm names IH]; intros out Hout; [exact Hout|].
  cbn [collect_from]. cbv zeta.
  destruct (Nat.ltb_spec (length out) cap) as [Hlt|]; [|assumption].
  repeat case_match; try (apply IH; assumption);
    apply IH;
    apply Forall_app; (split; [assumption|]);
    repeat constructor; cbn [seg_content]; unfold strip_ansi;
    (etransitivity; [apply strip_ansi_from_length | simpl; lia]).
Qed.

Lemma collect_from_length (theme : lle_theme_t) (registry : lle_segment_registry_t)
    (ctx : lle_prompt_context_t) (names : list (list Z))
    (out : list powerline_segment_t) (cap : nat) :
  (length out <= cap)%nat ->
  (length (collect_from lle_color_downgrade lle_segment_registry_t
             lle_segment_registry_find LLE_SEGMENT_OUTPUT_MAX theme registry ctx
             names out cap)
   <= Nat.min cap (length out + length names))%nat.
Proof.
  revert out. induction names as [|nm names IH]; intros out Hlen; [simpl; lia|].
  cbn [collect_from]. cbv zeta.
  destruct (Nat.ltb_spec (length out) cap) as [Hlt|]; [|simpl; lia].
  repeat case_match;
    try (etransitivity; [apply IH; lia | simpl; lia]);
    (etransitivity; [apply IH; rewrite length_app; simpl; lia
                    | rewrite length_app; simpl; lia]).
Qed.

(** X28. [collect_visible_segments] stores at most [out_capacity] segments
    and at most one per enabled name; each stored length is the length of
    the stored content, which holds no NUL and fits the content array with
    its terminator. *)
Theorem collect_visible_segments_bounds (theme : lle_theme_t)
    (registry : lle_segment_registry_t) (ctx : lle_prompt_context_t) (cap : nat) :
  let visible :=
    collect_visible_segments lle_color_downgrade lle_segment_registry_t
      lle_segment_registry_find LLE_SEGMENT_OUTPUT_MAX theme registry ctx cap in
  (length visible <= cap)%nat
  /\ (length visible <= length (enabled_segments theme))%nat
  /\ Forall (fun seg =>
               seg_content_len seg = length (seg_content seg)
               /\ Forall (fun c => c <> 0) (seg_content seg)
               /\ (length (seg_content seg) <= LLE_SEGMENT_OUTPUT_MAX - 1)%nat) visible.
Proof.
  intros visible. unfold visible, collect_visible_segments.
  pose proof (collect_from_length theme registry ctx (enabled_segments theme) [] cap
                ltac:(simpl; lia)) as Hl. simpl in Hl.
  split; [lia|]. split; [lia|].
  pose proof (collect_from_stored lle_color_downgrade lle_segment_registry_t
                lle_segment_registry_find LLE_SEGMENT_OUTPUT_MAX theme registry ctx
                (enabled_segments theme) [] cap ltac:(constructor)) as Hs.
  pose proof (collect_from_bounded theme registry ctx (enabled_segments theme) [] cap
                ltac:(constructor)) as Hb.
  rewrite Forall_forall in *. intros seg Hseg.
  destruct (Hs seg Hseg) as (H1 & H2). split; [exact H1|]. split; [exact H2|].
  now apply Hb.
Qed.
End PowerlineExtras.

Section PowerlineTextExtras.
Import C Powerline.
Variable lle_color_to_ansi : lle_color_t -> bool -> nat -> list Z.
Variable lle_color_downgrade : lle_color_t -> bool -> bool -> lle_color_t.
Variable lle_segment_registry_t : Type.
Variable lle_segment_registry_find :
  lle_segment_registry_t -> list Z -> option lle_prompt_segment_t.
Variable LLE_SEGMENT_OUTPUT_MAX : nat.

Lemma append_step (n : nat) (x : append_ctx_t) (u d : list Z) :
  holds x u -> size x = n -> (length u + length d < n)%nat ->
  holds (buf_append x d) (u ++ d) /\ size (buf_append x d) = n.
Proof. intros Hx Hn Hd. rewrite <- Hn. apply buf_append_holds; [assumption | lia]. Qed.

Lemma append_color_step (n : nat) (x : append_ctx_t) (u d : list Z) :
  holds x u -> size x = n -> (length u + length d < n)%nat ->
  holds (if (0 <? length d)%nat then buf_append x d else x) (u ++ d)
  /\ size (if (0 <? length d)%nat then buf_append x d else x) = n.
Proof.
  intros Hx Hn Hd. destruct (Nat.ltb_spec 0 (length d)).
  - now apply append_step.
  - destruct d; [|simpl in *; lia]. rewrite app_nil_r. now split.
Qed.

Lemma render_right_to_left_from_holds (segs : list powerline_segment_t)
    (prev : option powerline_segment_t) (separator : list Z) (a : append_ctx_t)
    (t : list Z) (n : nat) :
  holds a t -> size a = n ->
  (length t + length (rtl_segments lle_color_to_ansi prev segs (c_str separator)) < n)%nat ->
  holds (render_right_to_left_from lle_color_to_ansi prev segs separator a)
        (t ++ rtl_segments lle_color_to_ansi prev segs (c_str separator))
  /\ size (render_right_to_left_from lle_color_to_ansi prev segs separator a) = n.
Proof.
  revert prev a t. induction segs as [|seg rest IH]; intros prev a t Ha Hsz Hfit.
  - simpl. now rewrite app_nil_r.
  - cbn [rtl_segments] in *. cbn [render_right_to_left_from].
    set (A1 := lle_color_to_ansi (bg seg) false 32) in *.
    set (A2 := lle_color_to_ansi (fg seg) true 32) in *.
    set (A3 := lle_color_to_ansi (bg seg) true 32) in *.
    set (body := take (seg_content_len seg) (seg_content seg)) in *.
    set (sp := c_str separator) in *.
    set (tail := rtl_segments lle_color_to_ansi (Some seg) rest sp) in *.
    unfold buf_append_color_bg, buf_append_color_fg, Powerline.buf_append_str.
    fold A1 A2 A3 body sp. change (c_str (lit " ")) with [32].
    repeat first [rewrite length_app in Hfit | progress cbn [length] in Hfit].
    destruct (append_color_step n a t A3 Ha Hsz ltac:(lia)) as (H1 & S1).
    assert (Hsep : exists x,
              x = match prev with
                  | Some prev0 =>
                      buf_append
                        (if (0 <? length (lle_color_to_ansi (bg prev0) false 32))%nat
                         then buf_append (if (0 <? length A3)%nat then buf_append a A3 else a)
                                (lle_color_to_ansi (bg prev0) false 32)
                         else if (0 <? length A3)%nat then buf_append a A3 else a) sp
                  | None => buf_append (if (0 <? length A3)%nat then buf_append a A3 else a) sp
                  end
              /\ holds x ((t ++ A3 ++ match prev with
                                      | None => []
                                      | Some p => lle_color_to_ansi (bg p) false 32
                                      end) ++ sp)
              /\ size x = n).
    { eexists. split; [reflexivity|]. destruct prev as [p|].
      - destruct (append_color_step n _ _ (lle_color_to_ansi (bg p) false 32) H1 S1
                    ltac:(rewrite length_app; lia)) as (H2 & S2).
        rewrite <- app_assoc in H2.
        apply append_step; [exact H2 | exact S2 | rewrite !length_app; lia].
      - rewrite app_nil_r. apply append_step; [exact H1 | exact S1 | rewrite length_app; lia]. }
    destruct Hsep as (x & -> & H3 & S3).
    destruct (append_color_step n _ _ A1 H3 S3 ltac:(rewrite !length_app; cbn [length]; lia)) as (H4 & S4).
    destruct (append_color_step n _ _ A2 H4 S4 ltac:(rewrite !length_app; cbn [length]; lia)) as (H5 & S5).
    destruct (append_step n _ _ [32] H5 S5 ltac:(rewrite !length_app; cbn [length]; lia)) as (H6 & S6).
    destruct (append_step n _ _ body H6 S6 ltac:(rewrite !length_app; cbn [length]; lia)) as (H7 & S7).
    destruct (append_step n _ _ [32] H7 S7 ltac:(rewrite !length_app; cbn [length]; lia)) as (H8 & S8).
    match goal with
    | |- holds (render_right_to_left_from _ _ _ _ ?x) _ /\ _ =>
        pose proof (IH (Some seg) x _ H8 S8) as Hrest
    end.
    fold sp tail in Hrest.
    specialize (Hrest ltac:(rewrite !length_app; cbn [length]; lia)).
    repeat rewrite <- app_assoc in Hrest. repeat rewrite <- app_assoc.
    exact Hrest.
Qed.

Lemma holds_array (a : append_ctx_t) (t : list Z) :
  holds a t -> take (length t) (buf a) = t /\ buf a !! length t = Some 0.
Proof. intros H. pose proof (holds_length a t H) as ->. now destruct H as (_ & ? & ?). Qed.

(** X29. A left-to-right render whose text fits the output stores exactly
    that text: for each visible segment its background, its foreground and
    the padded content, then the transition colours and the separator, with
    a reset around the last separator; a NUL follows it. *)
Theorem render_left_to_right_text (theme : lle_theme_t)
    (registry : lle_segment_registry_t) (ctx : lle_prompt_context_t)
    (out : list Z) (n : nat) :
  let visible :=
    collect_visible_segments lle_color_downgrade lle_segment_registry_t
      lle_segment_registry_find LLE_SEGMENT_OUTPUT_MAX theme registry ctx
      POWERLINE_MAX_VISIBLE in
  let text :=
    ltr_text lle_color_to_ansi visible
      (c_str (separator_for theme LLE_POWERLINE_LEFT_TO_RIGHT)) in
  (0 < n <= length out)%nat -> (length text < n)%nat ->
  exists out',
    lle_powerline_render lle_color_to_ansi lle_color_downgrade
      lle_segment_registry_t lle_segment_registry_find LLE_SEGMENT_OUTPUT_MAX
      (Some theme) (Some registry) (Some ctx) LLE_POWERLINE_LEFT_TO_RIGHT
      (Some out) n
    = (LLE_SUCCESS, Some out')
    /\ take (length text) out' = text /\ out' !! length text = Some 0.
Proof.
  intros visible text Hn Hfit. unfold lle_powerline_render.
  destruct (Nat.eqb_spec n 0); [lia|].
  set (a0 := {| buf := <[0%nat := 0%Z]> out; size := n; pos := 0 |}).
  assert (Ha0 : holds a0 []).
  { unfold holds, a0. simpl. rewrite length_insert. repeat split; try lia.
    apply list_lookup_insert_eq. lia. }
  assert (Hnone : visible = [] ->
            take (length text) (<[0%nat := 0%Z]> out) = text
            /\ <[0%nat := 0%Z]> out !! length text = Some 0).
  { intros Hv. unfold text. rewrite Hv. exact (holds_array a0 [] Ha0). }
  destruct (Nat.eqb_spec (length (enabled_segments theme)) 0) as [He|He].
  { eexists. split; [reflexivity|]. apply Hnone.
    unfold visible, collect_visible_segments.
    destruct (enabled_segments theme); [reflexivity | discriminate]. }
  fold visible.
  destruct (Nat.eqb_spec (length visible) 0) as [Hv|Hv].
  { eexists. split; [reflexivity|]. apply Hnone. now destruct visible. }
  eexists. split; [reflexivity|]. fold a0.
  pose proof (render_left_to_right_holds lle_color_to_ansi visible
                (separator_for theme LLE_POWERLINE_LEFT_TO_RIGHT) a0 [] Ha0) as Hr.
  fold text in Hr. specialize (Hr ltac:(simpl; lia)).
  exact (holds_array _ _ Hr).
Qed.

(** X30. A right-to-left render whose text fits the output stores exactly
    that text: before each visible segment the separator in the segment's
    background as foreground, over the previous segment's background except
    for the first, then the segment's colours and padded content, and one
    reset at the end; with no visible segment the output is empty, without a
    reset. *)
Theorem render_right_to_left_text (theme : lle_theme_t)
    (registry : lle_segment_registry_t) (ctx : lle_prompt_context_t)
    (out : list Z) (n : nat) :
  let visible :=
    collect_visible_segments lle_color_downgrade lle_segment_registry_t
      lle_segment_registry_find LLE_SEGMENT_OUTPUT_MAX theme registry ctx
      POWERLINE_MAX_VISIBLE in
  let text :=
    match visible with
    | [] => []
    | _ :: _ =>
        rtl_text lle_color_to_ansi visible
          (c_str (separator_for theme LLE_POWERLINE_RIGHT_TO_LEFT))
    end in
  (0 < n <= length out)%nat -> (length text < n)%nat ->
  exists out',
    lle_powerline_render lle_color_to_ansi lle_color_downgrade
      lle_segment_registry_t lle_segment_registry_find LLE_SEGMENT_OUTPUT_MAX
      (Some theme) (Some registry) (Some ctx) LLE_POWERLINE_RIGHT_TO_LEFT
      (Some out) n
    = (LLE_SUCCESS, Some out')
    /\ take (length text) out' = text /\ out' !! length text = Some 0.
Proof.
  intros visible text Hn Hfit. unfold lle_powerline_render.
  destruct (Nat.eqb_spec n 0); [lia|].
  set (a0 := {| buf := <[0%nat := 0%Z]> out; size := n; pos := 0 |}).
  assert (Ha0 : holds a0 []).
  { unfold holds, a0. simpl. rewrite length_insert. repeat split; try lia.
    apply list_lookup_insert_eq. lia. }
  assert (Hnone : visible = [] ->
            take (length text) (<[0%nat := 0%Z]> out) = text
            /\ <[0%nat := 0%Z]> out !! length text = Some 0).
  { intros Hv. unfold text. rewrite Hv. exact (holds_array a0 [] Ha0). }
  destruct (Nat.eqb_spec (length (enabled_segments theme)) 0) as [He|He].
  { eexists. split; [reflexivity|]. apply Hnone.
    unfold visible, collect_visible_segments.
    destruct (enabled_segments theme); [reflexivity | discriminate]. }
  fold visible.
  destruct (Nat.eqb_spec (length visible) 0) as [Hv|Hv].
  { eexists. split; [reflexivity|]. apply Hnone. now destruct visible. }
  eexists. split; [reflexivity|]. fold a0.
  assert (Ht : text = rtl_text lle_color_to_ansi visible
                        (c_str (separator_for theme LLE_POWERLINE_RIGHT_TO_LEFT))).
  { unfold text. destruct visible; [now contradict Hv | reflexivity]. }
  rewrite Ht in *. unfold rtl_text in *. rewrite length_app in Hfit.
  destruct (render_right_to_left_from_holds visible None
              (separator_for theme LLE_POWERLINE_RIGHT_TO_LEFT) a0 [] n Ha0 eq_refl
              ltac:(change (length (@nil Z)) with 0%nat; lia)) as (Hr & Hs).
  rewrite app_nil_l in Hr.
  destruct (append_step n _ _ reset_text Hr Hs ltac:(lia)) as (Hfin & _).
  exact (holds_array _ _ Hfin).
Qed.
End PowerlineTextExtras.

(** * The theorems at concrete inputs *)

(** A NULL format, and a six-byte format in a buffer of four. *)
Lemma lle_prompt_expand_contract_witness :
  Expansion.lle_prompt_expand (sample_env 1000 1000) sample_template
    None (Some [7; 7]) 2 (Some (sample_ctx 3))
  = Some (LLE_ERROR_NULL_POINTER, Some [7; 7])
  /\ exists r out',
       Expansion.lle_prompt_expand (sample_env 1000 1000) sample_template
         (Some (C.lit "abcdef")) (Some (repeat 7 4)) 4 (Some (sample_ctx 3))
       = Some (r, Some out')
       /\ (C.strlen out' < 4)%nat
       /\ out' !! C.strlen out' = Some 0.
Proof.
  split.
  - apply (proj1 (lle_prompt_expand_contract (sample_env 1000 1000) sample_template
                    None (Some [7; 7]) 2 (Some (sample_ctx 3)))).
    left. reflexivity.
  - destruct (proj1 (proj2 (lle_prompt_expand_contract (sample_env 1000 1000)
                              sample_template (Some (C.lit "abcdef"))
                              (Some (repeat 7 4)) 4 (Some (sample_ctx 3))))
                _ _ _ eq_refl eq_refl eq_refl ltac:(simpl; lia))
      as (r & out' & H1 & _ & H3 & H4 & _).
    exists r, out'. repeat split; assumption.
Defined.



Lemma runner_error_results_witness :
  exists out w',
    GitCommand.git_command_with_timeout 8 (Some (C.lit "git status")) (Some (repeat 7 16))
      16 250 timeout_world
    = (Some (GitCommand.Returns {| GitCommand.exit_status := -1;
                                   GitCommand.timed_out := true |}, out), w').
Proof.
  apply (proj1 (proj2 (proj2 (runner_error_results 8 (C.lit "git status")
                                (Some (repeat 7 16)) 16 250 timeout_world)))).
  - simpl. lia.
  - simpl. lia.
  - reflexivity.
Defined.

Lemma zero_timeout_is_default_witness :
  exists evs,
    GitCommand.trace
      (snd (GitCommand.git_command_with_timeout 8 (Some (C.lit "git status"))
              (Some (repeat 7 16)) 16 0 timeout_world))
    = GitCommand.trace timeout_world
      ++ [GitCommand.Pipe; GitCommand.Fork; GitCommand.Close 4;
          GitCommand.Select 4 (Some 3) 3 0] ++ evs.
Proof.
  apply (proj2 (zero_timeout_is_default 8 (Some (C.lit "git status"))
                  (Some (repeat 7 16)) 16 0 timeout_world ltac:(lia))
           (C.lit "git status") eq_refl eq_refl).
  - simpl. lia.
  - simpl. lia.
Defined.

Lemma submit_contract_witness :
  StronglySorted Z.lt (AsyncWorker.assigned_ids 32 AsyncWorker.init_system sample_ops)
  /\ AsyncWorker.assigned_ids 32 AsyncWorker.init_system sample_ops = [1; 2; 3].
Proof.
  split; [|reflexivity].
  apply (proj2 (proj2 (proj2 (proj2 (submit_contract 32))))).
  vm_compute. reflexivity.
Defined.

Lemma accounting_identity_witness :
  let s := AsyncWorker.run 32 sample_ops in
  AsyncWorker.total_completed (AsyncWorker.worker s) + AsyncWorker.pending s
  + AsyncWorker.in_flight s
  = AsyncWorker.total_requests (AsyncWorker.worker s).
Proof.
  apply (proj2 (accounting_identity 32 sample_ops)).
  vm_compute. reflexivity.
Defined.

Lemma sample_ansi_ascii (c : Powerline.lle_color_t) (f : bool) (n : nat) :
  Forall (fun x => 0 < x < 128) (sample_ansi c f n).
Proof.
  unfold sample_ansi. destruct (Powerline.mode c), f;
    try constructor; repeat constructor.
Qed.

(** The default separator U+E0B0 and one visible segment. *)
Lemma powerline_separator_count_witness :
  exists out',
    Powerline.lle_powerline_render sample_ansi sample_downgrade unit sample_find 256
      (Some (sample_theme [])) (Some tt) (Some sample_context)
      Powerline.LLE_POWERLINE_LEFT_TO_RIGHT (Some (repeat 7 64)) 64
    = (LLE_SUCCESS, Some out')
    /\ occurrences [238; 130; 176] (C.c_str out') = 1%nat.
Proof.
  apply (powerline_separator_count sample_ansi sample_downgrade unit sample_find 256
           (sample_theme []) tt sample_context (repeat 7 64) 64).
  - simpl. lia.
  - vm_compute. lia.
  - vm_compute. repeat constructor.
  - intros c f. eapply Forall_impl; [apply sample_ansi_ascii|].
    simpl. intros x Hx. lia.
  - assert (Hx : forall x, In x [238; 130; 176] ->
              x <> 32 /\ ~ In x reset_text
              /\ forall c f, ~ In x (sample_ansi c f 32)).
    { intros x Hx. assert (128 <= x) by (simpl in Hx; lia). split; [|split].
      - lia.
      - intros Hin. vm_compute in Hin. lia.
      - intros c f Hin. pose proof (sample_ansi_ascii c f 32) as Hb.
        rewrite Forall_forall in Hb. apply list_elem_of_In in Hin.
        specialize (Hb x Hin). lia. }
    apply Forall_forall. intros x Hin. apply Hx. now apply list_elem_of_In.
Defined.

(** C9 as the claim words it fails: with a space as the theme's separator
    the buffer is large enough and the one visible segment's content holds
    no space, yet the separator occurs three times in the output. *)
Lemma powerline_separator_count_counterexample :
  let visible :=
    Powerline.collect_visible_segments sample_downgrade unit sample_find 256
      (sample_theme [32]) tt sample_context Powerline.POWERLINE_MAX_VISIBLE in
  let sep := C.c_str (Powerline.separator_for (sample_theme [32])
                        Powerline.LLE_POWERLINE_LEFT_TO_RIGHT) in
  sep = [32]
  /\ length visible = 1%nat
  /\ (length (ltr_text sample_ansi visible sep) < 64)%nat
  /\ Forall (fun seg => occurrences sep (Powerline.seg_content seg) = 0%nat) visible
  /\ exists out',
       Powerline.lle_powerline_render sample_ansi sample_downgrade unit sample_find 256
         (Some (sample_theme [32])) (Some tt) (Some sample_context)
         Powerline.LLE_POWERLINE_LEFT_TO_RIGHT (Some (repeat 7 64)) 64
       = (LLE_SUCCESS, Some out')
       /\ occurrences sep (C.c_str out') = 3%nat
       /\ occurrences sep (C.c_str out') <> length visible.
Proof.
  cbv zeta. split; [reflexivity|]. split; [reflexivity|].
  split; [vm_compute; lia|]. split; [vm_compute; repeat constructor|].
  eexists. split; [vm_compute; reflexivity|].
  split; [vm_compute; reflexivity | vm_compute; lia].
Qed.

(** ** The further properties at concrete inputs *)

Lemma expand_stays_in_bounds_witness :
  exists r out',
    Expansion.lle_prompt_expand (sample_env 1000 1000) sample_template
      (Some (C.lit "\u@\h:\w")) (Some (repeat 7 8)) 4 (Some (sample_ctx 3))
    = Some (r, Some out')
    /\ length out' = 8%nat
    /\ drop 4 out' = repeat 7 4.
Proof.
  apply (expand_stays_in_bounds (sample_env 1000 1000) sample_template
           (C.lit "\u@\h:\w") (repeat 7 8) 4 (sample_ctx 3)).
  simpl. lia.
Defined.

Lemma fixed_escapes_expand_witness :
  expansion (sample_env 1000 1000) sample_template (sample_ctx 3)
    (C.lit "%Bok") 16 (repeat 7 16)
  = Some (27 :: C.lit "[1mok").
Proof.
  apply (fixed_escapes_expand (sample_env 1000 1000) sample_template (sample_ctx 3)
           (C.lit "%B") (27 :: C.lit "[1m") (C.lit "ok") (C.lit "ok") (repeat 7 16) 16).
  - do 8 right. left. reflexivity.
  - reflexivity.
  - simpl. lia.
  - vm_compute. reflexivity.
  - simpl. lia.
Defined.

Lemma unknown_escapes_pass_through_witness :
  expansion (sample_env 1000 1000) sample_template (sample_ctx 3)
    (C.lit "\qok") 16 (repeat 7 16) = Some (C.lit "\qok")
  /\ expansion (sample_env 1000 1000) sample_template (sample_ctx 3)
       (C.lit "%qok") 16 (repeat 7 16) = Some (C.lit "%qok").
Proof.
  destruct (unknown_escapes_pass_through (sample_env 1000 1000) sample_template
              (sample_ctx 3) 113 (C.lit "ok") (C.lit "ok") (repeat 7 16) 16)
    as [Hb Hz].
  - lia.
  - reflexivity.
  - simpl. lia.
  - vm_compute. reflexivity.
  - simpl. lia.
  - split; [apply Hb | apply Hz]; intros Hin; simpl in Hin; lia.
Defined.

Lemma trailing_escape_char_literal_witness :
  expansion (sample_env 1000 1000) sample_template (sample_ctx 3)
    (C.lit "ok\") 16 (repeat 7 16) = Some (C.lit "ok\").
Proof.
  apply (trailing_escape_char_literal (sample_env 1000 1000) sample_template
           (sample_ctx 3) 92 (C.lit "ok") (repeat 7 16) 16).
  - left. reflexivity.
  - repeat constructor; simpl; lia.
  - repeat constructor; simpl; lia.
  - reflexivity.
  - simpl. lia.
Defined.

Lemma numeric_escapes_value_witness :
  expansion (sample_env 1000 1000) sample_template (sample_ctx 3)
    (C.lit "\0101ok") 16 (repeat 7 16) = Some (C.lit "Aok")
  /\ expansion (sample_env 1000 1000) sample_template (sample_ctx 3)
       (C.lit "\0777ok") 16 (repeat 7 16) = Some (C.lit "ok")
  /\ expansion (sample_env 1000 1000) sample_template (sample_ctx 3)
       (C.lit "\x41ok") 16 (repeat 7 16) = Some (C.lit "Aok").
Proof.
  destruct (numeric_escapes_value (sample_env 1000 1000) sample_template
              (sample_ctx 3) (C.lit "ok") (C.lit "ok") (repeat 7 16) 16)
    as [Hoct Hhex].
  - reflexivity.
  - simpl. lia.
  - vm_compute. reflexivity.
  - split; [|split].
    + apply (Hoct 49 48 49); unfold is_octal; simpl; lia.
    + apply (Hoct 55 55 55); unfold is_octal; simpl; lia.
    + apply (Hhex 52 49 4 1); [reflexivity | reflexivity | lia | simpl; lia].
Defined.

Lemma nul_escape_cuts_output_witness :
  expansion (sample_env 1000 1000) sample_template (sample_ctx 3)
    (C.lit "ab\0zz") 16 (repeat 7 16) = Some (C.lit "ab")
  /\ expansion (sample_env 1000 1000) sample_template (sample_ctx 3)
       (C.lit "ab\xzz") 16 (repeat 7 16) = Some (C.lit "ab").
Proof.
  destruct (nul_escape_cuts_output (sample_env 1000 1000) sample_template
              (sample_ctx 3) (C.lit "ab") (C.lit "zz") (repeat 7 16) 16)
    as [Hoct Hhex].
  - repeat constructor; simpl; lia.
  - repeat constructor; simpl; lia.
  - reflexivity.
  - simpl. lia.
  - simpl. lia.
  - split; [apply Hoct | apply Hhex]; unfold is_octal, is_hex; simpl; lia.
Defined.

Lemma zsh_synonyms_agree_witness :
  Expansion.lle_prompt_expand (sample_env 1000 1000) sample_template
    (Some (C.lit "%n@")) (Some (repeat 7 16)) 16 (Some (sample_ctx 3))
  = Expansion.lle_prompt_expand (sample_env 1000 1000) sample_template
      (Some (C.lit "\u@")) (Some (repeat 7 16)) 16 (Some (sample_ctx 3)).
Proof.
  apply (zsh_synonyms_agree (sample_env 1000 1000) sample_template (sample_ctx 3)
           (C.lit "%n") (C.lit "\u") (C.lit "@") (repeat 7 16) 16).
  - left. reflexivity.
  - reflexivity.
Defined.

Lemma zsh_hash_real_uid_witness :
  expansion (sample_env 0 1000) sample_template (sample_ctx 3)
    (C.lit "%# ") 16 (repeat 7 16) = Some (C.lit "# ").
Proof.
  apply (zsh_hash_real_uid (sample_env 0 1000) sample_template (sample_ctx 3)
           (C.lit " ") (C.lit " ") (repeat 7 16) 16).
  - reflexivity.
  - simpl. lia.
  - vm_compute. reflexivity.
  - simpl. lia.
Defined.

Lemma hex_color_stays_in_cube_witness :
  exists idx,
    16 <= idx <= 231
    /\ Expansion.emit_color (Expansion.buf_init (repeat 7 32) 32) (C.lit "#FF0000") 2 true
       = Expansion.buf_append_str (Expansion.buf_init (repeat 7 32) 32)
           (Some (Expansion.esc_256 true idx)).
Proof.
  apply (hex_color_stays_in_cube (Expansion.buf_init (repeat 7 32) 32) true
           70 70 48 48 48 48 15 15 0 0 0 0); reflexivity.
Defined.

Lemma child_never_returns_witness :
  exists o out w' evs,
    GitCommand.git_command_with_timeout 8 (Some (C.lit "git status"))
      (Some (repeat 7 16)) 16 250 child_world
    = (Some (o, out), w')
    /\ ends_in_child (C.lit "git status") o
    /\ GitCommand.trace w' = [GitCommand.Pipe; GitCommand.Fork] ++ evs
    /\ Forall child_call evs.
Proof.
  apply (child_never_returns 8 (C.lit "git status") (Some (repeat 7 16)) 16 250
           child_world).
  - simpl. lia.
  - reflexivity.
Defined.

Lemma exit_status_in_range_witness :
  fst (GitCommand.git_command_with_timeout 8 (Some (C.lit "git status"))
         (Some (repeat 7 16)) 16 250 reading_world)
  = Some (GitCommand.Returns {| GitCommand.exit_status := 3;
                                GitCommand.timed_out := false |},
          Some (C.lit "ok" ++ repeat 0 2 ++ repeat 7 12))
  /\ status_in_range
       (GitCommand.Returns {| GitCommand.exit_status := 3;
                              GitCommand.timed_out := false |},
        Some (C.lit "ok" ++ repeat 0 2 ++ repeat 7 12)).
Proof.
  split; [vm_compute; reflexivity|].
  apply (exit_status_in_range 8 (Some (C.lit "git status")) (Some (repeat 7 16)) 16 250
           reading_world
           (snd (GitCommand.git_command_with_timeout 8 (Some (C.lit "git status"))
                   (Some (repeat 7 16)) 16 250 reading_world))).
  vm_compute. reflexivity.
Defined.

Lemma failed_wait_kills_child_witness :
  exists w',
    GitCommand.git_command_with_timeout 8 (Some (C.lit "git status"))
      (Some (repeat 7 16)) 16 250 timeout_world
    = (Some (GitCommand.Returns {| GitCommand.exit_status := -1;
                                   GitCommand.timed_out := true |},
             Some (0 :: repeat 7 15)), w')
    /\ GitCommand.trace w'
       = [GitCommand.Pipe; GitCommand.Fork; GitCommand.Close 4;
          GitCommand.Select 4 (Some 3) 0 250000;
          GitCommand.Close 3; GitCommand.Kill 4242 GitCommand.SIGTERM;
          GitCommand.Select 0 None 0 100000;
          GitCommand.Waitpid 4242 GitCommand.WNOHANG].
Proof.
  apply (failed_wait_kills_child 8 (C.lit "git status") (Some (repeat 7 16)) 16 250
           timeout_world).
  - simpl. lia.
  - simpl. lia.
  - left. reflexivity.
Defined.

Lemma read_all_available_bounds_witness :
  fst (GitCommand.read_all_available 8 3 (Some (repeat 7 8)) 4 reading_world)
  = Some (3, Some (C.lit "ok" ++ [10; 0; 7; 7; 7; 7]))
  /\ exists arr',
       Some (C.lit "ok" ++ [10; 0; 7; 7; 7; 7]) = Some arr'
       /\ 0 <= 3 <= Z.of_nat (4 - 1)
       /\ length arr' = length (repeat 7 8)
       /\ arr' !! Z.to_nat 3 = Some 0
       /\ (C.strlen arr' <= Z.to_nat 3)%nat
       /\ drop 4 arr' = drop 4 (repeat 7 8).
Proof.
  split; [vm_compute; reflexivity|].
  apply (read_all_available_bounds 8 3 (repeat 7 8) 4 reading_world
           (snd (GitCommand.read_all_available 8 3 (Some (repeat 7 8)) 4 reading_world))).
  - simpl. lia.
  - vm_compute. reflexivity.
Defined.

Lemma stale_eintr_never_returns_full_witness :
  fst (GitCommand.drain_full 1000 3 stale_world) = None
  /\ forall k o w',
       GitCommand.read_all_available 1000 3 (Some (repeat 7 8)) 4 stale_world
       = (Some (k, o), w') -> k < 3.
Proof.
  destruct (stale_eintr_never_returns_full 1000 3 (repeat 7 8) 4 stale_world)
    as [Hd Hr].
  - reflexivity.
  - intros tr c. simpl. lia.
  - split; [exact Hd | apply Hr; lia].
Defined.

Lemma queue_stays_bounded_witness :
  let w := AsyncWorker.worker (AsyncWorker.run 2 sample_ops) in
  AsyncWorker.lle_async_worker_pending_count (Some w)
  = Z.of_nat (length (AsyncWorker.queue w))
  /\ Z.of_nat (length (AsyncWorker.queue w)) <= 2.
Proof.
  apply (queue_stays_bounded 2 sample_ops). lia.
Defined.

Lemma porcelain_counts_by_line_witness :
  AsyncWorker.count_porcelain (join_lines sample_lines)
  = Some {| AsyncWorker.staged_count := 2;
            AsyncWorker.unstaged_count := 2;
            AsyncWorker.untracked_count := 1 |}.
Proof.
  apply (porcelain_counts_by_line sample_lines).
  repeat constructor; simpl; lia.
Defined.

Lemma strip_ansi_plain_text_witness :
  Powerline.strip_ansi (C.lit "~/src" ++ 0 :: [7; 7]) 4 = C.lit "~/s".
Proof.
  apply (strip_ansi_plain_text (C.lit "~/src") [7; 7] 4).
  repeat constructor; simpl; lia.
Defined.

Lemma strip_ansi_removes_csi_witness :
  Powerline.strip_ansi (C.lit "ab" ++ 27 :: 91 :: C.lit "1;31" ++ 109 :: C.lit "cd") 16
  = Powerline.strip_ansi (C.lit "abcd") 16.
Proof.
  apply (strip_ansi_removes_csi (C.lit "ab") (C.lit "1;31") (C.lit "cd") 109 16).
  - repeat constructor; simpl; lia.
  - repeat constructor; simpl; lia.
  - unfold csi_final. lia.
Defined.

Lemma strip_ansi_unterminated_csi_witness :
  Powerline.strip_ansi (C.lit "ab" ++ 27 :: 91 :: C.lit "1;31" ++ 0 :: C.lit "XY") 16
  = Powerline.strip_ansi (C.lit "abXY") 16.
Proof.
  apply (strip_ansi_unterminated_csi (C.lit "ab") (C.lit "1;31") (C.lit "XY") 16).
  - repeat constructor; simpl; lia.
  - repeat constructor; simpl; lia.
Defined.

Lemma render_left_to_right_text_witness :
  let text := (27 :: C.lit "[48;5;25m") ++ (27 :: C.lit "[38;5;255m") ++ C.lit " ~/src "
              ++ reset_text ++ (27 :: C.lit "[38;5;255m") ++ [238; 130; 176]
              ++ reset_text in
  exists out',
    Powerline.lle_powerline_render sample_ansi sample_downgrade unit sample_find 256
      (Some (sample_theme [])) (Some tt) (Some sample_context)
      Powerline.LLE_POWERLINE_LEFT_TO_RIGHT (Some (repeat 7 64)) 64
    = (LLE_SUCCESS, Some out')
    /\ take (length text) out' = text /\ out' !! length text = Some 0.
Proof.
  apply (render_left_to_right_text sample_ansi sample_downgrade unit sample_find 256
           (sample_theme []) tt sample_context (repeat 7 64) 64).
  - simpl. lia.
  - vm_compute. lia.
Defined.

Lemma render_right_to_left_text_witness :
  let text := (27 :: C.lit "[38;5;255m") ++ [238; 130; 178]
              ++ (27 :: C.lit "[48;5;25m") ++ (27 :: C.lit "[38;5;255m")
              ++ C.lit " ~/src " ++ reset_text in
  exists out',
    Powerline.lle_powerline_render sample_ansi sample_downgrade unit sample_find 256
      (Some (sample_theme [])) (Some tt) (Some sample_context)
      Powerline.LLE_POWERLINE_RIGHT_TO_LEFT (Some (repeat 7 64)) 64
    = (LLE_SUCCESS, Some out')
    /\ take (length text) out' = text /\ out' !! length text = Some 0.
Proof.
  apply (render_right_to_left_text sample_ansi sample_downgrade unit sample_find 256
           (sample_theme []) tt sample_context (repeat 7 64) 64).
  - simpl. lia.
  - vm_compute. lia.
Defined.

Lemma hostname_short_is_prefix_witness :
  Expansion.get_hostname_full (sample_env 1000 1000) 64 = C.lit "hq.example"
  /\ Expansion.get_hostname_short (sample_env 1000 1000) 64 = C.lit "hq"
  /\ exists rest,
       Expansion.get_hostname_full (sample_env 1000 1000) 64
       = Expansion.get_hostname_short (sample_env 1000 1000) 64 ++ rest
       /\ (rest = [] \/ C.peek rest = 46).
Proof.
  split; [reflexivity|]. split; [reflexivity|].
  apply (proj1 (hostname_short_is_prefix (sample_env 1000 1000) 64)).
Defined.

Lemma cwd_basename_no_slash_witness :
  Expansion.get_cwd_basename (sample_env 1000 1000) 64 = C.lit "src"
  /\ ~ In 47 (Expansion.get_cwd_basename (sample_env 1000 1000) 64)
  /\ exists pre,
       C.lit "~/src" = pre ++ Expansion.get_cwd_basename (sample_env 1000 1000) 64
       /\ (pre = [] \/ last pre = Some 47).
Proof.
  split; [reflexivity|].
  destruct (cwd_basename_no_slash (sample_env 1000 1000) 64) as (_ & Hno & Hend).
  split.
  - apply Hno. vm_compute. discriminate.
  - apply Hend. vm_compute. lia.
Defined.
